(** * typeologist: font discovery, filtering, probing and retrieval

    A shallow embedding of [index.js] and the properties its specification
    states about it.

    Conventions of the model.
    - A JavaScript string is a [string]; each [ascii] stands for one UTF-16
      code unit, so the model covers the code units 0..255.
    - A JavaScript [Set] is a duplicate-free list in insertion order.
    - What the platform provides ([URL], [JSON.parse], [fetch], [fs],
      [path.join], the DOM built by jsdom) and what the command line gives
      are the fields of the class [Platform]; the program is a function of
      them. The platform answers a request by its method and URL alone, and
      a write by its path and data alone.
    - A promise that may reject is a computation of the monad [M]: it takes
      the world (the requests issued and the files written so far), and
      gives a value or a thrown error together with the new world.
    - An [async] function that runs beside others is an [Async]
      computation, cut at its [await]s. The functions of a batch are called
      in the order of the batch, and each runs up to its first [await];
      they go on in the order in which what they wait for settles, which
      the platform gives. An operation of a batch seen on its own, as [M],
      is the [Async] function awaited alone.
    - The spinner and the colours of the report of [index.js] are not
      modelled. The first part of the definitions leaves out the prompts,
      the report and the creation of the output directory; the second part
      adds them, as the fields of the class [Session] and as data. *)

From Stdlib Require Import Ascii String List Bool Arith ZArith NArith Lia.
From Stdlib Require Import Sorting.Sorted Sorting.Permutation.
From stdpp Require Import gmap strings pretty.
Import ListNotations.

Local Open Scope string_scope.
Local Open Scope list_scope.
Local Open Scope nat_scope.

Set Warnings "-register-all".

(** ** JavaScript strings *)

Module JsString.

Definition code (c : ascii) : N := N_of_ascii c.

Definition in_range (lo hi : N) (c : ascii) : bool :=
  ((lo <=? code c) && (code c <=? hi))%N.

(** WhiteSpace and LineTerminator code units below 256: TAB, LF, VT, FF,
    CR, SP and NBSP. [trim] and the class [\s] use the same set. *)
Definition is_white (c : ascii) : bool :=
  in_range 9 13 c || (code c =? 32)%N || (code c =? 160)%N.

Definition lower_unit (c : ascii) : ascii :=
  if in_range 65 90 c then ascii_of_N (code c + 32)
  else if in_range 192 222 c && negb (code c =? 215)%N
       then ascii_of_N (code c + 32)
       else c.

Definition upper_unit (c : ascii) : ascii :=
  if in_range 97 122 c then ascii_of_N (code c - 32)
  else if in_range 224 254 c && negb (code c =? 247)%N
       then ascii_of_N (code c - 32)
       else c.

Fixpoint toLowerCase (s : string) : string :=
  match s with
  | EmptyString => EmptyString
  | String c s' => String (lower_unit c) (toLowerCase s')
  end.

Fixpoint str_drop (n : nat) (s : string) : string :=
  match n, s with
  | S k, String _ s' => str_drop k s'
  | _, _ => s
  end.

Fixpoint str_take (n : nat) (s : string) : string :=
  match n, s with
  | S k, String c s' => String c (str_take k s')
  | _, _ => EmptyString
  end.

Definition startsWith (s p : string) : bool :=
  String.eqb (str_take (String.length p) s) p.

Definition endsWith (s p : string) : bool :=
  (String.length p <=? String.length s)
  && String.eqb (str_drop (String.length s - String.length p) s) p.

(** [s.split(sep)] for a one-unit separator: never the empty array. *)
Fixpoint split (sep : ascii) (s : string) : list string :=
  match s with
  | EmptyString => [EmptyString]
  | String c s' =>
      if Ascii.eqb c sep then EmptyString :: split sep s'
      else match split sep s' with
           | x :: xs => String c x :: xs
           | [] => [String c EmptyString]
           end
  end.

(** [a.pop()] as an expression: the last element, [undefined] on []. *)
Definition pop (l : list string) : option string := List.last (map Some l) None.

Fixpoint trimStart (s : string) : string :=
  match s with
  | String c s' => if is_white c then trimStart s' else s
  | EmptyString => EmptyString
  end.

Fixpoint all_white (s : string) : bool :=
  match s with
  | String c s' => is_white c && all_white s'
  | EmptyString => true
  end.

Fixpoint trimEnd (s : string) : string :=
  match s with
  | String c s' => if all_white s then EmptyString else String c (trimEnd s')
  | EmptyString => EmptyString
  end.

Definition trim (s : string) : string := trimEnd (trimStart s).

(** [a.join(sep)] *)
Fixpoint join (sep : string) (l : list string) : string :=
  match l with
  | [] => EmptyString
  | [x] => x
  | x :: xs => x +:+ sep +:+ join sep xs
  end.

Fixpoint str_forallb (p : ascii -> bool) (s : string) : bool :=
  match s with
  | String c s' => p c && str_forallb p s'
  | EmptyString => true
  end.

Fixpoint str_existsb (p : ascii -> bool) (s : string) : bool :=
  match s with
  | String c s' => p c || str_existsb p s'
  | EmptyString => false
  end.

End JsString.
Import JsString.

(** ** The words of the specification

    What the specification says in prose, as propositions that do not
    mention the functions of the program. *)

(** [s] ends with [suffix]. *)
Definition ends_with (s suffix : string) : Prop :=
  exists p, s = p +:+ suffix.

(** [seg] is the final component of [path] when [path] is cut at its
    slashes. *)
Definition final_segment (path seg : string) : Prop :=
  str_existsb (Ascii.eqb "/") seg = false
  /\ (path = seg \/ exists dir, path = dir +:+ "/" +:+ seg).

(** An extension with one leading dot taken off, if it has one. *)
Definition strip_dot (ext : string) : string :=
  match ext with
  | String "." rest => rest
  | _ => ext
  end.

(** ** Regular expressions

    The patterns of [index.js] use literals, classes, sequencing, greedy
    quantifiers and the two anchors. [matches] lists every way the pattern
    matches at the head of the input, in the priority order of the
    backtracking matcher of ECMAScript: the head of the list is the match
    the engine reports. *)

Module Regex.

Inductive cls_item : Type :=
| CChar (c : ascii)
| CRange (lo hi : ascii)
| CSpace.

Inductive regex : Type :=
| Eps
| Lit (c : ascii)
| Cls (negated : bool) (items : list cls_item)
| Seq (r1 r2 : regex)
| Rep (r : regex) (min : nat) (max : option nat)
| Bol
| Eol.

Definition Opt (r : regex) : regex := Rep r 0 (Some 1).
Definition Star (r : regex) : regex := Rep r 0 None.
Definition Plus (r : regex) : regex := Rep r 1 None.
Definition seq (rs : list regex) : regex := fold_right Seq Eps rs.

(** Canonicalize of the [i] flag (non-unicode mode). *)
Definition canon (ic : bool) (c : ascii) : ascii :=
  if ic then upper_unit c else c.

Definition item_units (ic : bool) (x : ascii) (it : cls_item) : bool :=
  match it with
  | CChar c => Ascii.eqb (canon ic c) (canon ic x)
  | CRange lo hi =>
      in_range (code lo) (code hi) x
      || (ic && (in_range (code lo) (code hi) (upper_unit x)
                 || in_range (code lo) (code hi) (lower_unit x)))
  | CSpace => is_white x
  end.

Definition cls_accepts (ic neg : bool) (items : list cls_item) (x : ascii) : bool :=
  xorb neg (existsb (item_units ic x) items).

(** A match and what follows it. *)
Abbreviation result := (string * string)%type.

(** RepeatMatcher: an iteration that consumes nothing is refused once
    [min] is reached. [fuel] counts the iterations that can still take
    place: [max] of them, or [min + length s] when there is no maximum,
    since each iteration then lowers [min] or consumes a unit. *)
Fixpoint rep_go (f : bool -> string -> list result) (fuel min : nat)
    (bol : bool) (s : string) : list result :=
  match fuel with
  | 0 => if min =? 0 then [(EmptyString, s)] else []
  | S n =>
      flat_map
        (fun '(m1, s1) =>
           if (min =? 0) && String.eqb m1 EmptyString then []
           else map (fun '(m2, s2) => (m1 +:+ m2, s2))
                    (rep_go f n (Nat.pred min)
                            (bol && String.eqb m1 EmptyString) s1))
        (f bol s)
      ++ (if min =? 0 then [(EmptyString, s)] else [])
  end.

Fixpoint matches (ic : bool) (r : regex) (bol : bool) (s : string) : list result :=
  match r with
  | Eps => [(EmptyString, s)]
  | Lit c =>
      match s with
      | String x s' =>
          if Ascii.eqb (canon ic c) (canon ic x)
          then [(String x EmptyString, s')] else []
      | EmptyString => []
      end
  | Cls neg items =>
      match s with
      | String x s' =>
          if cls_accepts ic neg items x
          then [(String x EmptyString, s')] else []
      | EmptyString => []
      end
  | Seq r1 r2 =>
      flat_map
        (fun '(m1, s1) =>
           map (fun '(m2, s2) => (m1 +:+ m2, s2))
               (matches ic r2 (bol && String.eqb m1 EmptyString) s1))
        (matches ic r1 bol s)
  | Rep r' min max =>
      rep_go (matches ic r')
             (match max with Some k => k | None => min + String.length s end)
             min bol s
  | Bol => if bol then [(EmptyString, s)] else []
  | Eol => match s with EmptyString => [(EmptyString, s)] | _ => [] end
  end.

(** The 256 units of the model. *)
Definition all_units : list ascii := map ascii_of_nat (List.seq 0 256).

(** Every unit that an atom of [r] can consume satisfies [q]. *)
Fixpoint atoms_within (ic : bool) (q : ascii -> bool) (r : regex) : bool :=
  match r with
  | Lit c =>
      forallb (fun x => implb (Ascii.eqb (canon ic c) (canon ic x)) (q x)) all_units
  | Cls neg items =>
      forallb (fun x => implb (cls_accepts ic neg items x) (q x)) all_units
  | Seq r1 r2 => atoms_within ic q r1 && atoms_within ic q r2
  | Rep r' _ _ => atoms_within ic q r'
  | Eps | Bol | Eol => true
  end.

(** A regular expression literal: its pattern and its [g] and [i] flags. *)
Record RegExp : Type := mkRegExp {
  source : regex;
  global : bool;
  ignoreCase : bool
}.

Definition match_here (re : RegExp) (bol : bool) (s : string) : option string :=
  match matches (ignoreCase re) (source re) bol s with
  | (m, _) :: _ => Some m
  | [] => None
  end.

(** The matches of a global pattern, left to right. After a match of
    [n] units the next attempt starts [n] units further (one unit
    further after an empty match): [skip] counts the units still to pass. *)
Fixpoint scan (re : RegExp) (bol : bool) (skip : nat) (s : string) : list string :=
  match skip with
  | S k =>
      match s with
      | String _ s' => scan re false k s'
      | EmptyString => []
      end
  | 0 =>
      match match_here re bol s with
      | Some m =>
          m :: match s with
               | String _ s' => scan re false (Nat.pred (String.length m)) s'
               | EmptyString => []
               end
      | None =>
          match s with
          | String _ s' => scan re false 0 s'
          | EmptyString => []
          end
      end
  end.

(** [text.match(re)] for a global [re]: the array of matches, [null]
    (here []) when there is none. *)
Definition String_match (text : string) (re : RegExp) : list string :=
  scan re true 0 text.

(** The leftmost match: what precedes it, the match, what follows it. *)
Fixpoint leftmost (re : RegExp) (bol : bool) (s : string)
  : option (string * string * string) :=
  match match_here re bol s with
  | Some m => Some (EmptyString, m, str_drop (String.length m) s)
  | None =>
      match s with
      | String c s' =>
          match leftmost re false s' with
          | Some (pre, m, post) => Some (String c pre, m, post)
          | None => None
          end
      | EmptyString => None
      end
  end.

(** [re.test(s)] and [s.replace(re, by)] for a pattern without [g]. *)
Definition test (re : RegExp) (s : string) : bool :=
  match leftmost re true s with Some _ => true | None => false end.

Definition replace (s : string) (re : RegExp) (by_ : string) : string :=
  match leftmost re true s with
  | Some (pre, _, post) => pre +:+ by_ +:+ post
  | None => s
  end.

End Regex.
Import Regex.

(** ** The URL Pattern Extractor: [extractUrlsFromText] *)

(** A JavaScript [Set] of strings, in insertion order. *)
Definition Set_has (x : string) (s : list string) : bool :=
  existsb (String.eqb x) s.

Definition Set_add (x : string) (s : list string) : list string :=
  if Set_has x s then s else s ++ [x].

Definition Set_add_all (xs s : list string) : list string :=
  fold_left (fun acc x => Set_add x acc) xs s.

Local Open Scope char_scope.

(** The units that end a URL, written D below: white space, both quote
    marks, angle brackets, braces, square brackets, bar, backslash, caret
    and backtick. *)
Definition delimiters : list cls_item :=
  [CSpace; CChar "034"; CChar "'"; CChar "<"; CChar ">"; CChar "{"; CChar "}";
   CChar "|"; CChar "\"; CChar "^"; CChar "`"; CChar "["; CChar "]"].

Definition alnum : list cls_item := [CRange "a" "z"; CRange "A" "Z"; CRange "0" "9"].
Definition alnum_dash : list cls_item := alnum ++ [CChar "-"].
Definition alpha : list cls_item := [CRange "a" "z"; CRange "A" "Z"].

(** [[a-zA-Z0-9]([a-zA-Z0-9\-]{0,61}[a-zA-Z0-9])?] *)
Definition host_label : regex :=
  seq [Cls false alnum;
       Opt (seq [Rep (Cls false alnum_dash) 0 (Some 61); Cls false alnum])].

(** [/https?:\/\/[^D]+/gi] *)
Definition pattern_absolute : RegExp :=
  mkRegExp
    (seq [Lit "h"; Lit "t"; Lit "t"; Lit "p"; Opt (Lit "s"); Lit ":"; Lit "/"; Lit "/";
          Plus (Cls true delimiters)])
    true true.

(** [/\/\/[^D]+/gi] *)
Definition pattern_protocol_relative : RegExp :=
  mkRegExp (seq [Lit "/"; Lit "/"; Plus (Cls true delimiters)]) true true.

(** [/ label ( \. label )* \. [a-zA-Z]{2,} ( \/ [^D]* )? /gi], spaces added *)
Definition pattern_hostname : RegExp :=
  mkRegExp
    (seq [host_label;
          Star (seq [Lit "."; host_label]);
          Lit "."; Rep (Cls false alpha) 2 None;
          Opt (seq [Lit "/"; Star (Cls true delimiters)])])
    true true.

(** [/\/[^D]+/gi] *)
Definition pattern_root_relative : RegExp :=
  mkRegExp (seq [Lit "/"; Plus (Cls true delimiters)]) true true.

Definition urlPatterns : list RegExp :=
  [pattern_absolute; pattern_protocol_relative; pattern_hostname;
   pattern_root_relative].

Definition trailing_units : list cls_item :=
  [CChar "."; CChar ","; CChar ";"; CChar "!"; CChar "?"].

(** [/[.,;!?]+$/] *)
Definition re_trailing : RegExp :=
  mkRegExp (seq [Plus (Cls false trailing_units); Eol]) false false.

(** [/^[.,;!?\/]+$/] *)
Definition re_only_punct : RegExp :=
  mkRegExp (seq [Bol; Plus (Cls false (trailing_units ++ [CChar "/"])); Eol])
           false false.

Local Close Scope char_scope.

Definition cleanUrl (m : string) : string :=
  replace (trim m) re_trailing EmptyString.

Definition keeps (c : string) : bool :=
  (2 <? String.length c) && negb (test re_only_punct c).

Definition extractUrlsFromText (text : string) : list string :=
  fold_left
    (fun urls pattern =>
       fold_left
         (fun urls m =>
            let c := cleanUrl m in
            if keeps c then Set_add c urls else urls)
         (String_match text pattern) urls)
    urlPatterns [].


(** What the specification says of the strings that the extractor
    returns. *)

(** A unit of the trailing punctuation. *)
Definition is_trailing_unit (c : ascii) : bool :=
  existsb (Ascii.eqb c) ["."; ","; ";"; "!"; "?"]%char.

(** A unit of punctuation, or a slash. *)
Definition is_punct_or_slash (c : ascii) : bool :=
  is_trailing_unit c || Ascii.eqb c "/".

(** [u] is [raw] without its trailing run of punctuation: what was taken
    off is punctuation, and what is left does not end in punctuation. *)
Definition stripped (raw u : string) : Prop :=
  (exists run, raw = u +:+ run /\ str_forallb is_trailing_unit run = true)
  /\ forall v c, u = v +:+ String c "" -> is_trailing_unit c = false.

(** [v] occurs in [u] as a contiguous part. *)
Definition part_of (v u : string) : Prop :=
  exists a b, u = a +:+ v +:+ b.

(** The extractor run once more, over the strings it returned written one
    after the other with [sep] between them. *)
Definition rescan (sep : ascii) (text : string) : list string :=
  extractUrlsFromText (join (String sep "") (extractUrlsFromText text)).

(** ** Promises, exceptions and the world *)

Inductive Method : Type := GET | HEAD.

(** What the program has done to its environment: the requests it issued,
    oldest first, and the files it wrote. *)
Record World : Type := mkWorld {
  requests : list (Method * string);
  files : gmap string (list Byte.byte)
}.

(** How a computation ends: with a value, or with a thrown [Error] (its
    [message]). *)
Inductive Result (A : Type) : Type :=
| Ret (a : A)
| Throw (message : string).
Arguments Ret {A} a.
Arguments Throw {A} message.

(** How a function that may call [process.exit] ends. *)
Inductive Completion (A : Type) : Type :=
| Returns (a : A)
| Exits (code : nat).
Arguments Returns {A} a.
Arguments Exits {A} code.

Definition M (A : Type) : Type := World -> Result A * World.

Definition ret {A} (a : A) : M A := fun w => (Ret a, w).
Definition throw {A} (message : string) : M A := fun w => (Throw message, w).

Definition bind {A B} (m : M A) (k : A -> M B) : M B :=
  fun w =>
    match m w with
    | (Ret a, w') => k a w'
    | (Throw e, w') => (Throw e, w')
    end.

Notation "'let*' x := m 'in' k" := (bind m (fun x => k))
  (at level 10, x name, m at level 100, k at level 200).

(** [try { m } catch (error) { h(error.message) }] *)
Definition try_catch {A} (m : M A) (h : string -> M A) : M A :=
  fun w =>
    match m w with
    | (Throw e, w') => h e w'
    | other => other
    end.

Definition lift {A} (r : Result A) : M A := fun w => (r, w).

(** ** Async functions

    An [async] function runs until it comes to an [await], and goes on when
    what it awaits has settled; other functions run in between. A function
    that was called is a [Step]: it has finished, or it waits; the world is
    the world when it stopped, and [resume] is the rest of the function,
    which starts in the world of the moment when it goes on. *)
Inductive Step (A : Type) : Type :=
| Completed (r : Result A) (w : World)
| Waiting (w : World) (resume : World -> Step A).
Arguments Completed {A} r w.
Arguments Waiting {A} w resume.

Definition Async (A : Type) : Type := World -> Step A.

Definition a_ret {A} (a : A) : Async A := fun w => Completed (Ret a) w.

Fixpoint then_step {A B} (s : Step A) (k : A -> Async B) : Step B :=
  match s with
  | Completed (Ret a) w => k a w
  | Completed (Throw e) w => Completed (Throw e) w
  | Waiting w resume => Waiting w (fun w' => then_step (resume w') k)
  end.

Definition a_bind {A B} (m : Async A) (k : A -> Async B) : Async B :=
  fun w => then_step (m w) k.

Notation "'let!' x := m 'in' k" := (a_bind m (fun x => k))
  (at level 10, x name, m at level 100, k at level 200).

Fixpoint catch_step {A} (s : Step A) (h : string -> Async A) : Step A :=
  match s with
  | Completed (Throw e) w => h e w
  | Completed (Ret a) w => Completed (Ret a) w
  | Waiting w resume => Waiting w (fun w' => catch_step (resume w') h)
  end.

(** [try { m } catch (error) { h(error.message) }] in an [async] function *)
Definition a_try_catch {A} (m : Async A) (h : string -> Async A) : Async A :=
  fun w => catch_step (m w) h.

(** A call that is not awaited: it is over when it returns. *)
Definition now {A} (m : M A) : Async A :=
  fun w => let '(r, w') := m w in Completed r w'.

(** [await m()] for a call [m()] of the platform that returns a promise:
    what the call does, it does at once; the function goes on when the
    promise has settled, with its value or with its error. *)
Definition await {A} (m : M A) : Async A :=
  fun w => let '(r, w') := m w in Waiting w' (fun w'' => Completed r w'').

Fixpoint await_step {A} (s : Step A) : Step A :=
  match s with
  | Completed r w => Waiting w (fun w' => Completed r w')
  | Waiting w resume => Waiting w (fun w' => await_step (resume w'))
  end.

(** [await f()] for an [async] function [f]: [f] runs up to its first
    [await] at once; the caller goes on when [f] has finished. *)
Definition await_call {A} (f : Async A) : Async A :=
  fun w => await_step (f w).

(** A function that nothing else runs beside. *)
Fixpoint alone {A} (s : Step A) : Result A * World :=
  match s with
  | Completed r w => (r, w)
  | Waiting w resume => alone (resume w)
  end.

Definition awaited {A} (f : Async A) : M A := fun w => alone (f w).

(** ** The promises of a batch

    A promise of the batch is settled, or its function waits. *)
Inductive Task (A : Type) : Type :=
| Settled (r : Result A)
| Pending (resume : World -> Step A).
Arguments Settled {A} r.
Arguments Pending {A} resume.

Definition task_of {A} (s : Step A) : Task A * World :=
  match s with
  | Completed r w => (Settled r, w)
  | Waiting w resume => (Pending resume, w)
  end.

(** [batch.map(op)]: the functions are called one after the other, in the
    order of the batch, and each runs up to its first [await]. *)
Fixpoint call_all {A} (ps : list (Async A)) (w : World) : list (Task A) * World :=
  match ps with
  | [] => ([], w)
  | p :: ps' =>
      let '(t, w1) := task_of (p w) in
      let '(ts, w2) := call_all ps' w1 in
      (t :: ts, w2)
  end.

(** The error of the promise that rejected first, if any has. *)
Definition note {A} (t : Task A) (first : option string) : option string :=
  match first, t with
  | None, Settled (Throw e) => Some e
  | _, _ => first
  end.

(** What the function at index [i] waits for has settled: the function goes
    on, up to its next [await] or to its end. Nothing happens when it has
    finished already. *)
Fixpoint resume_at {A} (i : nat) (pool : list (Task A)) (first : option string)
    (w : World) {struct pool} : list (Task A) * option string * World :=
  match pool with
  | [] => ([], first, w)
  | t :: pool' =>
      match i with
      | 0 =>
          match t with
          | Pending resume =>
              let '(t', w') := task_of (resume w) in
              (t' :: pool', note t' first, w')
          | Settled _ => (pool, first, w)
          end
      | S j =>
          let '(pool'', first', w') := resume_at j pool' first w in
          (t :: pool'', first', w')
      end
  end.

Fixpoint event_loop {A} (order : list nat) (pool : list (Task A))
    (first : option string) (w : World) : list (Task A) * option string * World :=
  match order with
  | [] => (pool, first, w)
  | i :: order' =>
      let '(pool', first', w') := resume_at i pool first w in
      event_loop order' pool' first' w'
  end.

(** The functions that wait still go on to their end, in the order of the
    batch. *)
Fixpoint drain {A} (pool : list (Task A)) (first : option string) (w : World)
  : list (Result A) * option string * World :=
  match pool with
  | [] => ([], first, w)
  | Settled r :: pool' =>
      let '(rs, first', w') := drain pool' first w in
      (r :: rs, first', w')
  | Pending resume :: pool' =>
      let '(r, w1) := alone (resume w) in
      let '(rs, first', w2) := drain pool' (note (Settled r) first) w1 in
      (r :: rs, first', w2)
  end.

(** The promises of a batch, once the functions have been called, until
    all of them are settled. [order] is the order in which what the
    functions wait for settles: each of its entries is the index, in the
    batch, of the function that goes on next. The results come in the
    order of the batch, with the error of the first rejection. *)
Definition settle {A} (order : list nat) (pool : list (Task A))
    (first : option string) (w : World)
  : list (Result A) * option string * World :=
  let '(pool', first', w') := event_loop order pool first w in
  drain pool' first' w'.

(** The array of the values when every promise fulfils, else the first
    failure in the order of the array. *)
Fixpoint all_fulfilled {A} (rs : list (Result A)) : Result (list A) :=
  match rs with
  | [] => Ret []
  | Ret a :: rs' =>
      match all_fulfilled rs' with
      | Ret l => Ret (a :: l)
      | other => other
      end
  | Throw e :: _ => Throw e
  end.

(** [await Promise.all(ps.map(p => p()))]: the array of the values in the
    order of [ps], or the error of the promise that rejected first.
    [settling] is the order of settlement, which the platform decides; it
    may depend on the world at the moment when the functions have been
    called. When a promise rejects the others go on all the same; the
    model lets them finish before [Promise.all] is left. *)
Definition Promise_all {A} (settling : World -> list nat) (ps : list (Async A))
  : M (list A) :=
  fun w =>
    let '(pool, w1) := call_all ps w in
    let rejected := fold_left (fun first t => note t first) pool None in
    let '(rs, first, w2) := settle (settling w1) pool rejected w1 in
    (match first with
     | Some e => Throw e
     | None => all_fulfilled rs
     end, w2).

(** [a.slice(i, j)] for [0 <= i <= j]. *)
Definition slice {A} (i j : nat) (l : list A) : list A :=
  firstn (j - i) (skipn i l).

(** A function that fulfils however the world has changed while it
    waited. *)
Inductive never_rejects {A} : Step A -> Prop :=
| never_rejects_finished (a : A) (w : World) :
    never_rejects (Completed (Ret a) w)
| never_rejects_waiting (w : World) (resume : World -> Step A) :
    (forall w', never_rejects (resume w')) -> never_rejects (Waiting w resume).

(** A function that settles with [r] however the world has changed while
    it waited. *)
Inductive gives {A} (r : Result A) : Step A -> Prop :=
| gives_finished (w : World) : gives r (Completed r w)
| gives_waiting (w : World) (resume : World -> Step A) :
    (forall w', gives r (resume w')) -> gives r (Waiting w resume).

(** ** The batched executor

    [testUrls] and [downloadFontFiles] contain the same loop:
<<
    for (let i = 0; i < urls.length; i += CONCURRENCY_LIMIT) {
      const batch = urls.slice(i, i + CONCURRENCY_LIMIT);
      const batchResults = await Promise.all(batch.map(op));
      results.push(...batchResults);
    }
>>
    [batch_loop] is that loop, from the state [(i, results)]; it gives
    [None] when [fuel] iterations were not enough. [op] is an [async]
    function, and [settling] the order in which the promises of a batch
    settle. *)

(** [Math.max(1, parseInt(argv.concurrency) || 30)]; [None] is [NaN]. *)
Definition CONCURRENCY_LIMIT (parsed : option Z) : Z :=
  Z.max 1 (match parsed with
           | Some n => if (n =? 0)%Z then 30 else n
           | None => 30
           end)%Z.

Section Executor.
Context {T R : Type}.
Variable limit : nat.
Variable settling : World -> list nat.
Variable op : T -> Async R.
Variable urls : list T.

Fixpoint batch_loop (fuel i : nat) (results : list R) (w : World)
  : option (Result (list R) * World) :=
  if i <? length urls then
    match fuel with
    | 0 => None
    | S fuel' =>
        let batch := slice i (i + limit) urls in
        match Promise_all settling (map op batch) w with
        | (Ret batchResults, w') =>
            batch_loop fuel' (i + limit) (results ++ batchResults) w'
        | (Throw e, w') => Some (Throw e, w')
        end
    end
  else Some (Ret results, w).

Definition runBatched (w : World) : option (Result (list R) * World) :=
  batch_loop (length urls) 0 [] w.

(** The batches the loop takes, in the order it takes them. *)
Fixpoint chunks_from (fuel i : nat) : list (list T) :=
  match fuel with
  | 0 => []
  | S fuel' =>
      if i <? length urls
      then slice i (i + limit) urls :: chunks_from fuel' (i + limit)
      else []
  end.

Definition chunks : list (list T) := chunks_from (length urls) 0.

(** Processing a list of batches one after the other: the next batch
    starts when every promise of the previous one is settled, and the
    results of a batch are appended in the order of its items. *)
Fixpoint run_chunks (cs : list (list T)) (results : list R) (w : World)
  : Result (list R) * World :=
  match cs with
  | [] => (Ret results, w)
  | batch :: cs' =>
      match Promise_all settling (map op batch) w with
      | (Ret batchResults, w') => run_chunks cs' (results ++ batchResults) w'
      | (Throw e, w') => (Throw e, w')
      end
  end.

(** The operation never rejects, whenever it is called and whenever it
    goes on. *)
Definition fulfils : Prop :=
  forall x w, never_rejects (op x w).

End Executor.

(** ** The platform

    What [index.js] imports or finds in its runtime. *)

(** The fields of a [URL] object that the program or its specification
    mention. *)
Record URL : Type := mkURL {
  protocol : string;
  host : string;
  pathname : string;
  search : string;
  hash : string;
  href : string
}.

(** A [fetch] response; reading its body may fail. *)
Record Response : Type := mkResponse {
  status : N;
  url : string;
  text : Result string;
  arrayBuffer : Result (list Byte.byte)
}.

(** [response.ok]: the status is in the range 200 to 299. *)
Definition ok (r : Response) : bool :=
  ((200 <=? status r) && (status r <=? 299))%N.

(** The DOM that jsdom builds. *)
Inductive Node : Type :=
| TextNode (data : string)
| Element (localName : string) (attributes : list (string * string))
          (childNodes : list Node).

(** A value of [JSON.parse]; the members of an object come in the order
    in which [for ... in] enumerates them. *)
Inductive json : Type :=
| JNull
| JBool (b : bool)
| JNumber (literal : string)
| JString (s : string)
| JArray (items : list json)
| JObject (members : list (string * json)).

Class Platform : Type := {
  (** [new URL(input)] and [new URL(input, base)]; throws on failure *)
  new_URL : string -> option string -> Result URL;
  (** the outcome of [fetch(url, {method})]: a response or a transport error *)
  network : Method -> string -> Result Response;
  (** the error, if any, that [fs.writeFileSync(path, data)] throws *)
  write_error : string -> list Byte.byte -> option string;
  (** [path.join(a, b)] *)
  path_join : string -> string -> string;
  (** [JSON.parse] *)
  JSON_parse : string -> Result json;
  (** [new JSDOM(html).window.document]: the root nodes of the document *)
  JSDOM : string -> list Node;
  (** [OUTPUT_DIR], from the command line and the environment *)
  OUTPUT_DIR : string;
  (** [parseInt(argv.concurrency)], [None] for [NaN] *)
  argv_concurrency : option Z;
  (** the order in which the promises of a batch settle, given the world
      when the functions of the batch have been called: the indexes, in the
      batch, of the functions that go on, one after the other *)
  settling : World -> list nat
}.

Section Program.
Context `{Platform}.

Definition limit : nat := Z.to_nat (CONCURRENCY_LIMIT argv_concurrency).

Definition fetch (method : Method) (u : string) : M Response :=
  fun w =>
    (network method u,
     mkWorld (requests w ++ [(method, u)]) (files w)).

Definition writeFileSync (path : string) (data : list Byte.byte) : M unit :=
  fun w =>
    match write_error path data with
    | Some e => (Throw e, w)
    | None => (Ret tt, mkWorld (requests w) (<[path := data]> (files w)))
    end.

(** [pathname.split("/").pop()] *)
Definition lastSegment (path : string) : option string :=
  pop (split "/" path).

(** *** The Extension Filter *)

Definition normalizedExt (ext : string) : string :=
  if startsWith ext "." then ext else "." +:+ ext.

Definition hasExtension (extensions : list string) (u : string) : bool :=
  match new_URL u None with
  | Ret urlObj =>
      match lastSegment (pathname urlObj) with
      | Some last =>
          existsb
            (fun ext => endsWith (toLowerCase last) (toLowerCase (normalizedExt ext)))
            extensions
      | None => false
      end
  | _ => false
  end.

Definition filterUrlsByExtension (urls extensions : list string) : list string :=
  List.filter (hasExtension extensions) urls.

(** *** The Reachability Prober *)

Definition testUrl_async (u : string) : Async bool :=
  a_try_catch
    (let! response := await (fetch HEAD u) in a_ret (ok response))
    (fun _ => a_ret false).

(** [testUrl] awaited alone. *)
Definition testUrl (u : string) : M bool := awaited (testUrl_async u).

Record ProbeResult : Type := mkProbe {
  probe_url : string;
  accessible : bool
}.

(** [async (url) => ({url, accessible: await testUrl(url)})] *)
Definition probe_async (u : string) : Async ProbeResult :=
  let! a := await_call (testUrl_async u) in a_ret (mkProbe u a).

(** The function of the batch awaited alone. *)
Definition probe (u : string) : M ProbeResult := awaited (probe_async u).

(** The [results] of [testUrls] when its loop ends. *)
Definition testUrls_results (urls : list string) (w : World)
  : option (Result (list ProbeResult) * World) :=
  runBatched limit settling probe_async urls w.

Definition testUrls (urls : list string) (w : World)
  : option (Result (list string) * World) :=
  match testUrls_results urls w with
  | Some (Ret results, w') =>
      Some (Ret (map probe_url (List.filter accessible results)), w')
  | Some (Throw e, w') => Some (Throw e, w')
  | None => None
  end.

(** *** The Retriever *)

Record DownloadOutcome : Type := mkOutcome {
  success : bool;
  filename : string;
  error : option string
}.

(** The function that [downloadFontFiles] maps over a batch. *)
Definition download_async (u : string) : Async DownloadOutcome :=
  a_try_catch
    (let! urlObj := now (lift (new_URL u None)) in
     match lastSegment (pathname urlObj) with
     | None | Some EmptyString =>
         a_ret (mkOutcome false "unknown" (Some "No filename found"))
     | Some name =>
         let! response := await (fetch GET u) in
         if negb (ok response) then
           a_ret (mkOutcome false name (Some ("HTTP " +:+ pretty (status response))))
         else
           let! buffer := await (lift (arrayBuffer response)) in
           let filePath := path_join OUTPUT_DIR name in
           let! _ := now (writeFileSync filePath buffer) in
           a_ret (mkOutcome true name None)
     end)
    (fun message => a_ret (mkOutcome false "unknown" (Some message))).

(** The function of the batch awaited alone. *)
Definition download (u : string) : M DownloadOutcome := awaited (download_async u).

(** The [results] of [downloadFontFiles] when its loop ends. *)
Definition downloadFontFiles_results (urls : list string) (w : World)
  : option (Result (list DownloadOutcome) * World) :=
  runBatched limit settling download_async urls w.

(** *** The catalog of formats *)

Inductive Color : Type := blue | yellow | green | cyan | magenta | red.

Record FontFormat : Type := mkFormat {
  name : string;
  display : string;
  color : Color;
  extensions : list string
}.

Definition FONT_FORMATS : list FontFormat :=
  [mkFormat "all" "All Formats" blue ["woff2"; "woff"; "ttf"; "otf"; "eot"];
   mkFormat "woff2" "Web Open Font Format 2.0" yellow ["woff2"];
   mkFormat "woff" "Web Open Font Format" green ["woff"];
   mkFormat "ttf" "TrueType Font" cyan ["ttf"];
   mkFormat "otf" "OpenType Font" magenta ["otf"];
   mkFormat "eot" "Embedded OpenType" red ["eot"]].

(** The [extensions] that [init] collects from the selected formats. *)
Definition selectedExtensions (selectedFormats : list string) : list string :=
  flat_map
    (fun formatName =>
       match List.find (fun f => String.eqb (name f) formatName) FONT_FORMATS with
       | Some selectedFormat => extensions selectedFormat
       | None => []
       end)
    selectedFormats.

(** *** The choices offered to the user: [fontItems] of [init] *)

Definition colorMap : list (string * Color) :=
  [("woff2", yellow); ("woff", green); ("ttf", cyan); ("otf", magenta);
   ("eot", red)].

(** What [colorMap[extension] || blue] is. [colorMap] is an object literal,
    so that it has the keys of [Object.prototype] too; [extension] is in
    lower case, and the two of them in lower case are [constructor], whose
    value is the function [Object], and [__proto__], whose value is
    [Object.prototype], an object that is no function. *)
Inductive Paint : Type :=
| Colours (c : Color)
| ObjectFunction
| ObjectPrototype.

Definition colorOf (name : string) : Paint :=
  match option_map toLowerCase (pop (split "." name)) with
  | Some extension =>
      match List.find (fun kv => String.eqb (fst kv) extension) colorMap with
      | Some kv => Colours (snd kv)
      | None =>
          if String.eqb extension "constructor" then ObjectFunction
          else if String.eqb extension "__proto__" then ObjectPrototype
          else Colours blue
      end
  | None => Colours blue
  end.

(** [color(filename)]: the name in a colour; for [Object] the name as a
    [String] object. *)
Inductive Label : Type :=
| Coloured (c : Color) (name : string)
| Boxed (name : string).

Record FontItem : Type := mkItem {
  label : Label;
  value : string
}.

(** The item of a URL, if it has one: [None] is [null], which
    [filter(Boolean)] takes out. *)
Definition fontItem (u : string) : Result (option FontItem) :=
  match new_URL u None with
  | Ret urlObj =>
      match lastSegment (pathname urlObj) with
      | None | Some EmptyString => Ret None
      | Some name =>
          match colorOf name with
          | Colours c => Ret (Some (mkItem (Coloured c name) u))
          | ObjectFunction => Ret (Some (mkItem (Boxed name) u))
          | ObjectPrototype => Throw "color is not a function"
          end
      end
  | Throw e => Throw e
  end.

Fixpoint fontItems (accessibleUrls : list string) : Result (list FontItem) :=
  match accessibleUrls with
  | [] => Ret []
  | u :: rest =>
      match fontItem u with
      | Ret item =>
          match fontItems rest with
          | Ret items =>
              Ret (match item with Some i => i :: items | None => items end)
          | Throw e => Throw e
          end
      | Throw e => Throw e
      end
  end.

(** *** The Document Scanner *)

Fixpoint textContent (n : Node) : string :=
  match n with
  | TextNode data => data
  | Element _ _ children =>
      (fix go (l : list Node) : string :=
         match l with
         | [] => EmptyString
         | c :: l' => textContent c +:+ go l'
         end) children
  end.

(** The element itself and the elements below it, in tree order. *)
Fixpoint elementsOf (n : Node) : list Node :=
  match n with
  | TextNode _ => []
  | Element _ _ children =>
      n :: (fix go (l : list Node) : list Node :=
              match l with
              | [] => []
              | c :: l' => elementsOf c ++ go l'
              end) children
  end.

(** [document.querySelectorAll("*")] *)
Definition allElements (document : list Node) : list Node :=
  flat_map elementsOf document.

Definition isElement (tag : string) (n : Node) : bool :=
  match n with
  | Element t _ _ => String.eqb t tag
  | TextNode _ => false
  end.

Definition attributesOf (n : Node) : list (string * string) :=
  match n with
  | Element _ attrs _ => attrs
  | TextNode _ => []
  end.

Definition childrenOf (n : Node) : list Node :=
  match n with
  | Element _ _ children => children
  | TextNode _ => []
  end.

Definition isAnyElement (n : Node) : bool :=
  match n with
  | Element _ _ _ => true
  | TextNode _ => false
  end.

(** [document.body]: the first child of the document element that is a
    [body] or a [frameset], when the document element is [html]. *)
Definition body (document : list Node) : option Node :=
  match List.find isAnyElement document with
  | Some root =>
      if isElement "html" root
      then List.find (fun n => isElement "body" n || isElement "frameset" n)
                     (childrenOf root)
      else None
  | None => None
  end.

(** [querySelectorAll('script[type=...]')] for the JSON-LD type. The
    document is an HTML document, where the value of [type] is compared
    without regard to the case of its ASCII letters; the value asked for
    has ASCII units only, and a unit that is not ASCII does not become one
    in lower case. *)
Definition isJsonLd (n : Node) : bool :=
  isElement "script" n
  && match List.find (fun kv => String.eqb (fst kv) "type") (attributesOf n) with
     | Some kv => String.eqb (toLowerCase (snd kv)) "application/ld+json"
     | None => false
     end.

(** [extractUrlsFromJson(obj, urls)]: [urls] is updated in place, so what
    was added stays added when the walk throws. An object with an own
    member named [hasOwnProperty] makes the call [obj.hasOwnProperty(key)]
    throw, since no JSON value is a function. *)
Fixpoint extractUrlsFromJson (obj : json) (urls : list string)
  : Result unit * list string :=
  match obj with
  | JString s => (Ret tt, Set_add_all (extractUrlsFromText s) urls)
  | JArray items =>
      (fix each (l : list json) (urls : list string) :=
         match l with
         | [] => (Ret tt, urls)
         | x :: l' =>
             match extractUrlsFromJson x urls with
             | (Ret _, urls') => each l' urls'
             | other => other
             end
         end) items urls
  | JObject members =>
      if existsb (fun kv => String.eqb (fst kv) "hasOwnProperty") members
      then (Throw "obj.hasOwnProperty is not a function", urls)
      else
        (fix each (l : list (string * json)) (urls : list string) :=
           match l with
           | [] => (Ret tt, urls)
           | (_, x) :: l' =>
               match extractUrlsFromJson x urls with
               | (Ret _, urls') => each l' urls'
               | other => other
               end
           end) members urls
  | _ => (Ret tt, urls)
  end.

Definition scanAttributes (document : list Node) (urls : list string) : list string :=
  fold_left
    (fun urls element =>
       fold_left
         (fun urls attr =>
            let value := snd attr in
            if negb (String.eqb value EmptyString)
               && negb (String.eqb (trim value) EmptyString)
            then Set_add_all (extractUrlsFromText (trim value)) urls
            else urls)
         (attributesOf element) urls)
    (allElements document) urls.

Definition scanText (document : list Node) (urls : list string) : list string :=
  let text := match body document with
              | Some b => textContent b
              | None => EmptyString
              end in
  Set_add_all (extractUrlsFromText text) urls.

Definition scanScripts (document : list Node) (urls : list string) : list string :=
  fold_left
    (fun urls script =>
       match JSON_parse (textContent script) with
       | Ret jsonData => snd (extractUrlsFromJson jsonData urls)
       | _ => urls
       end)
    (List.filter isJsonLd (allElements document)) urls.

Definition absolutize (responseUrl : string) (urls : list string) : list string :=
  fold_left
    (fun absoluteUrls u =>
       match new_URL u (Some responseUrl) with
       | Ret absoluteUrl => Set_add (href absoluteUrl) absoluteUrls
       | _ => Set_add u absoluteUrls
       end)
    urls [].

(** [a.sort()] on strings: ascending by code units. *)
Fixpoint insert_sorted (x : string) (l : list string) : list string :=
  match l with
  | [] => [x]
  | y :: l' => if String.leb x y then x :: l else y :: insert_sorted x l'
  end.

Definition sort (l : list string) : list string :=
  fold_right insert_sorted [] l.

(** Lines 118 to 160 of [extractUrls], once the page is there. *)
Definition scanDocument (document : list Node) (responseUrl : string) : list string :=
  let urls := scanScripts document (scanText document (scanAttributes document [])) in
  sort (absolutize responseUrl urls).

(** A failure inside [extractUrls] is reported and ends the process. *)
Definition extractUrls (u : string) (w : World) : Completion (list string) * World :=
  match
    (let* response := fetch GET u in
     if negb (ok response)
     then throw ("HTTP error! status: " +:+ pretty (status response))
     else
       let* html := lift (text response) in
       ret (scanDocument (JSDOM html) (url response))) w
  with
  | (Ret urls, w') => (Returns urls, w')
  | (Throw _, w') => (Exits 1, w')
  end.

End Program.

(** What the specification says of the Extension Filter: the URL parses,
    and the final segment of its path ends, whatever the case of the
    letters, with a dot and one of the extensions, an extension being taken
    without its leading dot. *)
Definition keeps_extension `{Platform} (extensions : list string) (u : string) : Prop :=
  exists urlObj seg ext,
    new_URL u None = Ret urlObj
    /\ final_segment (pathname urlObj) seg
    /\ In ext extensions
    /\ ends_with (toLowerCase seg) (toLowerCase ("." +:+ strip_dot ext)).

(** Two parsed URLs that differ, if at all, in their query string and in
    their fragment. *)
Definition same_but_query_and_fragment (a b : URL) : Prop :=
  protocol a = protocol b /\ host a = host b /\ pathname a = pathname b.

(** ** A reference platform

    An instance of [Platform] on which the program can be run inside Rocq.
    Its [URL] follows the URL Standard on plain inputs only: a lower-case
    [http] or [https] scheme, a host of lower-case labels, and a path, query
    and fragment made of units that the standard neither escapes nor
    rewrites; it throws on every other input. *)

Module Reference.

Local Open Scope char_scope.

Definition plain_unit (c : ascii) : bool :=
  in_range 97 122 c || in_range 65 90 c || in_range 48 57 c
  || existsb (Ascii.eqb c)
       ["-"; "."; "_"; "~"; "+"; "!"; "$"; "&"; "("; ")"; "*"; ","; ";";
        "="; ":"; "@"; "/"].

Definition host_unit (c : ascii) : bool :=
  in_range 97 122 c || in_range 48 57 c || Ascii.eqb c "-".

(** [s] cut before its first unit that satisfies [stop]. *)
Fixpoint break (stop : ascii -> bool) (s : string) : string * string :=
  match s with
  | EmptyString => (EmptyString, EmptyString)
  | String c s' =>
      if stop c then (EmptyString, s)
      else let '(a, b) := break stop s' in (String c a, b)
  end.

Definition label_ok (l : string) : bool :=
  negb (String.eqb l EmptyString)
  && str_forallb host_unit l
  && negb (startsWith l "xn--").

Definition host_ok (h : string) : bool :=
  let labels := split "." h in
  forallb label_ok labels
  && match pop labels with
     | Some (String c _) => in_range 97 122 c
     | _ => false
     end.

Definition segment_ok (seg : string) : bool :=
  negb (String.eqb seg ".") && negb (String.eqb seg "..").

Definition path_ok (p : string) : bool :=
  str_forallb plain_unit p && forallb segment_ok (split "/" p).

Definition after_mark (rest : string) : option string :=
  match rest with
  | EmptyString => None
  | String _ s => Some s
  end.

Definition opt_ok (p : ascii -> bool) (o : option string) : bool :=
  match o with
  | Some s => str_forallb p s
  | None => true
  end.

Definition with_mark (mark : string) (o : option string) : string :=
  match o with
  | Some s => mark +:+ s
  | None => EmptyString
  end.

Definition component (mark : string) (o : option string) : string :=
  match o with
  | Some (String c s) => mark +:+ String c s
  | _ => EmptyString
  end.

(** Path, query and fragment of what follows the host. *)
Definition tail_of (proto h tail : string) : Result URL :=
  let '(before_hash, frag) := break (Ascii.eqb "#") tail in
  let '(p, query) := break (Ascii.eqb "?") before_hash in
  let q := after_mark query in
  let f := after_mark frag in
  if path_ok p
     && opt_ok (fun c => plain_unit c || Ascii.eqb c "?") q
     && opt_ok (fun c => plain_unit c || Ascii.eqb c "?" || Ascii.eqb c "#") f
  then
    let p' := match p with EmptyString => "/"%string | _ => p end in
    Ret (mkURL proto h p' (component "?" q) (component "#" f)
               (proto +:+ "//" +:+ h +:+ p' +:+ with_mark "?" q +:+ with_mark "#" f))
  else Throw "Invalid URL".

Definition authority_of (proto rest : string) : Result URL :=
  let '(h, tail) :=
    break (fun c => Ascii.eqb c "/" || Ascii.eqb c "?" || Ascii.eqb c "#") rest in
  if host_ok h then tail_of proto h tail else Throw "Invalid URL".

Definition absolute (input : string) : Result URL :=
  if startsWith input "https://" then authority_of "https:" (str_drop 8 input)
  else if startsWith input "http://" then authority_of "http:" (str_drop 7 input)
  else Throw "Invalid URL".

(** The path of the base without its last segment. *)
Definition directory (p : string) : string :=
  match pop (split "/" p) with
  | Some last => str_take (String.length p - String.length last) p
  | None => p
  end.

Definition relative (input : string) (base : URL) : Result URL :=
  if str_existsb (Ascii.eqb ":") input then Throw "Invalid URL"
  else if startsWith input "//" then
    authority_of (protocol base) (str_drop 2 input)
  else if startsWith input "/" then
    tail_of (protocol base) (host base) input
  else
    match input with
    | EmptyString => Throw "Invalid URL"
    | String c _ =>
        if Ascii.eqb c "?" || Ascii.eqb c "#" then Throw "Invalid URL"
        else tail_of (protocol base) (host base)
                     (directory (pathname base) +:+ input)
    end.

Definition parse (input : string) (base : option string) : Result URL :=
  match base with
  | None => absolute input
  | Some b =>
      match absolute b with
      | Ret baseUrl =>
          match absolute input with
          | Ret u => Ret u
          | _ => relative input baseUrl
          end
      | other => other
      end
  end.

Local Close Scope char_scope.

Definition dq : string := String "034"%char EmptyString.

(** The page of the scanner scenario of the specification. *)
Definition page_url : string := "https://page-origin/".

Definition jsonld_text : string :=
  "{" +:+ dq +:+ "font" +:+ dq +:+ ":" +:+ dq
      +:+ "https://cdn.example.com/c.otf" +:+ dq +:+ "}".

Definition page_html : string :=
  "<html><head><script type=" +:+ dq +:+ "application/ld+json" +:+ dq +:+ ">"
    +:+ jsonld_text
    +:+ "</script></head><body><img src=" +:+ dq +:+ "/fonts/a.woff2" +:+ dq
    +:+ ">see https://cdn.example.com/b.ttf now</body></html>".

Definition page_document : list Node :=
  [Element "html" []
     [Element "head" []
        [Element "script" [("type", "application/ld+json")]
           [TextNode jsonld_text]];
      Element "body" []
        [Element "img" [("src", "/fonts/a.woff2")] [];
         TextNode "see https://cdn.example.com/b.ttf now"]]].

(** Every request is answered with the page; every body can be read and
    every file written; [JSON.parse] and jsdom know the page only; the
    promises of a batch settle in the order of the batch. *)
Definition platform_with (concurrency : option Z) : Platform := {|
  new_URL := parse;
  network := fun _ u =>
    Ret (mkResponse 200 u (Ret page_html) (Ret []));
  write_error := fun _ _ => None;
  path_join := fun a b => a +:+ "/" +:+ b;
  JSON_parse := fun s =>
    if String.eqb s jsonld_text
    then Ret (JObject [("font", JString "https://cdn.example.com/c.otf")])
    else Throw "Unexpected token";
  JSDOM := fun html =>
    if String.eqb html page_html then page_document else [];
  OUTPUT_DIR := "/home/user/Downloads/typeologist";
  argv_concurrency := concurrency;
  settling := fun _ => []
|}.

Definition platform : Platform := platform_with (Some 30%Z).

(** A platform with failures: hosts that begin with [down.] refuse the
    connection, [missing.woff2] is answered with status 404, the body of
    [broken.otf] cannot be read and [readonly.ttf] cannot be written. *)
Definition flaky : Platform := {|
  new_URL := parse;
  network := fun _ u =>
    if startsWith u "https://down." then Throw "connect ECONNREFUSED"
    else if endsWith u "/missing.woff2"
         then Ret (mkResponse 404 u (Ret EmptyString) (Ret []))
    else if endsWith u "/broken.otf"
         then Ret (mkResponse 200 u (Throw "Premature close") (Throw "Premature close"))
    else Ret (mkResponse 200 u (Ret EmptyString) (Ret []));
  write_error := fun path _ =>
    if endsWith path "/readonly.ttf" then Some "EACCES: permission denied"
    else None;
  path_join := fun a b => a +:+ "/" +:+ b;
  JSON_parse := fun _ => Throw "Unexpected token";
  JSDOM := fun _ => [];
  OUTPUT_DIR := "/home/user/Downloads/typeologist";
  argv_concurrency := Some 2%Z;
  settling := fun _ => []
|}.

(** A platform on which the order of the responses can be seen: the body
    of a response is the URL that was asked for, and the promises of a
    batch settle in the reverse order of the batch, once for the response
    and once for its body. The indices run down from the number of the
    requests issued so far, which is not less than the size of the batch;
    an index beyond the batch is passed over. *)
Definition racing (concurrency : option Z) : Platform := {|
  new_URL := parse;
  network := fun _ u =>
    Ret (mkResponse 200 u (Ret EmptyString)
           (Ret (map byte_of_ascii (list_ascii_of_string u))));
  write_error := fun _ _ => None;
  path_join := fun a b => a +:+ "/" +:+ b;
  JSON_parse := fun _ => Throw "Unexpected token";
  JSDOM := fun _ => [];
  OUTPUT_DIR := "/home/user/Downloads/typeologist";
  argv_concurrency := concurrency;
  settling := fun w =>
    let n := length (requests w) in rev (List.seq 0 n) ++ rev (List.seq 0 n)
|}.

End Reference.

(** ** Notions used in the proofs *)

(** What [r$] keeps of the matches of [r]. *)
Definition at_end (x : result) : list result :=
  match snd x with
  | EmptyString => [(fst x, EmptyString)]
  | _ => []
  end.

(** [u] does not end in a unit of trailing punctuation. *)
Definition ends_clean (u : string) : Prop :=
  forall v c, u = v +:+ String c "" -> is_trailing_unit c = false.

(** One step of the inner loop of [extractUrlsFromText]. *)
Definition collect (urls : list string) (m : string) : list string :=
  if keeps (cleanUrl m) then Set_add (cleanUrl m) urls else urls.

(** The matcher [f] splits its input into a match and a rest, and matches
    units that satisfy [q] only. *)
Definition sound (q : ascii -> bool) (f : bool -> string -> list result) : Prop :=
  forall bol s m rest,
    In (m, rest) (f bol s) -> s = m +:+ rest /\ str_forallb q m = true.

(** The order of [sort]. *)
Definition str_le (a b : string) : Prop := String.leb a b = true.

(** A unit that is not white space. *)
Definition without_white (c : ascii) : bool := negb (is_white c).


(** * The rest of [index.js]

    The output directory, the formats of the command line, the report of
    the retriever and [init] itself. What the user answers to a prompt and
    whether the output directory can be made are the fields of the class
    [Session]; a note of the report is a title and its lines, the marks
    and the colours being left to the terminal. *)

(** ** [getOutputDir]

    [argv.output], [process.env.HOME], [process.env.USERPROFILE] and
    [process.platform] are its inputs, [None] standing for [undefined];
    [join3] is [path.join] with three arguments. *)

(** The value when it is truthy: a string that is not empty. *)
Definition truthy (v : option string) : option string :=
  match v with
  | Some (String c s) => Some (String c s)
  | _ => None
  end.

Definition getOutputDir (join3 : string -> string -> string -> string)
    (output HOME USERPROFILE : option string) (platform : string) : string :=
  match truthy output with
  | Some dir => dir
  | None =>
      let homeDir := match truthy HOME with
                     | Some h => Some h
                     | None => USERPROFILE
                     end in
      match truthy homeDir with
      | None => "fonts"
      | Some home =>
          if String.eqb platform "win32"
          then join3 home "Downloads" "typeologist"
          else join3 home "Downloads" "typeologist"
      end
  end.

(** ** The formats of the command line: lines 378 to 394 of [init] *)

Definition formatNames (argFormats : string) : list string :=
  map (fun f => toLowerCase (trim f)) (split "," argFormats).

Definition validFormats : list string := map name FONT_FORMATS.

Definition invalidFormats (names : list string) : list string :=
  List.filter (fun f => negb (Set_has f validFormats)) names.

(** The selected formats, or [process.exit(1)] when a name is not in the
    catalog. *)
Definition formatsOfArgv (argFormats : string) : Completion (list string) :=
  match invalidFormats (formatNames argFormats) with
  | [] => Returns (formatNames argFormats)
  | _ :: _ => Exits 1
  end.

(** ** What the strings of a JSON value are *)

(** The strings of a value, in the order of the walk; the names of the
    members of an object are not among them. *)
Fixpoint leaves (j : json) : list string :=
  match j with
  | JString s => [s]
  | JArray items =>
      (fix each (l : list json) : list string :=
         match l with
         | [] => []
         | x :: l' => leaves x ++ each l'
         end) items
  | JObject members =>
      (fix each (l : list (string * json)) : list string :=
         match l with
         | [] => []
         | (_, x) :: l' => leaves x ++ each l'
         end) members
  | _ => []
  end.

(** Some object of the value has a member named [hasOwnProperty]. *)
Fixpoint shadowed (j : json) : bool :=
  match j with
  | JArray items =>
      (fix each (l : list json) : bool :=
         match l with
         | [] => false
         | x :: l' => shadowed x || each l'
         end) items
  | JObject members =>
      existsb (fun kv => String.eqb (fst kv) "hasOwnProperty") members
      || (fix each (l : list (string * json)) : bool :=
            match l with
            | [] => false
            | (_, x) :: l' => shadowed x || each l'
            end) members
  | _ => false
  end.

(** The set after the strings of [texts] were scanned one after the
    other. *)
Definition scanned (texts : list string) (urls : list string) : list string :=
  fold_left (fun acc s => Set_add_all (extractUrlsFromText s) acc) texts urls.

(** A unit that ends a URL. *)
Definition is_delimiter (c : ascii) : bool :=
  is_white c
  || existsb (Ascii.eqb c)
       ["034"; "'"; "<"; ">"; "{"; "}"; "|"; "\"; "^"; "`"; "["; "]"]%char.

Definition without_delimiter (c : ascii) : bool := negb (is_delimiter c).

(** ** The session: the command line and the prompts *)

Inductive Answer (A : Type) : Type :=
| Cancel
| Answered (a : A).
Arguments Cancel {A}.
Arguments Answered {A} a.

Class Session : Type := {
  (** [argv.help], [argv.url], [argv.formats], [argv.blind] *)
  argv_help : bool;
  argv_url : option string;
  argv_formats : option string;
  argv_blind : bool;
  (** what the user answers to the three prompts *)
  prompt_url : Answer string;
  prompt_formats : Answer (list string);
  prompt_fonts : list FontItem -> Answer (list string);
  (** the error, if any, of
      [if (!fs.existsSync(OUTPUT_DIR)) fs.mkdirSync(OUTPUT_DIR, ...)] *)
  mkdir_error : option string
}.

(** A line of the report: the mark, the colour and the layout are left to
    the terminal. *)
Inductive Line : Type :=
| Failed (file reason : string)
| Saved (file : string).

Record Note : Type := mkNote {
  title : string;
  lines : list Line
}.

(** How [init] ends. *)
Inductive Ended : Type :=
| Helped
| Cancelled
| Finished
| Exited (code : nat)
| Rejected (message : string).

Section Run.
Context `{Platform} `{Session}.

Definition ensureOutputDir : M unit :=
  fun w =>
    match mkdir_error with
    | Some e => (Throw e, w)
    | None => (Ret tt, w)
    end.

Definition failedLine (r : DownloadOutcome) : Line :=
  Failed (filename r) (match error r with Some e => e | None => "undefined" end).

(** Lines 311 to 341 of [downloadFontFiles]: the notes, and whether the
    process goes on. *)
Definition report (results : list DownloadOutcome) : Completion (list Note) :=
  let successful := length (List.filter success results) in
  let failed := length (List.filter (fun r => negb (success r)) results) in
  let failures :=
    if 0 <? failed
    then [mkNote ("Failed to download " +:+ pretty failed +:+ " files:")
                 (map failedLine (List.filter (fun r => negb (success r)) results))]
    else [] in
  let successes :=
    if 0 <? successful
    then [mkNote ("Downloaded " +:+ pretty successful +:+ " font"
                    +:+ (if successful =? 1 then "" else "s")
                    +:+ " to " +:+ OUTPUT_DIR)
                 (map (fun r => Saved (filename r)) (List.filter success results))]
    else [] in
  if (successful =? 0) && (failed =? 0) then Exits 0
  else Returns (failures ++ successes).

Definition downloadFontFiles (urls : list string) (w : World)
  : option (Result (Completion (list Note)) * World) :=
  match ensureOutputDir w with
  | (Throw e, w1) => Some (Throw e, w1)
  | (Ret _, w1) =>
      match downloadFontFiles_results urls w1 with
      | Some (Ret results, w2) => Some (Ret (report results), w2)
      | Some (Throw e, w2) => Some (Throw e, w2)
      | None => None
      end
  end.

(** [init] from line 454 on, the formats being selected. *)
Definition pipeline (websiteUrl : string) (selectedFormats : list string) (w : World)
  : option (Ended * World) :=
  match selectedFormats with
  | [] => Some (Exited 0, w)
  | _ :: _ =>
      let extensions := selectedExtensions selectedFormats in
      match extractUrls websiteUrl w with
      | (Exits c, w1) => Some (Exited c, w1)
      | (Returns allUrls, w1) =>
          match filterUrlsByExtension allUrls extensions with
          | [] => Some (Exited 0, w1)
          | fontUrls =>
              match testUrls fontUrls w1 with
              | None => None
              | Some (Throw e, w2) => Some (Rejected e, w2)
              | Some (Ret [], w2) => Some (Exited 0, w2)
              | Some (Ret accessibleUrls, w2) =>
                  match ensureOutputDir w2 with
                  | (Throw e, w3) => Some (Rejected e, w3)
                  | (Ret _, w3) =>
                      match fontItems accessibleUrls with
                      | Throw e => Some (Rejected e, w3)
                      | Ret items =>
                          let download selectedFonts :=
                            match downloadFontFiles selectedFonts w3 with
                            | None => None
                            | Some (Throw e, w4) => Some (Rejected e, w4)
                            | Some (Ret (Exits c), w4) => Some (Exited c, w4)
                            | Some (Ret (Returns _), w4) => Some (Finished, w4)
                            end in
                          if argv_blind then download accessibleUrls
                          else
                            match prompt_fonts items with
                            | Cancel => Some (Cancelled, w3)
                            | Answered [] => Some (Exited 0, w3)
                            | Answered selectedFonts => download selectedFonts
                            end
                      end
                  end
              end
          end
      end
  end.

Definition init (w : World) : option (Ended * World) :=
  if argv_help then Some (Helped, w)
  else
    let url_answer :=
      match truthy argv_url with
      | Some u => Answered u
      | None => prompt_url
      end in
    match url_answer with
    | Cancel => Some (Cancelled, w)
    | Answered websiteUrl =>
        match truthy argv_formats with
        | Some argFormats =>
            match formatsOfArgv argFormats with
            | Exits c => Some (Exited c, w)
            | Returns selectedFormats => pipeline websiteUrl selectedFormats w
            end
        | None =>
            match prompt_formats with
            | Cancel => Some (Cancelled, w)
            | Answered formatResult => pipeline websiteUrl formatResult w
            end
        end
    end.

End Run.

(** ** Notions used in the proofs of the second part *)

(** Every match of [r] consumes a unit that satisfies [q]: [r] has a
    mandatory atom that accepts such units only. *)
Fixpoint must_take (ic : bool) (q : ascii -> bool) (r : regex) : bool :=
  match r with
  | Lit c =>
      forallb (fun x => implb (Ascii.eqb (canon ic c) (canon ic x)) (q x)) all_units
  | Cls neg items =>
      forallb (fun x => implb (cls_accepts ic neg items x) (q x)) all_units
  | Seq r1 r2 => must_take ic q r1 || must_take ic q r2
  | Rep r' min _ => (0 <? min) && must_take ic q r'
  | Eps | Bol | Eol => false
  end.

Definition slash_or_dot (c : ascii) : bool :=
  Ascii.eqb c "/" || Ascii.eqb c ".".

(** What [absoluteUrls] receives for the string [u]: the [href] of
    [new URL(u, base)], or [u] itself when that throws. *)
Definition resolved `{Platform} (base u : string) : string :=
  match new_URL u (Some base) with
  | Ret absoluteUrl => href absoluteUrl
  | Throw _ => u
  end.

(** The texts of a document that the scanner hands to the extractor: the
    trimmed value of an attribute, the text of the body, or a string of
    the value of a JSON-LD script that parses. *)
Definition attribute_text (document : list Node) (text : string) : Prop :=
  exists element attr,
    In element (allElements document)
    /\ In attr (attributesOf element)
    /\ text = trim (snd attr).

Definition body_text (document : list Node) (text : string) : Prop :=
  exists b, body document = Some b /\ text = textContent b.

Definition script_text `{Platform} (document : list Node) (j : json) (text : string)
  : Prop :=
  exists script,
    In script (allElements document)
    /\ isJsonLd script = true
    /\ JSON_parse (textContent script) = Ret j
    /\ In text (leaves j).

(** A [HEAD] request to [u] gets a response with a status from 200 to
    299. *)
Definition reachable `{Platform} (u : string) : bool :=
  match network HEAD u with
  | Ret response => ok response
  | Throw _ => false
  end.

(** The form in which the filter compares an extension: with its dot, in
    lower case. *)
Definition comparedExt (ext : string) : string :=
  toLowerCase (normalizedExt ext).

(** ** A reference session

    A run from the command line, with [--url], [--formats] and [--blind]:
    no prompt is shown, and the output directory can be made. *)
Definition blind_session (u formats : string) : Session := {|
  argv_help := false;
  argv_url := Some u;
  argv_formats := Some formats;
  argv_blind := true;
  prompt_url := Cancel;
  prompt_formats := Cancel;
  prompt_fonts := fun _ => Cancel;
  mkdir_error := None
|}.

(** The world before the program has done anything. *)
Definition untouched : World := mkWorld [] ∅.

(** What the scanner returns for the page of the reference platform. *)
Definition page_addresses : list string :=
  ["https://cdn.example.com/b.ttf"; "https://cdn.example.com/c.otf";
   "https://page-origin/a.woff";
   "https://page-origin/cdn.example.com/b.ttf";
   "https://page-origin/cdn.example.com/c.otf";
   "https://page-origin/fonts/a.woff2";
   "https://page-origin/ld+json"].

(** The text stops, or goes on with a delimiter. *)
Definition ends_at_delimiter (rest : string) : bool :=
  match rest with
  | EmptyString => true
  | String d _ => is_delimiter d
  end.


(** The three patterns that begin with a fixed mark, and their marks. *)
Definition marked (re : RegExp) (mark : string) : Prop :=
  (re = pattern_absolute /\ (mark = "http://" \/ mark = "https://"))
  \/ (re = pattern_protocol_relative /\ mark = "//")
  \/ (re = pattern_root_relative /\ mark = "/").


(** ** Notions used in the proofs about the promises of a batch *)

(** A file to write: its path and its content. *)
Abbreviation Write := (string * list Byte.byte)%type.

Definition written (wr : option Write) (w : World) : World :=
  match wr with
  | Some (path, data) => mkWorld (requests w) (<[path := data]> (files w))
  | None => w
  end.

Definition sent (req : list (Method * string)) (w : World) : World :=
  mkWorld (requests w ++ req) (files w).

Definition write_all (ws : list Write) (f : gmap string (list Byte.byte))
  : gmap string (list Byte.byte) :=
  fold_left (fun f (x : Write) => <[fst x := snd x]> f) ws f.

(** What is left of a function that settles with [r] after [n] more
    [await]s at most, that writes [wr] at the moment when it settles, and
    that does nothing else to the world. *)
Fixpoint remains {A} (n : nat) (r : Result A) (wr : option Write)
    (resume : World -> Step A) : Prop :=
  forall w,
    resume w = Completed r (written wr w)
    \/ match n with
       | 0 => False
       | S n' => exists resume', resume w = Waiting w resume' /\ remains n' r wr resume'
       end.

(** A function that issues the requests [req] when it is called, and then
    returns [r] at once, or waits; the rest of it is as above. *)
Definition behaves {A} (r : Result A) (req : list (Method * string))
    (wr : option Write) (f : Async A) : Prop :=
  forall w,
    (wr = None /\ f w = Completed r (sent req w))
    \/ exists n resume, f w = Waiting (sent req w) resume /\ remains n r wr resume.

(** The promise of a function that settles with [r] and writes [wr]. *)
Definition task_behaves {A} (spec : Result A * option Write) (t : Task A) : Prop :=
  t = Settled (fst spec)
  \/ exists n resume, t = Pending resume /\ remains n (fst spec) (snd spec) resume.

(** The files that the settled promises of a batch have written. *)
Fixpoint done_writes {A} (specs : list (Result A * option Write))
    (pool : list (Task A)) : list Write :=
  match specs, pool with
  | spec :: specs', Settled _ :: pool' =>
      option_list (snd spec) ++ done_writes specs' pool'
  | _ :: specs', Pending _ :: pool' => done_writes specs' pool'
  | _, _ => []
  end.

(** What a download does in the end: its outcome, the requests it has
    issued and the file it has written, read off the download awaited alone
    in a world where nothing has happened yet. The outcome of a probe. *)
Definition outcome_of `{Platform} (u : string) : Result DownloadOutcome :=
  fst (download u untouched).

Definition sent_by `{Platform} (u : string) : list (Method * string) :=
  requests (snd (download u untouched)).

Definition written_by `{Platform} (u : string) : option Write :=
  head (map_to_list (files (snd (download u untouched)))).

Definition probed `{Platform} (u : string) : ProbeResult :=
  mkProbe u (reachable u).

(** The name that a label shows. *)
Definition label_text (l : Label) : string :=
  match l with
  | Coloured _ name => name
  | Boxed name => name
  end.

(** The URL parses and its path ends in a file name. *)
Definition named `{Platform} (u : string) : Prop :=
  exists urlObj seg,
    new_URL u None = Ret urlObj
    /\ lastSegment (pathname urlObj) = Some seg
    /\ seg <> "".

(** The extension of the file name of the URL is, in lower case,
    [__proto__]. *)
Definition proto_named `{Platform} (u : string) : Prop :=
  exists urlObj seg,
    new_URL u None = Ret urlObj
    /\ lastSegment (pathname urlObj) = Some seg
    /\ seg <> ""
    /\ colorOf seg = ObjectPrototype.
(** * Properties *)

(** ** The promises of a batch *)

Lemma all_fulfilled_Ret {R} (rs : list R) : all_fulfilled (map Ret rs) = Ret rs.
Proof. induction rs as [|r rs IH]; simpl; [|rewrite IH]; reflexivity. Qed.

Lemma map_Ret_inj {A} (l1 l2 : list A) :
  map (@Ret A) l1 = map (@Ret A) l2 -> l1 = l2.
Proof.
  revert l2. induction l1 as [|a l1 IH]; intros [|b l2]; simpl; try discriminate.
  - reflexivity.
  - intros [= <- E]. rewrite (IH _ E). reflexivity.
Qed.

#[local] Arguments note : simpl never.

Section EventLoop.
Context {A : Type}.

(** A step of the loop leaves the promises as they are, or lets one
    function that waits go on. *)
Lemma resume_at_cases i (pool : list (Task A)) first w :
  resume_at i pool first w = (pool, first, w)
  \/ exists p1 resume p2,
       pool = p1 ++ Pending resume :: p2
       /\ resume_at i pool first w
          = (p1 ++ fst (task_of (resume w)) :: p2,
             note (fst (task_of (resume w))) first,
             snd (task_of (resume w))).
Proof.
  revert i. induction pool as [|t pool IH]; intros i; simpl; [left; reflexivity|].
  destruct i as [|j].
  - destruct t as [r|resume]; [left; reflexivity|].
    right. exists [], resume, pool. split; [reflexivity|].
    destruct (task_of (resume w)). reflexivity.
  - destruct (IH j) as [E|(p1 & resume & p2 & -> & E)]; rewrite E.
    + left. reflexivity.
    + right. exists (t :: p1), resume, p2. split; reflexivity.
Qed.

Lemma event_loop_length order :
  forall (pool : list (Task A)) first w,
    length (fst (fst (event_loop order pool first w))) = length pool.
Proof.
  induction order as [|i order IH]; intros pool first w; [reflexivity|].
  simpl.
  destruct (resume_at_cases i pool first w) as [E|(p1 & resume & p2 & -> & E)];
    rewrite E, IH; [reflexivity|]. rewrite !length_app. reflexivity.
Qed.

Section Invariant.
Variable Inv : list (Task A) -> option string -> World -> Prop.
Hypothesis Inv_step :
  forall p1 resume p2 first w,
    Inv (p1 ++ Pending resume :: p2) first w ->
    Inv (p1 ++ fst (task_of (resume w)) :: p2)
        (note (fst (task_of (resume w))) first)
        (snd (task_of (resume w))).

Lemma event_loop_invariant order :
  forall pool first w,
    Inv pool first w ->
    exists pool' first' w',
      event_loop order pool first w = (pool', first', w') /\ Inv pool' first' w'.
Proof.
  induction order as [|i order IH]; intros pool first w HI; simpl; [eauto|].
  destruct (resume_at_cases i pool first w) as [E|(p1 & resume & p2 & -> & E)];
    rewrite E; apply IH; [exact HI | apply Inv_step, HI].
Qed.

Lemma alone_invariant p1 p2 (s : Step A) :
  forall first,
    Inv (p1 ++ fst (task_of s) :: p2) (note (fst (task_of s)) first)
        (snd (task_of s)) ->
    Inv (p1 ++ Settled (fst (alone s)) :: p2)
        (note (Settled (fst (alone s))) first) (snd (alone s)).
Proof.
  induction s as [r w|w resume IH]; intros first HI; simpl in *; [exact HI|].
  apply IH, Inv_step. unfold note in HI. destruct first; exact HI.
Qed.

Lemma drain_invariant pool :
  forall settled first w,
    Inv (map Settled settled ++ pool) first w ->
    exists rs first' w',
      drain pool first w = (rs, first', w')
      /\ length rs = length pool
      /\ Inv (map Settled (settled ++ rs)) first' w'.
Proof.
  induction pool as [|t pool IH]; intros settled first w HI; simpl.
  - exists [], first, w. rewrite app_nil_r in *. auto.
  - destruct t as [r|resume].
    + destruct (IH (settled ++ [r]) first w) as (rs & first' & w' & -> & Hlen & HI').
      { rewrite map_app, <- app_assoc. exact HI. }
      exists (r :: rs), first', w'. rewrite <- app_assoc in HI'. simpl. auto.
    + pose proof (alone_invariant (map Settled settled) pool (resume w) first
                    (Inv_step _ _ _ _ _ HI)) as HI1.
      destruct (alone (resume w)) as [r w1]. simpl in HI1.
      destruct (IH (settled ++ [r]) (note (Settled r) first) w1)
        as (rs & first' & w' & -> & Hlen & HI').
      { rewrite map_app, <- app_assoc. exact HI1. }
      exists (r :: rs), first', w'. rewrite <- app_assoc in HI'. simpl. auto.
Qed.

(** What holds of the promises when the functions have been called, and
    holds still when one of them has gone on, holds when all of them are
    settled. *)
Lemma settle_invariant order pool first w :
  Inv pool first w ->
  exists rs first' w',
    settle order pool first w = (rs, first', w')
    /\ length rs = length pool
    /\ Inv (map Settled rs) first' w'.
Proof.
  intros HI. unfold settle.
  pose proof (event_loop_length order pool first w) as Hlen.
  destruct (event_loop_invariant order pool first w HI)
    as (pool' & first' & w' & E & HI').
  rewrite E in *. simpl in Hlen.
  destruct (drain_invariant pool' [] first' w' HI')
    as (rs & first'' & w'' & -> & Hlen' & HI'').
  exists rs, first'', w''. split; [reflexivity|]. split; [lia | exact HI''].
Qed.

End Invariant.

Lemma Forall2_Settled {X} (P : X -> Task A -> Prop) (xs : list X) (rs : list (Result A)) :
  Forall2 P xs (map Settled rs) -> Forall2 (fun x r => P x (Settled r)) xs rs.
Proof.
  revert xs. induction rs as [|r rs IH]; intros xs H; inversion H; subst;
    constructor; auto.
Qed.

(** *** Functions that settle as their item says *)

Section Closed.
Context {X : Type}.
Variable Q : X -> Step A -> Prop.
Variable S : X -> Result A -> Prop.
Hypothesis Q_waiting :
  forall x w resume, Q x (Waiting w resume) -> forall w', Q x (resume w').
Hypothesis Q_completed : forall x r w, Q x (Completed r w) -> S x r.
Hypothesis S_fulfils : forall x r, S x r -> exists a, r = Ret a.

Let task_ok (x : X) (t : Task A) : Prop :=
  match t with
  | Settled r => S x r
  | Pending resume => forall w, Q x (resume w)
  end.

Lemma task_of_closed x (s : Step A) : Q x s -> task_ok x (fst (task_of s)).
Proof.
  destruct s as [r w|w resume]; simpl; [apply Q_completed|].
  intros H w'. eapply Q_waiting, H.
Qed.

Lemma note_closed x t : task_ok x t -> note t None = None.
Proof.
  destruct t as [[a|e]|resume]; unfold note; simpl; try reflexivity.
  intros (a & [=])%S_fulfils.
Qed.

Lemma call_all_closed xs (ps : list (Async A)) :
  Forall2 (fun x p => forall w, Q x (p w)) xs ps ->
  forall w,
    Forall2 task_ok xs (fst (call_all ps w))
    /\ fold_left (fun first t => note t first) (fst (call_all ps w)) None = None.
Proof.
  induction 1 as [|x p xs ps Hp _ IH]; intros w; simpl; [split; [constructor | reflexivity]|].
  pose proof (task_of_closed x (p w) (Hp w)) as Ht.
  destruct (task_of (p w)) as [t w1]. specialize (IH w1).
  destruct (call_all ps w1) as [ts w2]. simpl in *.
  destruct IH as [IH1 IH2]. split; [constructor; assumption|].
  rewrite (note_closed x t Ht). exact IH2.
Qed.

Lemma Promise_all_closed settling xs (ps : list (Async A)) w :
  Forall2 (fun x p => forall w, Q x (p w)) xs ps ->
  exists values w',
    Promise_all settling ps w = (Ret values, w')
    /\ Forall2 (fun x a => S x (Ret a)) xs values.
Proof.
  intros Hps. unfold Promise_all.
  destruct (call_all_closed xs ps Hps w) as [Hpool Hfirst].
  destruct (call_all ps w) as [pool w1]. simpl in Hpool, Hfirst. rewrite Hfirst.
  destruct (settle_invariant
              (fun pool first _ => Forall2 task_ok xs pool /\ first = None))
    with (order := settling w1) (pool := pool) (first := @None string) (w := w1)
    as (rs & first' & w' & -> & _ & Hrs & ->).
  - intros p1 resume p2 first w0 [Hall ->].
    apply List.Forall2_app_inv_r in Hall as (x1 & x2 & H1 & H2 & ->).
    inversion H2 as [|x t x2' p2' Hx H2']; subst.
    pose proof (task_of_closed x (resume w0) (Hx w0)) as Ht.
    split; [|apply (note_closed x), Ht].
    apply Forall2_app; [exact H1|]. constructor; assumption.
  - split; [exact Hpool | reflexivity].
  - apply Forall2_Settled in Hrs.
    assert (Hvalues : exists values, rs = map Ret values
                                     /\ Forall2 (fun x a => S x (Ret a)) xs values).
    { clear -Hrs S_fulfils. induction Hrs as [|x r xs rs Hr _ (values & -> & IH)].
      - exists []. split; [reflexivity | constructor].
      - simpl in Hr. destruct (S_fulfils _ _ Hr) as (a & ->).
        exists (a :: values). split; [reflexivity|]. constructor; assumption. }
    destruct Hvalues as (values & -> & Hvalues).
    exists values, w'. rewrite all_fulfilled_Ret. split; [reflexivity | exact Hvalues].
Qed.

End Closed.

(** *** Functions that write when they settle *)

Lemma write_all_snoc ws (x : Write) f :
  write_all (ws ++ [x]) f = <[fst x := snd x]> (write_all ws f).
Proof. unfold write_all. rewrite fold_left_app. reflexivity. Qed.

Lemma done_writes_app (s1 s2 : list (Result A * option Write)) (p1 p2 : list (Task A)) :
  length s1 = length p1 ->
  done_writes (s1 ++ s2) (p1 ++ p2) = done_writes s1 p1 ++ done_writes s2 p2.
Proof.
  revert p1. induction s1 as [|s s1 IH]; intros [|t p1]; simpl; try discriminate.
  - reflexivity.
  - intros [= Hlen]. rewrite (IH _ Hlen). destruct t; [|reflexivity].
    rewrite app_assoc. reflexivity.
Qed.

Lemma done_writes_Settled (specs : list (Result A * option Write)) (rs : list (Result A)) :
  length specs = length rs ->
  done_writes specs (map Settled rs)
  = flat_map (fun spec => option_list (snd spec)) specs.
Proof.
  revert rs. induction specs as [|s specs IH]; intros [|r rs]; simpl; try discriminate.
  - reflexivity.
  - intros [= Hlen]. rewrite (IH _ Hlen). reflexivity.
Qed.

Lemma alone_remains n :
  forall (r : Result A) wr resume w,
    remains n r wr resume -> alone (resume w) = (r, written wr w).
Proof.
  induction n as [|n IH]; intros r wr resume w H; destruct (H w) as [E|E].
  - rewrite E. reflexivity.
  - destruct E.
  - rewrite E. reflexivity.
  - destruct E as (resume' & E & H'). rewrite E. simpl. apply IH, H'.
Qed.

Lemma call_all_behaves (specs : list (Result A * list (Method * string) * option Write))
    (ps : list (Async A)) :
  Forall2 (fun spec p => behaves (fst (fst spec)) (snd (fst spec)) (snd spec) p)
          specs ps ->
  forall w,
    snd (call_all ps w) = sent (flat_map (fun spec => snd (fst spec)) specs) w
    /\ Forall2 task_behaves (map (fun spec => (fst (fst spec), snd spec)) specs)
               (fst (call_all ps w))
    /\ done_writes (map (fun spec => (fst (fst spec), snd spec)) specs)
                   (fst (call_all ps w)) = [].
Proof.
  induction 1 as [|[[r req] wr] p specs ps Hp _ IH]; intros w; simpl.
  - unfold sent. rewrite app_nil_r. destruct w. repeat split. constructor.
  - simpl in Hp.
    assert (Hcall : snd (task_of (p w)) = sent req w
                    /\ task_behaves (r, wr) (fst (task_of (p w)))
                    /\ (forall r', fst (task_of (p w)) = Settled r' -> wr = None)).
    { destruct (Hp w) as [[-> E]|(n & resume & E & Hrest)]; rewrite E; simpl.
      - split; [reflexivity|]. split; [left; reflexivity | reflexivity].
      - split; [reflexivity|]. split; [right; eauto | discriminate]. }
    destruct (task_of (p w)) as [t w1]. simpl in Hcall.
    destruct Hcall as (-> & Ht & Hwr).
    destruct (IH (sent req w)) as (Hw & Hpool & Hdone).
    destruct (call_all ps (sent req w)) as [ts w2]. simpl in *.
    split; [|split].
    + rewrite Hw. unfold sent. simpl. rewrite app_assoc. reflexivity.
    + constructor; assumption.
    + destruct t as [r'|resume]; [|exact Hdone].
      rewrite (Hwr r' eq_refl), Hdone. reflexivity.
Qed.

(** The promises of a batch of such functions fulfil with the values of
    the functions in the order of the batch; the requests of the functions
    have been issued in that order, and the files are the files of before
    with what the functions write, written in the order in which they
    settle. *)
Lemma Promise_all_behaves settling
    (specs : list (Result A * list (Method * string) * option Write))
    (ps : list (Async A)) w :
  Forall2 (fun spec p => behaves (fst (fst spec)) (snd (fst spec)) (snd spec) p)
          specs ps ->
  Forall (fun spec => exists a, fst (fst spec) = Ret a) specs ->
  exists values ws w',
    Promise_all settling ps w = (Ret values, w')
    /\ map Ret values = map (fun spec => fst (fst spec)) specs
    /\ requests w' = requests w ++ flat_map (fun spec => snd (fst spec)) specs
    /\ files w' = write_all ws (files w)
    /\ Permutation ws (flat_map (fun spec => option_list (snd spec)) specs).
Proof.
  intros Hps Hret. unfold Promise_all.
  destruct (call_all_behaves specs ps Hps w) as (Hw1 & Hpool & Hdone).
  set (specs' := map (fun spec => (fst (fst spec), snd spec)) specs) in *.
  assert (Hret' : Forall (fun spec : Result A * option Write =>
                            exists a, fst spec = Ret a) specs').
  { unfold specs'. clear -Hret. induction Hret; simpl; constructor; auto. }
  assert (Hnone : forall (spec : Result A * option Write) (t : Task A),
             (exists a, fst spec = Ret a) -> task_behaves spec t ->
             note t None = None).
  { intros spec t (a & Ha) [->|(n & resume & -> & _)]; [|reflexivity].
    rewrite Ha. reflexivity. }
  assert (Hfirst : fold_left (fun first t => note t first) (fst (call_all ps w)) None
                   = None).
  { clear -Hpool Hret' Hnone.
    induction Hpool as [|spec t specs0 pool Ht _ IH]; simpl; [reflexivity|].
    inversion Hret' as [|? ? Hs Hret0]; subst.
    rewrite (Hnone spec t Hs Ht). apply IH, Hret0. }
  destruct (call_all ps w) as [pool w1]. simpl in Hw1, Hpool, Hdone, Hfirst.
  rewrite Hfirst. subst w1.
  set (w1 := sent (flat_map (fun spec => snd (fst spec)) specs) w) in *.
  destruct (settle_invariant
              (fun pool first w0 =>
                 Forall2 task_behaves specs' pool
                 /\ first = None
                 /\ requests w0 = requests w1
                 /\ exists ws, files w0 = write_all ws (files w1)
                               /\ Permutation ws (done_writes specs' pool)))
    with (order := settling w1) (pool := pool) (first := @None string) (w := w1)
    as (rs & first' & w' & -> & Hlen & Hrs & -> & Hreq & ws & Hfiles & Hperm).
  - intros p1 resume p2 first w0 (Hall & -> & Hreq & ws & Hfiles & Hperm).
    apply List.Forall2_app_inv_r in Hall as (s1 & s2 & H1 & H2 & E).
    inversion H2 as [|spec t s2' p2' Hspec H2']; subst.
    assert (Hs1 : length s1 = length p1) by (eapply Forall2_length; eassumption).
    rewrite E in Hperm |- *. rewrite done_writes_app in Hperm by exact Hs1.
    simpl in Hperm.
    assert (Hspec_ret : exists a, fst spec = Ret a).
    { rewrite E in Hret'. apply List.Forall_app in Hret' as [_ Hret'].
      inversion Hret'; assumption. }
    destruct Hspec as [[=]|(n & resume' & [= <-] & Hrest)].
    destruct n as [|n]; destruct (Hrest w0) as [Estep|Estep];
      try (destruct Estep; fail).
    + rewrite Estep. simpl.
      split; [apply Forall2_app; [exact H1|]; constructor;
              [left; reflexivity | exact H2']|].
      split; [destruct Hspec_ret as (a & ->); reflexivity|].
      split; [destruct (snd spec) as [[path data]|]; exact Hreq|].
      rewrite done_writes_app by exact Hs1. simpl.
      destruct (snd spec) as [[path data]|]; simpl.
      * exists (ws ++ [(path, data)]). rewrite write_all_snoc, Hfiles.
        split; [reflexivity|].
        etransitivity; [symmetry; apply Permutation_cons_append|].
        etransitivity; [|apply Permutation_middle].
        constructor. exact Hperm.
      * exists ws. split; [exact Hfiles | exact Hperm].
    + rewrite Estep. simpl.
      split; [apply Forall2_app; [exact H1|]; constructor;
              [left; reflexivity | exact H2']|].
      split; [destruct Hspec_ret as (a & ->); reflexivity|].
      split; [destruct (snd spec) as [[path data]|]; exact Hreq|].
      rewrite done_writes_app by exact Hs1. simpl.
      destruct (snd spec) as [[path data]|]; simpl.
      * exists (ws ++ [(path, data)]). rewrite write_all_snoc, Hfiles.
        split; [reflexivity|].
        etransitivity; [symmetry; apply Permutation_cons_append|].
        etransitivity; [|apply Permutation_middle].
        constructor. exact Hperm.
      * exists ws. split; [exact Hfiles | exact Hperm].
    + destruct Estep as (resume'' & Estep & Hrest'). rewrite Estep. simpl.
      split; [apply Forall2_app; [exact H1|]; constructor;
              [right; eauto | exact H2']|].
      split; [reflexivity|]. split; [exact Hreq|].
      rewrite done_writes_app by exact Hs1. simpl.
      exists ws. split; [exact Hfiles | exact Hperm].
  - split; [exact Hpool|]. split; [reflexivity|]. split; [reflexivity|].
    exists []. split; [reflexivity|]. rewrite Hdone. constructor.
  - assert (Hlen' : length specs' = length rs).
    { apply Forall2_length in Hpool. lia. }
    rewrite done_writes_Settled in Hperm by exact Hlen'.
    assert (Hvalues : rs = map fst specs').
    { apply Forall2_Settled in Hrs. clear -Hrs.
      induction Hrs as [|spec r specs0 rs Hr _ IH]; [reflexivity|].
      simpl. rewrite <- IH. f_equal.
      destruct Hr as [[= ->]|(n & resume & [=] & _)]. reflexivity. }
    assert (Hret'' : exists values, rs = map Ret values).
    { rewrite Hvalues. clear -Hret'.
      induction Hret' as [|spec specs0 (a & Ha) _ (values & IH)].
      - exists []. reflexivity.
      - exists (a :: values). simpl. rewrite Ha, IH. reflexivity. }
    destruct Hret'' as (values & Hrs').
    exists values, ws, w'. rewrite Hrs', all_fulfilled_Ret.
    split; [reflexivity|]. split; [|split; [|split]].
    + rewrite <- Hrs', Hvalues. unfold specs'. rewrite map_map. reflexivity.
    + rewrite Hreq. reflexivity.
    + rewrite Hfiles. reflexivity.
    + unfold specs' in Hperm. rewrite flat_map_concat_map, map_map,
        <- flat_map_concat_map in Hperm. exact Hperm.
Qed.

End EventLoop.

(** ** The batched executor *)

Section ExecutorFacts.
Context {T R : Type}.
Variable limit : nat.
Variable settling : World -> list nat.
Variable op : T -> Async R.
Variable urls : list T.
Hypothesis limit_pos : 0 < limit.

(** The loop is the processing, one after the other, of the batches that
    [chunks] lists: whatever the operation and the order of settlement. *)
Lemma batch_loop_chunks fuel i results w :
  length urls - i <= fuel ->
  batch_loop limit settling op urls fuel i results w
  = Some (run_chunks settling op (chunks_from limit urls fuel i) results w).
Proof.
  revert i results w.
  induction fuel as [|fuel IH]; intros i results w Hfuel; simpl.
  - destruct (Nat.ltb_spec i (length urls)); [lia | reflexivity].
  - destruct (Nat.ltb_spec i (length urls)); [|reflexivity].
    simpl. destruct (Promise_all _ _ w) as [[batchResults|e] w']; try reflexivity.
    apply IH. lia.
Qed.

Lemma runBatched_chunks w :
  runBatched limit settling op urls w
  = Some (run_chunks settling op (chunks limit urls) [] w).
Proof. unfold runBatched, chunks. apply batch_loop_chunks. lia. Qed.

Lemma concat_chunks_from fuel i :
  length urls - i <= fuel ->
  concat (chunks_from limit urls fuel i) = skipn i urls.
Proof.
  revert i. induction fuel as [|fuel IH]; intros i Hfuel; simpl.
  - symmetry. apply skipn_all2. lia.
  - destruct (Nat.ltb_spec i (length urls)).
    + simpl. rewrite IH by lia. unfold slice.
      replace (i + limit - i) with limit by lia.
      replace (i + limit) with (limit + i) by lia.
      rewrite <- skipn_skipn. apply firstn_skipn.
    + symmetry. apply skipn_all2. lia.
Qed.

Lemma concat_chunks : concat (chunks limit urls) = urls.
Proof. unfold chunks. rewrite concat_chunks_from by lia. reflexivity. Qed.

Lemma chunks_from_sizes fuel i :
  Forall (fun c => 0 < length c <= limit) (chunks_from limit urls fuel i).
Proof.
  revert i. induction fuel as [|fuel IH]; intros i; simpl; [constructor|].
  destruct (Nat.ltb_spec i (length urls)); [|constructor].
  constructor; [|apply IH].
  unfold slice. rewrite length_firstn, length_skipn. lia.
Qed.

Lemma chunks_from_full fuel i pre c post :
  chunks_from limit urls fuel i = pre ++ c :: post ->
  post <> [] -> length c = limit.
Proof.
  revert i pre. induction fuel as [|fuel IH]; intros i pre; simpl.
  - destruct pre; discriminate.
  - destruct (Nat.ltb_spec i (length urls)); [|destruct pre; discriminate].
    destruct pre as [|p pre]; simpl; intros E Hpost.
    + injection E as <- E.
      destruct fuel as [|fuel']; simpl in E; [congruence|].
      destruct (Nat.ltb_spec (i + limit) (length urls)); [|congruence].
      unfold slice. rewrite length_firstn, length_skipn. lia.
    + injection E as _ E. eapply IH; eauto.
Qed.

(** *** Operations that settle as their item says *)

Section ClosedOperation.
Variable Q : T -> Step R -> Prop.
Variable S : T -> Result R -> Prop.
Hypothesis Q_waiting :
  forall x w resume, Q x (Waiting w resume) -> forall w', Q x (resume w').
Hypothesis Q_completed : forall x r w, Q x (Completed r w) -> S x r.
Hypothesis S_fulfils : forall x r, S x r -> exists a, r = Ret a.
Hypothesis op_Q : forall x w, Q x (op x w).

Lemma run_chunks_closed (cs : list (list T)) results w :
  exists values w',
    run_chunks settling op cs results w = (Ret (results ++ values), w')
    /\ Forall2 (fun x a => S x (Ret a)) (concat cs) values.
Proof.
  revert results w. induction cs as [|c cs IH]; intros results w; simpl.
  - exists [], w. rewrite app_nil_r. split; [reflexivity | constructor].
  - destruct (Promise_all_closed Q S Q_waiting Q_completed S_fulfils settling
                c (map op c) w) as (values & w1 & -> & Hvalues).
    { clear -op_Q. induction c as [|x c IH]; simpl; constructor; auto. }
    destruct (IH (results ++ values) w1) as (values' & w2 & -> & Hvalues').
    exists (values ++ values'), w2. rewrite app_assoc.
    split; [reflexivity|]. apply Forall2_app; assumption.
Qed.

Lemma runBatched_closed w :
  exists values w',
    runBatched limit settling op urls w = Some (Ret values, w')
    /\ Forall2 (fun x a => S x (Ret a)) urls values.
Proof.
  rewrite runBatched_chunks.
  destruct (run_chunks_closed (chunks limit urls) [] w) as (values & w' & -> & Hv).
  rewrite concat_chunks in Hv. exists values, w'. split; [reflexivity | exact Hv].
Qed.

End ClosedOperation.

(** *** Operations that write when they settle *)

Section WritingOperation.
Variable res : T -> Result R.
Variable req : T -> list (Method * string).
Variable wr : T -> option Write.
Hypothesis op_behaves : forall x, behaves (res x) (req x) (wr x) (op x).
Hypothesis op_returns : forall x, exists a, res x = Ret a.

Lemma Promise_all_batch (batch : list T) w :
  exists values ws w',
    Promise_all settling (map op batch) w = (Ret values, w')
    /\ map Ret values = map res batch
    /\ requests w' = requests w ++ flat_map req batch
    /\ files w' = write_all ws (files w)
    /\ Permutation ws (flat_map (fun x => option_list (wr x)) batch).
Proof.
  destruct (Promise_all_behaves settling
              (map (fun x => (res x, req x, wr x)) batch) (map op batch) w)
    as (values & ws & w' & Hrun & Hvalues & Hreq & Hfiles & Hperm).
  - clear -op_behaves. induction batch as [|x batch IH]; simpl;
      [constructor | constructor; [apply op_behaves | exact IH]].
  - clear -op_returns. induction batch as [|x batch IH]; simpl;
      [constructor | constructor; [apply op_returns | exact IH]].
  - exists values, ws, w'. split; [exact Hrun|].
    rewrite map_map in Hvalues. simpl in Hvalues.
    rewrite !flat_map_concat_map, !map_map in *. simpl in *.
    auto.
Qed.

Lemma run_chunks_behaves (cs : list (list T)) results w :
  exists values ws w',
    run_chunks settling op cs results w = (Ret (results ++ values), w')
    /\ map Ret values = map res (concat cs)
    /\ requests w' = requests w ++ flat_map req (concat cs)
    /\ files w' = write_all ws (files w)
    /\ Permutation ws (flat_map (fun x => option_list (wr x)) (concat cs)).
Proof.
  revert results w. induction cs as [|c cs IH]; intros results w; simpl.
  - exists [], [], w. rewrite !app_nil_r. repeat split. constructor.
  - destruct (Promise_all_batch c w)
      as (values & ws & w1 & -> & Hvalues & Hreq & Hfiles & Hperm).
    destruct (IH (results ++ values) w1)
      as (values' & ws' & w2 & -> & Hvalues' & Hreq' & Hfiles' & Hperm').
    exists (values ++ values'), (ws ++ ws'), w2. rewrite app_assoc.
    split; [reflexivity|]. split; [|split; [|split]].
    + rewrite !map_app, Hvalues, Hvalues'. reflexivity.
    + rewrite Hreq', Hreq, flat_map_app, app_assoc. reflexivity.
    + rewrite Hfiles', Hfiles. unfold write_all. rewrite fold_left_app. reflexivity.
    + rewrite flat_map_app. apply Permutation_app; assumption.
Qed.

(** The loop ends; its results are the values of the operation on the
    items, in the order of the input; the requests of the items have been
    issued in that order, and the files are the files of before with what
    the operations write. *)
Lemma runBatched_behaves w :
  exists values ws w',
    runBatched limit settling op urls w = Some (Ret values, w')
    /\ run_chunks settling op (chunks limit urls) [] w = (Ret values, w')
    /\ length values = length urls
    /\ map Ret values = map res urls
    /\ requests w' = requests w ++ flat_map req urls
    /\ files w' = write_all ws (files w)
    /\ Permutation ws (flat_map (fun x => option_list (wr x)) urls).
Proof.
  rewrite runBatched_chunks.
  destruct (run_chunks_behaves (chunks limit urls) [] w)
    as (values & ws & w' & -> & Hvalues & Hreq & Hfiles & Hperm).
  rewrite concat_chunks in *.
  exists values, ws, w'. repeat (split; [try reflexivity; try assumption|]);
    try assumption.
  apply (f_equal (@length _)) in Hvalues. rewrite !length_map in Hvalues.
  exact Hvalues.
Qed.

End WritingOperation.

End ExecutorFacts.

Lemma gives_waiting_inv {A} (r : Result A) w resume :
  gives r (Waiting w resume) -> forall w', gives r (resume w').
Proof. intros H. inversion H; assumption. Qed.

Lemma gives_completed_inv {A} (r r' : Result A) w :
  gives r (Completed r' w) -> r' = r.
Proof. intros H. inversion H; reflexivity. Qed.

Lemma never_rejects_waiting_inv {A} w (resume : World -> Step A) :
  never_rejects (Waiting w resume) -> forall w', never_rejects (resume w').
Proof. intros H. inversion H; assumption. Qed.

Lemma never_rejects_completed_inv {A} (r : Result A) w :
  never_rejects (Completed r w) -> exists a, r = Ret a.
Proof. intros H. inversion H; eauto. Qed.

(** ** The prober and the retriever *)

Section ProgramFacts.
Context `{Platform}.

Lemma limit_positive : 0 < limit.
Proof. unfold limit, CONCURRENCY_LIMIT. lia. Qed.

Lemma testUrl_returns u w :
  testUrl u w
  = (Ret match network HEAD u with
         | Ret response => ok response
         | Throw _ => false
         end,
     mkWorld (requests w ++ [(HEAD, u)]) (files w)).
Proof.
  unfold testUrl, awaited, testUrl_async, a_try_catch, a_bind, await, fetch, a_ret.
  simpl. destruct (network HEAD u); reflexivity.
Qed.

Lemma probe_returns u w :
  probe u w
  = (Ret (mkProbe u match network HEAD u with
                    | Ret response => ok response
                    | Throw _ => false
                    end),
     mkWorld (requests w ++ [(HEAD, u)]) (files w)).
Proof.
  unfold probe, awaited, probe_async, await_call, testUrl_async, a_try_catch,
    a_bind, await, fetch, a_ret.
  simpl. destruct (network HEAD u); reflexivity.
Qed.

Lemma probe_pure u w1 w2 : fst (probe u w1) = fst (probe u w2).
Proof. rewrite !probe_returns. reflexivity. Qed.

(** A probe issues its request when it is called, and does nothing to the
    world afterwards. *)
Lemma probe_behaves u :
  behaves (Ret (probed u)) [(HEAD, u)] None (probe_async u).
Proof.
  intros w. right. unfold probe_async, await_call, testUrl_async, a_try_catch,
    a_bind, await, fetch, a_ret. simpl.
  eexists 1, _. split; [reflexivity|].
  intros w1. right. simpl.
  unfold probed, reachable.
  destruct (network HEAD u) as [response|e]; simpl;
    (eexists; split; [reflexivity|]; intros w2; left; reflexivity).
Qed.

Ltac run_download :=
  unfold download, awaited, download_async, a_try_catch, a_bind, now, await,
    lift, fetch, writeFileSync, a_ret;
  simpl;
  repeat match goal with
    | |- context [match new_URL ?u None with _ => _ end] =>
        destruct (new_URL u None) as [?urlObj|?e]
    | |- context [match lastSegment ?p with _ => _ end] =>
        destruct (lastSegment p) as [[|? ?]|]
    | |- context [match network ?m ?u with _ => _ end] =>
        destruct (network m u) as [?response|?e]
    | |- context [negb (ok ?r)] => destruct (ok r)
    | |- context [match arrayBuffer ?r with _ => _ end] =>
        destruct (arrayBuffer r) as [?buffer|?e]
    | |- context [match write_error ?p ?d with _ => _ end] =>
        destruct (write_error p d) as [?e|]
    | _ => progress simpl
    end.

(** A download awaited alone always returns an outcome. *)
Lemma download_returns u w : exists o w', download u w = (Ret o, w').
Proof. run_download; eauto. Qed.

Lemma download_pure u w1 w2 : fst (download u w1) = fst (download u w2).
Proof. run_download; reflexivity. Qed.

Lemma outcome_of_download u w : fst (download u w) = outcome_of u.
Proof. apply download_pure. Qed.

Lemma outcome_of_returns u : exists o, outcome_of u = Ret o.
Proof.
  unfold outcome_of. destruct (download_returns u untouched) as (o & w' & ->).
  eauto.
Qed.

Lemma sent_nothing w : sent [] w = w.
Proof. unfold sent. rewrite app_nil_r. destruct w; reflexivity. Qed.

Lemma written_by_one path data :
  head (map_to_list (<[path := data]> (∅ : gmap string (list Byte.byte))))
  = Some (path, data).
Proof. rewrite insert_empty, map_to_list_singleton. reflexivity. Qed.

Lemma written_by_none :
  head (map_to_list (∅ : gmap string (list Byte.byte))) = None.
Proof. rewrite map_to_list_empty. reflexivity. Qed.

(** A download issues its request, if any, when it is called; it writes
    its file, if any, at the moment when it settles. *)
Lemma download_behaves u :
  behaves (outcome_of u) (sent_by u) (written_by u) (download_async u).
Proof.
  intros w. unfold outcome_of, sent_by, written_by.
  unfold download, awaited, download_async, a_try_catch, a_bind, now, await,
    lift, fetch, writeFileSync, a_ret, untouched.
  simpl.
  destruct (new_URL u None) as [urlObj|e0]; simpl;
    [|left; rewrite written_by_none, sent_nothing; split; reflexivity].
  destruct (lastSegment (pathname urlObj)) as [[|c name]|]; simpl;
    [left; rewrite written_by_none, sent_nothing; split; reflexivity
    | | left; rewrite written_by_none, sent_nothing; split; reflexivity].
  right.
  destruct (network GET u) as [response|e1]; simpl;
    [|eexists 0, _; split; [reflexivity|];
      intros w1; left; rewrite written_by_none; reflexivity].
  destruct (ok response); simpl;
    [|eexists 0, _; split; [reflexivity|];
      intros w1; left; rewrite written_by_none; reflexivity].
  destruct (arrayBuffer response) as [buffer|e2]; simpl;
    [|eexists 1, _; split; [reflexivity|];
      intros w1; right; eexists; split; [reflexivity|];
      intros w2; left; rewrite written_by_none; reflexivity].
  destruct (write_error _ buffer) as [e3|]; simpl.
  - eexists 1, _. split; [reflexivity|].
    intros w1. right. eexists. split; [reflexivity|].
    intros w2. left. rewrite written_by_none. reflexivity.
  - eexists 1, _. split; [reflexivity|].
    intros w1. right. eexists. split; [reflexivity|].
    intros w2. left. rewrite written_by_one. reflexivity.
Qed.

End ProgramFacts.

Lemma in_removelast_split {A} (x : A) (l : list A) :
  In x (removelast l) -> exists pre post, l = pre ++ x :: post /\ post <> [].
Proof.
  induction l as [|a l IH]; simpl; [contradiction|].
  destruct l as [|b l]; [contradiction|].
  intros [<-|Hin].
  - exists [], (b :: l). split; [reflexivity | discriminate].
  - destruct (IH Hin) as (pre & post & E & Hpost).
    exists (a :: pre), post. rewrite E. split; [reflexivity | assumption].
Qed.

Lemma flat_map_singleton {A B} (f : A -> B) (l : list A) :
  flat_map (fun x => [f x]) l = map f l.
Proof. induction l as [|x l IH]; simpl; [|rewrite IH]; reflexivity. Qed.

Lemma flat_map_nothing {A B} (f : A -> list B) (l : list A) :
  (forall x, f x = []) -> flat_map f l = [].
Proof.
  intros Hf. induction l as [|x l IH]; simpl; [|rewrite Hf, IH]; reflexivity.
Qed.

Section BatchedResults.
Context `{Platform}.

(** The loop of the prober, whatever the order in which the responses
    come. *)
Lemma probes_run (urls : list string) (w : World) :
  exists w',
    testUrls_results urls w = Some (Ret (map probed urls), w')
    /\ run_chunks settling probe_async (chunks limit urls) [] w
       = (Ret (map probed urls), w')
    /\ requests w' = requests w ++ map (fun u => (HEAD, u)) urls
    /\ files w' = files w.
Proof.
  unfold testUrls_results.
  destruct (runBatched_behaves limit settling probe_async urls limit_positive
              (fun u => Ret (probed u)) (fun u => [(HEAD, u)]) (fun _ => None)
              probe_behaves (fun u => ex_intro _ (probed u) eq_refl) w)
    as (values & ws & w' & Hrun & Hchunks & _ & Hvalues & Hreq & Hfiles & Hperm).
  rewrite <- (map_map probed Ret) in Hvalues. apply map_Ret_inj in Hvalues.
  subst values. exists w'. split; [exact Hrun|]. split; [exact Hchunks|].
  rewrite flat_map_singleton in Hreq. split; [exact Hreq|].
  rewrite flat_map_nothing in Hperm by reflexivity.
  symmetry in Hperm. apply Permutation_nil in Hperm.
  rewrite Hfiles, Hperm. reflexivity.
Qed.

(** The loop of the retriever, whatever the order in which the responses
    and the bodies come. *)
Lemma downloads_run (urls : list string) (w : World) :
  exists results ws w',
    downloadFontFiles_results urls w = Some (Ret results, w')
    /\ run_chunks settling download_async (chunks limit urls) [] w
       = (Ret results, w')
    /\ length results = length urls
    /\ map Ret results = map outcome_of urls
    /\ requests w' = requests w ++ flat_map sent_by urls
    /\ files w' = write_all ws (files w)
    /\ Permutation ws (flat_map (fun u => option_list (written_by u)) urls).
Proof.
  unfold downloadFontFiles_results.
  apply (runBatched_behaves limit settling download_async urls limit_positive
           outcome_of sent_by written_by download_behaves outcome_of_returns w).
Qed.

End BatchedResults.

(** C1. The loop of [testUrls] and of [downloadFontFiles] ends with one
    result per item of the input, at the index of that item: the results
    are, in order, what the operation gives on each item, in whatever order
    the promises of a batch settle. The loop takes the input in consecutive
    batches of [CONCURRENCY_LIMIT] items, the last one possibly shorter and
    none empty, and treats them one after the other: it is the processing
    of these batches, each by one [Promise.all], the results of a batch
    appended in the order of its items. The prober has then issued one
    request per item, in the order of the input. For every operation the
    loop is that processing; it returns one result per item when the
    operation never rejects, and the value of the operation on each item
    when that value does not depend on the world. The batches can be seen:
    when two addresses have the same file name and the later response comes
    first, the file holds the body of the second address with a limit of 1
    and the body of the first with a limit of 2. *)
Theorem C1_batched_executor_one_result_per_item :
  forall `{Platform} (urls : list string) (w : World),
    (exists results w',
        testUrls_results urls w = Some (Ret results, w')
        /\ run_chunks settling probe_async (chunks limit urls) [] w
           = (Ret results, w')
        /\ length results = length urls
        /\ map probe_url results = urls
        /\ (forall w0, map Ret results = map (fun u => fst (probe u w0)) urls)
        /\ requests w' = requests w ++ map (fun u => (HEAD, u)) urls
        /\ files w' = files w)
    /\ (exists results w',
        downloadFontFiles_results urls w = Some (Ret results, w')
        /\ run_chunks settling download_async (chunks limit urls) [] w
           = (Ret results, w')
        /\ length results = length urls
        /\ forall w0, map Ret results = map (fun u => fst (download u w0)) urls)
    /\ concat (chunks limit urls) = urls
    /\ Forall (fun batch => 0 < length batch <= limit) (chunks limit urls)
    /\ Forall (fun batch => length batch = limit) (removelast (chunks limit urls))
    /\ (1 <= CONCURRENCY_LIMIT argv_concurrency)%Z
    /\ (forall (T R : Type) (op : T -> Async R) (items : list T),
          runBatched limit settling op items w
          = Some (run_chunks settling op (chunks limit items) [] w)
          /\ (fulfils op ->
              exists results w',
                runBatched limit settling op items w = Some (Ret results, w')
                /\ length results = length items)
          /\ (forall f : T -> R,
                (forall x w0, gives (Ret (f x)) (op x w0)) ->
                exists w',
                  runBatched limit settling op items w
                  = Some (Ret (map f items), w')))
    /\ (exists w1 w2 results,
          @downloadFontFiles_results (Reference.racing (Some 1%Z))
            ["https://a.example.com/f.woff2"; "https://b.example.com/f.woff2"]
            untouched = Some (Ret results, w1)
          /\ @downloadFontFiles_results (Reference.racing (Some 2%Z))
               ["https://a.example.com/f.woff2"; "https://b.example.com/f.woff2"]
               untouched = Some (Ret results, w2)
          /\ files w1 !! "/home/user/Downloads/typeologist/f.woff2"
             = Some (map byte_of_ascii
                       (list_ascii_of_string "https://b.example.com/f.woff2"))
          /\ files w2 !! "/home/user/Downloads/typeologist/f.woff2"
             = Some (map byte_of_ascii
                       (list_ascii_of_string "https://a.example.com/f.woff2"))).
Proof.
  intros P urls w.
  split; [|split; [|split; [|split; [|split; [|split; [|split]]]]]].
  - destruct (probes_run urls w) as (w' & Hrun & Hchunks & Hreq & Hfiles).
    exists (map probed urls), w'.
    split; [exact Hrun|]. split; [exact Hchunks|].
    split; [apply length_map|].
    split; [rewrite map_map; apply map_id|].
    split; [|split; assumption].
    intros w0. rewrite map_map. apply map_ext. intros u.
    rewrite probe_returns. reflexivity.
  - destruct (downloads_run urls w)
      as (results & ws & w' & Hrun & Hchunks & Hlen & Hvalues & _).
    exists results, w'. split; [exact Hrun|]. split; [exact Hchunks|].
    split; [exact Hlen|]. intros w0. rewrite Hvalues. apply map_ext.
    intros u. symmetry. apply outcome_of_download.
  - apply concat_chunks, limit_positive.
  - apply chunks_from_sizes, limit_positive.
  - unfold chunks. apply Forall_forall. intros c Hc.
    apply list_elem_of_In, in_removelast_split in Hc as (pre & post & E & Hpost).
    eapply (chunks_from_full limit urls); eauto using limit_positive.
  - unfold CONCURRENCY_LIMIT. lia.
  - intros T R op items. split; [apply runBatched_chunks, limit_positive|]. split.
    + intros Hop.
      destruct (runBatched_closed limit settling op items limit_positive
                  (fun _ s => never_rejects s) (fun _ r => exists a, r = Ret a)
                  (fun _ => never_rejects_waiting_inv)
                  (fun _ => never_rejects_completed_inv)
                  (fun _ r Hr => Hr) Hop w) as (values & w' & Hrun & Hvalues).
      exists values, w'. split; [exact Hrun|].
      symmetry. eapply Forall2_length, Hvalues.
    + intros f Hf.
      destruct (runBatched_closed limit settling op items limit_positive
                  (fun x s => gives (Ret (f x)) s) (fun x r => r = Ret (f x))
                  (fun x => gives_waiting_inv (Ret (f x)))
                  (fun x => gives_completed_inv (Ret (f x)))
                  (fun x r Hr => ex_intro _ (f x) Hr) Hf w)
        as (values & w' & Hrun & Hvalues).
      exists w'. rewrite Hrun. do 3 f_equal.
      clear -Hvalues. induction Hvalues as [|x a items values [= ->] _ IH];
        simpl; [reflexivity | rewrite IH; reflexivity].
  - eexists _, _, _. split; [vm_compute; reflexivity|].
    split; [vm_compute; reflexivity|]. split; vm_compute; reflexivity.
Qed.
Ltac close_case Hseg :=
  eexists _, _; split; [reflexivity|]; split; [discriminate|];
  let H1 := fresh in
  let H2 := fresh in
  intros ? ? ? H1 H2; injection H1 as <-; rewrite Hseg in H2;
  try discriminate; injection H2 as <- <-;
  repeat split; intros; congruence.

(** C2. A failure of one item never leaves its batch as a rejection.
    [testUrl] always returns, and returns [false] when the request fails or
    the status is not a success. The operation of the retriever always
    returns an outcome: an unparsable URL, a failed request, a body that
    cannot be read and a file that cannot be written each give
    [{success: false, filename: "unknown", error: message}], a status that is
    not a success gives [{success: false, filename, error: "HTTP status"}].
    Hence [Promise.all] over any batch fulfils, and each of its results is
    what the item gives on its own. *)
Theorem C2_item_failures_become_results :
  forall `{Platform} (u : string) (w : World),
    (exists b w',
        testUrl u w = (Ret b, w')
        /\ (forall e, network HEAD u = Throw e -> b = false)
        /\ (forall response,
               network HEAD u = Ret response -> ok response = false -> b = false))
    /\ (exists o w',
        download u w = (Ret o, w')
        /\ (forall e, new_URL u None = Throw e ->
              o = mkOutcome false "unknown" (Some e))
        /\ (forall urlObj c name,
              new_URL u None = Ret urlObj ->
              lastSegment (pathname urlObj) = Some (String c name) ->
              (forall e, network GET u = Throw e ->
                 o = mkOutcome false "unknown" (Some e))
              /\ (forall response,
                    network GET u = Ret response -> ok response = false ->
                    o = mkOutcome false (String c name)
                          (Some ("HTTP " +:+ pretty (status response))))
              /\ (forall response e,
                    network GET u = Ret response -> ok response = true ->
                    arrayBuffer response = Throw e ->
                    o = mkOutcome false "unknown" (Some e))
              /\ (forall response buffer e,
                    network GET u = Ret response -> ok response = true ->
                    arrayBuffer response = Ret buffer ->
                    write_error (path_join OUTPUT_DIR (String c name)) buffer = Some e ->
                    o = mkOutcome false "unknown" (Some e))))
    /\ (forall batch : list string,
          exists rs w',
            Promise_all settling (map download_async batch) w = (Ret rs, w')
            /\ forall w0, map Ret rs = map (fun x => fst (download x w0)) batch)
    /\ (forall batch : list string,
          exists rs w',
            Promise_all settling (map probe_async batch) w = (Ret rs, w')
            /\ forall w0, map Ret rs = map (fun x => fst (probe x w0)) batch).
Proof.
  intros P u w. repeat apply conj.
  - eexists _, _. split; [apply testUrl_returns|].
    split.
    + intros e ->. reflexivity.
    + intros response -> ->. reflexivity.
  - unfold download, awaited, download_async, a_try_catch, a_bind, now, await,
      lift, fetch, writeFileSync, a_ret. simpl.
    destruct (new_URL u None) as [urlObj|e0]; simpl.
    + destruct (lastSegment (pathname urlObj)) as [[|c name]|] eqn:Hseg;
        [close_case Hseg | | close_case Hseg].
      destruct (network GET u) as [response|e1]; simpl; [|close_case Hseg].
      destruct (ok response) eqn:Hok; simpl; [|close_case Hseg].
      destruct (arrayBuffer response) as [buffer|e2] eqn:Hbuf; simpl;
        [|close_case Hseg].
      destruct (write_error _ buffer) as [e3|] eqn:Hw; simpl; close_case Hseg.
    + eexists _, _. split; [reflexivity|]. split.
      * intros e [= ->]. reflexivity.
      * intros; discriminate.
  - intros batch.
    destruct (Promise_all_batch settling download_async outcome_of sent_by
                written_by download_behaves outcome_of_returns batch w)
      as (rs & ws & w' & Hrun & Hrs & _).
    exists rs, w'. split; [exact Hrun|]. intros w0. rewrite Hrs.
    apply map_ext. intros x. symmetry. apply outcome_of_download.
  - intros batch.
    destruct (Promise_all_batch settling probe_async
                (fun x => Ret (probed x)) (fun x => [(HEAD, x)]) (fun _ => None)
                probe_behaves (fun x => ex_intro _ (probed x) eq_refl) batch w)
      as (rs & ws & w' & Hrun & Hrs & _).
    exists rs, w'. split; [exact Hrun|]. intros w0. rewrite Hrs.
    apply map_ext. intros x. rewrite probe_returns. reflexivity.
Qed.

Lemma C2_item_failures_become_results_witness :
  fst (@testUrl Reference.flaky "https://down.example.com/a.woff2" (mkWorld [] ∅))
  = Ret false
  /\ fst (@download Reference.flaky "https://down.example.com/a.woff2" (mkWorld [] ∅))
     = Ret (mkOutcome false "unknown" (Some "connect ECONNREFUSED"))
  /\ fst (@download Reference.flaky "https://cdn.example.com/readonly.ttf" (mkWorld [] ∅))
     = Ret (mkOutcome false "unknown" (Some "EACCES: permission denied")).
Proof.
  repeat apply conj.
  - destruct (@C2_item_failures_become_results Reference.flaky
                "https://down.example.com/a.woff2" (mkWorld [] ∅))
      as ((b & w1 & Ht & Hb & _) & _).
    rewrite Ht. simpl. f_equal.
    apply (Hb "connect ECONNREFUSED"). reflexivity.
  - destruct (@C2_item_failures_become_results Reference.flaky
                "https://down.example.com/a.woff2" (mkWorld [] ∅))
      as (_ & (o & w2 & Hd & _ & Ho) & _).
    rewrite Hd. simpl. f_equal.
    edestruct Ho as (Hnet & _); [vm_compute; reflexivity..|].
    apply (Hnet "connect ECONNREFUSED"). reflexivity.
  - destruct (@C2_item_failures_become_results Reference.flaky
                "https://cdn.example.com/readonly.ttf" (mkWorld [] ∅))
      as (_ & (o & w2 & Hd & _ & Ho) & _).
    rewrite Hd. simpl. f_equal.
    edestruct Ho as (_ & _ & _ & Hwrite); [vm_compute; reflexivity..|].
    eapply Hwrite; vm_compute; reflexivity.
Defined.

(** ** Strings *)

#[local] Arguments String.append : simpl nomatch.

Lemma str_app_nil_r s : s +:+ "" = s.
Proof. induction s as [|c s IH]; simpl; [|rewrite IH]; reflexivity. Qed.

Lemma str_app_assoc s t r : (s +:+ t) +:+ r = s +:+ (t +:+ r).
Proof. induction s as [|c s IH]; simpl; [|rewrite IH]; reflexivity. Qed.

Lemma str_length_app s t :
  String.length (s +:+ t) = String.length s + String.length t.
Proof. induction s as [|c s IH]; simpl; [|rewrite IH]; reflexivity. Qed.

Lemma str_take_drop n s : str_take n s +:+ str_drop n s = s.
Proof.
  revert s. induction n as [|n IH]; intros [|c s]; simpl; try reflexivity.
  rewrite IH. reflexivity.
Qed.

Lemma str_drop_app s t : str_drop (String.length s) (s +:+ t) = t.
Proof. induction s as [|c s IH]; simpl; [destruct t|]; auto. Qed.

Lemma str_take_app s t : str_take (String.length s) (s +:+ t) = s.
Proof. induction s as [|c s IH]; simpl; [destruct t|rewrite IH]; auto. Qed.

Lemma str_length_drop n s : String.length (str_drop n s) = String.length s - n.
Proof. revert s. induction n as [|n IH]; intros [|c s]; simpl; auto. Qed.

Lemma toLowerCase_app s t : toLowerCase (s +:+ t) = toLowerCase s +:+ toLowerCase t.
Proof. induction s as [|c s IH]; simpl; [|rewrite IH]; reflexivity. Qed.

Lemma toLowerCase_length s : String.length (toLowerCase s) = String.length s.
Proof. induction s as [|c s IH]; simpl; [|rewrite IH]; reflexivity. Qed.

Lemma endsWith_spec s p : endsWith s p = true <-> ends_with s p.
Proof.
  unfold endsWith, ends_with. split.
  - intros [Hlen Heq]%andb_prop. apply String.eqb_eq in Heq.
    exists (str_take (String.length s - String.length p) s).
    rewrite <- Heq at 2. symmetry. apply str_take_drop.
  - intros [q ->]. rewrite str_length_app. apply andb_true_intro. split.
    + apply Nat.leb_le. lia.
    + replace (String.length q + String.length p - String.length p)
        with (String.length q) by lia.
      rewrite str_drop_app. apply String.eqb_refl.
Qed.

Lemma startsWith_spec s p : startsWith s p = true <-> exists r, s = p +:+ r.
Proof.
  unfold startsWith. split.
  - intros Heq%String.eqb_eq.
    exists (str_drop (String.length p) s).
    rewrite <- Heq at 1. symmetry. apply str_take_drop.
  - intros [r ->]. rewrite str_take_app. apply String.eqb_refl.
Qed.

Lemma split_nonempty sep s : split sep s <> [].
Proof.
  destruct s as [|c s]; simpl; [discriminate|].
  destruct (Ascii.eqb c sep); [discriminate|].
  destruct (split sep s); discriminate.
Qed.

Lemma split_app_sep sep a b :
  split sep (a +:+ String sep b) = split sep a ++ split sep b.
Proof.
  induction a as [|c a IH]; simpl.
  - rewrite Ascii.eqb_refl. reflexivity.
  - destruct (Ascii.eqb c sep); rewrite IH; [reflexivity|].
    destruct (split sep a) as [|y ys] eqn:E; [|reflexivity].
    exfalso. exact (split_nonempty _ _ E).
Qed.

Lemma split_no_sep sep s :
  str_existsb (Ascii.eqb sep) s = false -> split sep s = [s].
Proof.
  induction s as [|c s IH]; simpl; [reflexivity|].
  intros [Hc Hs]%orb_false_elim. rewrite Ascii.eqb_sym, Hc, (IH Hs). reflexivity.
Qed.

Lemma split_parts sep s :
  Forall (fun x => str_existsb (Ascii.eqb sep) x = false) (split sep s).
Proof.
  induction s as [|c s IH]; simpl; [repeat constructor|].
  destruct (Ascii.eqb c sep) eqn:Hc; [constructor; [reflexivity | exact IH]|].
  destruct (split sep s) as [|y ys]; [repeat constructor|].
  - simpl. rewrite Ascii.eqb_sym, Hc. reflexivity.
  - inversion IH; subst. constructor; [|assumption].
    simpl. rewrite Ascii.eqb_sym, Hc. assumption.
Qed.

Lemma join_split sep s : join (String sep "") (split sep s) = s.
Proof.
  induction s as [|c s IH]; simpl; [reflexivity|].
  destruct (Ascii.eqb_spec c sep) as [->|Hc].
  - destruct (split sep s) as [|y ys] eqn:E; [destruct (split_nonempty _ _ E)|].
    simpl in *. rewrite IH. reflexivity.
  - destruct (split sep s) as [|y ys] eqn:E; [destruct (split_nonempty _ _ E)|].
    destruct ys; simpl in *; rewrite <- IH; reflexivity.
Qed.

Lemma pop_snoc l x : pop (l ++ [x]) = Some x.
Proof. unfold pop. rewrite map_app. simpl. apply last_last. Qed.

Lemma pop_Some l x : pop l = Some x -> exists init, l = init ++ [x].
Proof.
  destruct l as [|a l] using rev_ind; [discriminate|].
  rewrite pop_snoc. intros [= ->]. eauto.
Qed.

Lemma join_snoc sep init x :
  init <> [] -> join sep (init ++ [x]) = join sep init +:+ sep +:+ x.
Proof.
  induction init as [|a init IH]; [congruence|]. intros _.
  destruct init as [|b init]; [reflexivity|].
  change (join sep ((a :: b :: init) ++ [x]))
    with (a +:+ sep +:+ join sep ((b :: init) ++ [x])).
  rewrite IH by discriminate.
  change (join sep (a :: b :: init)) with (a +:+ sep +:+ join sep (b :: init)).
  rewrite !str_app_assoc. reflexivity.
Qed.

(** [pathname.split("/").pop()] is the final segment of the path. *)
Lemma lastSegment_spec path seg :
  lastSegment path = Some seg <-> final_segment path seg.
Proof.
  unfold lastSegment, final_segment. split.
  - intros Hpop. destruct (pop_Some _ _ Hpop) as [init E]. split.
    + pose proof (split_parts "/" path) as Hparts. rewrite E in Hparts.
      apply List.Forall_app in Hparts as [_ Hseg]. inversion Hseg; assumption.
    + pose proof (join_split "/" path) as Hjoin. rewrite E in Hjoin.
      destruct init as [|a init]; [left; symmetry; exact Hjoin|].
      right. exists (join "/" (a :: init)).
      rewrite <- Hjoin. apply join_snoc. discriminate.
  - intros [Hseg [->|[dir ->]]].
    + rewrite (split_no_sep _ _ Hseg). reflexivity.
    + change (dir +:+ "/" +:+ seg) with (dir +:+ String "/" seg).
      rewrite split_app_sep, (split_no_sep _ _ Hseg). apply pop_snoc.
Qed.

Lemma normalizedExt_spec ext : normalizedExt ext = "." +:+ strip_dot ext.
Proof.
  unfold normalizedExt, startsWith. destruct ext as [|c r]; [reflexivity|].
  simpl. destruct (Ascii.eqb_spec c ".") as [->|Hc].
  - destruct r; reflexivity.
  - replace (String.eqb (String c match r with "" | _ => "" end) ".") with false.
    + destruct c as [[] [] [] [] [] [] [] []]; try reflexivity. contradiction.
    + symmetry. apply String.eqb_neq. destruct r; congruence.
Qed.

(** ** The Extension Filter *)

Section FilterFacts.
Context `{Platform}.

Lemma hasExtension_spec extensions u :
  hasExtension extensions u = true <-> keeps_extension extensions u.
Proof.
  unfold hasExtension, keeps_extension. split.
  - destruct (new_URL u None) as [urlObj|e]; [|discriminate].
    destruct (lastSegment (pathname urlObj)) as [seg|] eqn:Hseg; [|discriminate].
    intros (ext & Hin & Hends)%existsb_exists.
    exists urlObj, seg, ext.
    split; [reflexivity|]. split; [apply lastSegment_spec, Hseg|].
    split; [exact Hin|].
    rewrite <- normalizedExt_spec. apply endsWith_spec, Hends.
  - intros (urlObj & seg & ext & -> & Hseg & Hin & Hends).
    apply lastSegment_spec in Hseg. rewrite Hseg.
    apply existsb_exists. exists ext. split; [exact Hin|].
    rewrite normalizedExt_spec. apply endsWith_spec, Hends.
Qed.

Lemma hasExtension_app exts1 exts2 u :
  hasExtension (exts1 ++ exts2) u = hasExtension exts1 u || hasExtension exts2 u.
Proof.
  unfold hasExtension. destruct (new_URL u None) as [urlObj|e]; [|reflexivity].
  destruct (lastSegment (pathname urlObj)); [|reflexivity].
  apply existsb_app.
Qed.

Lemma hasExtension_nil u : hasExtension [] u = false.
Proof.
  unfold hasExtension. destruct (new_URL u None) as [urlObj|e]; [|reflexivity].
  destruct (lastSegment (pathname urlObj)); reflexivity.
Qed.

(** Asking for several extensions is asking for one of them. *)
Lemma hasExtension_existsb extensions u :
  hasExtension extensions u = existsb (fun ext => hasExtension [ext] u) extensions.
Proof.
  induction extensions as [|ext extensions IH]; simpl; [apply hasExtension_nil|].
  rewrite <- IH. apply (hasExtension_app [ext] extensions).
Qed.

Lemma filter_sublist {A} (f : A -> bool) (l : list A) : sublist (List.filter f l) l.
Proof.
  induction l as [|x l IH]; simpl; [constructor|].
  destruct (f x); constructor; exact IH.
Qed.

Lemma hasExtension_nonempty extensions u :
  hasExtension extensions u = true ->
  exists urlObj c seg,
    new_URL u None = Ret urlObj
    /\ lastSegment (pathname urlObj) = Some (String c seg).
Proof.
  unfold hasExtension.
  destruct (new_URL u None) as [urlObj|e]; [|discriminate].
  destruct (lastSegment (pathname urlObj)) as [seg|] eqn:Hseg; [|discriminate].
  intros (ext & _ & Hends)%existsb_exists.
  unfold endsWith in Hends. apply andb_prop in Hends as [Hlen%Nat.leb_le _].
  rewrite !toLowerCase_length, normalizedExt_spec in Hlen.
  destruct seg as [|c seg]; [simpl in Hlen; lia|].
  exists urlObj, c, seg. split; [reflexivity | exact Hseg].
Qed.

End FilterFacts.

(** C3. The Extension Filter keeps, in the order and with the repetitions
    of the input, exactly the URLs that parse and whose final path segment
    ends, whatever the case of the letters, with a dot and one of the
    extensions (an extension counts without its leading dot). A URL that
    does not parse is left out, and the filter returns all the same. A URL
    whose path ends in [font.WOFF2] passes for [woff2], a query string
    after it changes nothing. *)
Theorem C3_filter_keeps_matching_urls :
  forall `{Platform} (urls extensions : list string),
    (exists keep : string -> bool,
        (forall u, keep u = true <-> keeps_extension extensions u)
        /\ filterUrlsByExtension urls extensions = List.filter keep urls)
    /\ sublist (filterUrlsByExtension urls extensions) urls
    /\ (forall u,
          In u (filterUrlsByExtension urls extensions)
          <-> In u urls /\ keeps_extension extensions u)
    /\ (forall u e,
          new_URL u None = Throw e ->
          ~ In u (filterUrlsByExtension urls extensions))
    /\ (forall u urlObj dir,
          new_URL u None = Ret urlObj ->
          pathname urlObj = dir +:+ "/font.WOFF2" ->
          filterUrlsByExtension [u] ["woff2"] = [u])
    /\ @filterUrlsByExtension Reference.platform
         ["https://example.com/fonts/font.WOFF2?x=1"] ["woff2"]
       = ["https://example.com/fonts/font.WOFF2?x=1"].
Proof.
  intros P urls extensions. repeat apply conj.
  - exists (hasExtension extensions). split; [|reflexivity].
    intros u. apply hasExtension_spec.
  - apply filter_sublist.
  - intros u. unfold filterUrlsByExtension. rewrite filter_In, hasExtension_spec.
    reflexivity.
  - intros u e Hu [_ Hkeep]%filter_In.
    unfold hasExtension in Hkeep. rewrite Hu in Hkeep. discriminate.
  - intros u urlObj dir Hu Hpath. unfold filterUrlsByExtension. simpl.
    replace (hasExtension ["woff2"] u) with true; [reflexivity|].
    symmetry. apply hasExtension_spec.
    exists urlObj, "font.WOFF2", "woff2".
    split; [exact Hu|]. split; [|split].
    + split; [reflexivity|]. right. exists dir. exact Hpath.
    + left. reflexivity.
    + exists "font". reflexivity.
  - vm_compute. reflexivity.
Qed.

Lemma C3_filter_keeps_matching_urls_witness :
  In "https://example.com/fonts/font.WOFF2?x=1"
     (@filterUrlsByExtension Reference.platform
        ["/relative.woff2"; "https://example.com/fonts/font.WOFF2?x=1"] ["woff2"])
  /\ ~ In "/relative.woff2"
       (@filterUrlsByExtension Reference.platform
          ["/relative.woff2"; "https://example.com/fonts/font.WOFF2?x=1"] ["woff2"]).
Proof.
  destruct (@C3_filter_keeps_matching_urls Reference.platform
              ["/relative.woff2"; "https://example.com/fonts/font.WOFF2?x=1"]
              ["woff2"]) as (_ & _ & Hiff & Hdrop & Hone & _).
  split.
  - apply Hiff. split; [right; left; reflexivity|].
    eexists _, "font.WOFF2", "woff2".
    split; [vm_compute; reflexivity|]. split; [|split].
    + split; [reflexivity|]. right. exists "/fonts". reflexivity.
    + left. reflexivity.
    + exists "font". reflexivity.
  - apply (Hdrop _ "Invalid URL"). vm_compute. reflexivity.
Defined.

(** C4. Filtering with the extensions of the format [all] keeps a URL
    exactly when filtering with the extensions of one of the five single
    formats keeps it, and keeps the order of the input. *)
Theorem C4_all_is_union_of_formats :
  forall `{Platform} (urls : list string),
    selectedExtensions ["all"] = ["woff2"; "woff"; "ttf"; "otf"; "eot"]
    /\ selectedExtensions ["all"]
       = flat_map (fun format => selectedExtensions [format])
                  ["woff2"; "woff"; "ttf"; "otf"; "eot"]
    /\ filterUrlsByExtension urls (selectedExtensions ["all"])
       = List.filter
           (fun u =>
              existsb
                (fun format =>
                   Set_has u (filterUrlsByExtension urls (selectedExtensions [format])))
                ["woff2"; "woff"; "ttf"; "otf"; "eot"])
           urls
    /\ (forall u,
          In u (filterUrlsByExtension urls (selectedExtensions ["all"]))
          <-> exists format,
                In format ["woff2"; "woff"; "ttf"; "otf"; "eot"]
                /\ In u (filterUrlsByExtension urls (selectedExtensions [format]))).
Proof.
  intros P urls.
  assert (Hmem : forall exts u,
             In u urls ->
             Set_has u (filterUrlsByExtension urls exts) = hasExtension exts u).
  { intros exts u Hin. unfold Set_has.
    destruct (hasExtension exts u) eqn:Hk.
    - apply existsb_exists. exists u. split; [|apply String.eqb_refl].
      apply filter_In. split; assumption.
    - destruct (existsb _ _) eqn:E; [|reflexivity].
      apply existsb_exists in E as (v & [_ Hv]%filter_In & ->%String.eqb_eq).
      congruence. }
  assert (Hall : forall u,
             hasExtension (selectedExtensions ["all"]) u
             = existsb (fun format => hasExtension (selectedExtensions [format]) u)
                       ["woff2"; "woff"; "ttf"; "otf"; "eot"]).
  { intros u. rewrite hasExtension_existsb. reflexivity. }
  repeat apply conj.
  - reflexivity.
  - reflexivity.
  - unfold filterUrlsByExtension at 1.
    apply List.filter_ext_in. intros u Hin. rewrite Hall.
    unfold existsb. rewrite !Hmem by exact Hin. reflexivity.
  - intros u. split.
    + intros [Hin Hkeep]%filter_In. rewrite Hall in Hkeep.
      apply existsb_exists in Hkeep as (format & Hf & Hk).
      exists format. split; [exact Hf|]. apply filter_In. split; assumption.
    + intros (format & Hf & [Hin Hk]%filter_In).
      apply filter_In. split; [exact Hin|]. rewrite Hall.
      apply existsb_exists. exists format. split; assumption.
Qed.

(** ** The Retriever *)

Section DownloadFacts.
Context `{Platform}.

Ltac open_download :=
  unfold download, awaited, download_async, a_try_catch, a_bind, now, await,
    lift, fetch, writeFileSync, a_ret; simpl.

Lemma download_no_filename u urlObj w :
  new_URL u None = Ret urlObj ->
  final_segment (pathname urlObj) "" ->
  download u w = (Ret (mkOutcome false "unknown" (Some "No filename found")), w).
Proof.
  intros Hu Hseg%lastSegment_spec.
  open_download. rewrite Hu. simpl. rewrite Hseg. reflexivity.
Qed.

(** The download of a URL that has a file name: the request is issued,
    and the outcome and the files are as the response, its body and the
    file system have it. *)
Lemma download_named u urlObj c name w :
  new_URL u None = Ret urlObj ->
  lastSegment (pathname urlObj) = Some (String c name) ->
  exists o w',
    download u w = (Ret o, w')
    /\ requests w' = requests w ++ [(GET, u)]
    /\ match network GET u with
       | Throw e => o = mkOutcome false "unknown" (Some e) /\ files w' = files w
       | Ret response =>
           if ok response then
             match arrayBuffer response with
             | Throw e =>
                 o = mkOutcome false "unknown" (Some e) /\ files w' = files w
             | Ret buffer =>
                 match write_error (path_join OUTPUT_DIR (String c name)) buffer with
                 | Some e =>
                     o = mkOutcome false "unknown" (Some e) /\ files w' = files w
                 | None =>
                     o = mkOutcome true (String c name) None
                     /\ files w'
                        = <[path_join OUTPUT_DIR (String c name) := buffer]> (files w)
                 end
             end
           else
             o = mkOutcome false (String c name)
                   (Some ("HTTP " +:+ pretty (status response)))
             /\ files w' = files w
       end.
Proof.
  intros Hu Hseg. open_download. rewrite Hu. simpl. rewrite Hseg. simpl.
  destruct (network GET u) as [response|e1]; simpl; [|eauto 6].
  destruct (ok response); simpl; [|eauto 6].
  destruct (arrayBuffer response) as [buffer|e2]; simpl; [|eauto 6].
  destruct (write_error _ buffer) as [e3|]; simpl; eauto 6.
Qed.

(** A download that succeeds has written the body under the final
    segment of the path of the URL, in the output directory. *)
Lemma download_success u w o w' :
  download u w = (Ret o, w') ->
  success o = true ->
  exists urlObj response buffer,
    new_URL u None = Ret urlObj
    /\ lastSegment (pathname urlObj) = Some (filename o)
    /\ filename o <> ""
    /\ network GET u = Ret response
    /\ arrayBuffer response = Ret buffer
    /\ error o = None
    /\ requests w' = requests w ++ [(GET, u)]
    /\ files w' = <[path_join OUTPUT_DIR (filename o) := buffer]> (files w).
Proof.
  open_download.
  destruct (new_URL u None) as [urlObj|e0]; simpl;
    [|intros [= <- _]; discriminate].
  destruct (lastSegment (pathname urlObj)) as [[|c name]|] eqn:Hseg; simpl;
    [intros [= <- _]; discriminate | | intros [= <- _]; discriminate].
  destruct (network GET u) as [response|e1]; simpl;
    [|intros [= <- _]; discriminate].
  destruct (ok response); simpl; [|intros [= <- _]; discriminate].
  destruct (arrayBuffer response) as [buffer|e2] eqn:Hbuf; simpl;
    [|intros [= <- _]; discriminate].
  destruct (write_error _ buffer) as [e3|]; simpl;
    [intros [= <- _]; discriminate|].
  intros [= <- <-] _. exists urlObj, response, buffer. simpl.
  repeat split; try assumption; try reflexivity. discriminate.
Qed.

(** The items of the choice list for two URLs of the same name. *)
Lemma fontItems_two u1 u2 a b name :
  new_URL u1 None = Ret a ->
  new_URL u2 None = Ret b ->
  lastSegment (pathname a) = Some name ->
  lastSegment (pathname b) = Some name ->
  name <> "" ->
  fontItems [u1; u2]
  = match colorOf name with
    | Colours c => Ret [mkItem (Coloured c name) u1; mkItem (Coloured c name) u2]
    | ObjectFunction => Ret [mkItem (Boxed name) u1; mkItem (Boxed name) u2]
    | ObjectPrototype => Throw "color is not a function"
    end.
Proof.
  intros Ha Hb Hsa Hsb Hne. simpl. unfold fontItem. rewrite Ha, Hb, Hsa, Hsb.
  destruct name as [|c name]; [congruence|].
  destruct (colorOf (String c name)); reflexivity.
Qed.

End DownloadFacts.

(** C6, as the program has it. For a URL whose path ends in a slash, the
    operation of the retriever returns
    [{success: false, filename: "unknown", error: "No filename found"}], the
    reason beginning with a capital letter, and leaves the world as it was:
    no request is issued and no file is written. *)
Theorem C6_no_filename_outcome :
  forall `{Platform} (u : string) (urlObj : URL) (w : World),
    new_URL u None = Ret urlObj ->
    final_segment (pathname urlObj) "" ->
    download u w = (Ret (mkOutcome false "unknown" (Some "No filename found")), w).
Proof. intros P u urlObj w. apply download_no_filename. Qed.

Lemma C6_no_filename_outcome_witness :
  @download Reference.platform "https://example.com/fonts/" (mkWorld [] ∅)
  = (Ret (mkOutcome false "unknown" (Some "No filename found")), mkWorld [] ∅).
Proof.
  eapply (@C6_no_filename_outcome Reference.platform).
  - vm_compute. reflexivity.
  - split; [reflexivity|]. right. exists "/fonts". reflexivity.
Defined.

(** C6 as the specification states it fails: on
    [https://example.com/fonts/], whose path
    [/fonts/] has an empty final segment, the outcome is not the one with
    the reason in lower case. *)
Lemma C6_lowercase_reason_counterexample :
  (exists urlObj,
      @new_URL Reference.platform "https://example.com/fonts/" None = Ret urlObj
      /\ pathname urlObj = "/fonts/"
      /\ final_segment (pathname urlObj) "")
  /\ fst (@download Reference.platform "https://example.com/fonts/" (mkWorld [] ∅))
     <> Ret (mkOutcome false "unknown" (Some "no filename found")).
Proof.
  split.
  - eexists. split; [vm_compute; reflexivity|]. split; [reflexivity|].
    split; [reflexivity|]. right. exists "/fonts". reflexivity.
  - vm_compute. discriminate.
Qed.

Lemma nth_error_map_Ret {A B} (f : A -> Result B) (results : list B) (l : list A) i x :
  map Ret results = map f l ->
  nth_error l i = Some x ->
  exists r, nth_error results i = Some r /\ f x = Ret r.
Proof.
  intros E Hx.
  pose proof (map_nth_error f i l Hx) as Hf. rewrite <- E in Hf.
  rewrite nth_error_map in Hf.
  destruct (nth_error results i) as [r|]; [|discriminate].
  exists r. split; [reflexivity|]. simpl in Hf. congruence.
Qed.

(** The requests of a download are the one [GET] of a URL that has a file
    name. *)
Lemma sent_by_named `{Platform} (r : Method * string) (u : string) :
  In r (sent_by u) ->
  r = (GET, u)
  /\ exists urlObj c name,
       new_URL u None = Ret urlObj
       /\ lastSegment (pathname urlObj) = Some (String c name).
Proof.
  unfold sent_by.
  destruct (new_URL u None) as [urlObj|e] eqn:Hu.
  - destruct (lastSegment (pathname urlObj)) as [[|c name]|] eqn:Hseg.
    + rewrite (download_no_filename u urlObj untouched Hu);
        [intros [] | apply lastSegment_spec, Hseg].
    + destruct (download_named u urlObj c name untouched Hu Hseg)
        as (o & w' & -> & Hreq & _).
      simpl. rewrite Hreq. simpl. intros [<-|[]]. split; [reflexivity|eauto].
    + unfold download, awaited, download_async, a_try_catch, a_bind, now, lift.
      simpl. rewrite Hu. simpl. rewrite Hseg. simpl. intros [].
  - unfold download, awaited, download_async, a_try_catch, a_bind, now, lift.
    simpl. rewrite Hu. simpl. intros [].
Qed.

(** C9, as the program has it. A URL that the Extension Filter keeps
    parses, and the final segment of its path is not empty. Its download
    issues the request; when the response is a success, its body can be
    read and the file can be written, the outcome is a success under that
    segment and the body is in the file of that name; a response that is no
    success gives the reason [HTTP status] under that segment; and the
    outcome [{success: false, filename: "unknown", error: "No filename
    found"}] can only come from an error of the platform that carries this
    very message. In the retriever a URL whose final segment is empty gets
    that outcome, the reason beginning with a capital letter and being none
    of the [HTTP status] reasons, and no request is issued for it; the
    outcome stands in the results at the index of the URL, so the URL is not
    dropped, and every request of the run is the [GET] of a URL of the
    input that has a file name. *)
Theorem C9_survivors_have_a_filename :
  forall `{Platform} (urls extensions : list string) (w : World),
    (forall u,
        In u (filterUrlsByExtension urls extensions) ->
        exists urlObj seg,
          new_URL u None = Ret urlObj
          /\ final_segment (pathname urlObj) seg
          /\ seg <> ""
          /\ forall w0,
               exists o w1,
                 download u w0 = (Ret o, w1)
                 /\ requests w1 = requests w0 ++ [(GET, u)]
                 /\ (success o = true -> filename o = seg)
                 /\ (forall response buffer,
                       network GET u = Ret response ->
                       ok response = true ->
                       arrayBuffer response = Ret buffer ->
                       write_error (path_join OUTPUT_DIR seg) buffer = None ->
                       o = mkOutcome true seg None
                       /\ files w1 = <[path_join OUTPUT_DIR seg := buffer]> (files w0))
                 /\ (forall response,
                       network GET u = Ret response ->
                       ok response = false ->
                       o = mkOutcome false seg
                             (Some ("HTTP " +:+ pretty (status response))))
                 /\ (o = mkOutcome false "unknown" (Some "No filename found") ->
                     network GET u = Throw "No filename found"
                     \/ exists response,
                          network GET u = Ret response
                          /\ ok response = true
                          /\ (arrayBuffer response = Throw "No filename found"
                              \/ exists buffer,
                                   arrayBuffer response = Ret buffer
                                   /\ write_error (path_join OUTPUT_DIR seg) buffer
                                      = Some "No filename found")))
    /\ (forall u urlObj,
          new_URL u None = Ret urlObj ->
          final_segment (pathname urlObj) "" ->
          download u w
          = (Ret (mkOutcome false "unknown" (Some "No filename found")), w)
          /\ forall response,
               "No filename found" <> "HTTP " +:+ pretty (status response))
    /\ (exists results w',
          downloadFontFiles_results urls w = Some (Ret results, w')
          /\ length results = length urls
          /\ (forall i u urlObj,
                nth_error urls i = Some u ->
                new_URL u None = Ret urlObj ->
                final_segment (pathname urlObj) "" ->
                nth_error results i
                = Some (mkOutcome false "unknown" (Some "No filename found")))
          /\ (forall r,
                In r (requests w') ->
                In r (requests w)
                \/ exists u urlObj seg,
                     r = (GET, u)
                     /\ In u urls
                     /\ new_URL u None = Ret urlObj
                     /\ final_segment (pathname urlObj) seg
                     /\ seg <> "")).
Proof.
  intros P urls extensions w. split; [|split].
  - intros u [_ Hkeep]%filter_In.
    destruct (hasExtension_nonempty _ _ Hkeep) as (urlObj & c & seg & Hu & Hseg).
    exists urlObj, (String c seg).
    split; [exact Hu|]. split; [apply lastSegment_spec, Hseg|].
    split; [discriminate|].
    intros w0.
    destruct (download_named u urlObj c seg w0 Hu Hseg) as (o & w1 & Hd & Hreq & Ho).
    exists o, w1. split; [exact Hd|]. split; [exact Hreq|].
    destruct (network GET u) as [response|e1] eqn:Hnet.
    + destruct (ok response) eqn:Hok.
      * destruct (arrayBuffer response) as [buffer|e2] eqn:Hbuf.
        -- destruct (write_error _ buffer) as [e3|] eqn:Hw; destruct Ho as [-> Hf].
           ++ split; [discriminate|].
              split; [intros; split; congruence|].
              split; [intros; congruence|].
              intros [= ->]. right. exists response. split; [reflexivity|].
              split; [exact Hok|]. right. exists buffer. split; [exact Hbuf|exact Hw].
           ++ split; [reflexivity|].
              split; [intros; split; congruence|].
              split; [intros; congruence|]. discriminate.
        -- destruct Ho as [-> Hf]. split; [discriminate|].
           split; [intros; split; congruence|].
           split; [intros; congruence|].
           intros [= ->]. right. exists response. split; [reflexivity|].
           split; [exact Hok|]. left. exact Hbuf.
      * destruct Ho as [-> Hf]. split; [discriminate|].
        split; [intros; split; congruence|].
        split; [intros; congruence|].
        simpl. discriminate.
    + destruct Ho as [-> Hf]. split; [discriminate|].
      split; [discriminate|]. split; [discriminate|].
      intros [= ->]. left. reflexivity.
  - intros u urlObj Hu Hseg.
    split; [apply (download_no_filename _ _ _ Hu Hseg)|].
    intros response; discriminate.
  - destruct (downloads_run urls w)
      as (results & ws & w' & Hrun & _ & Hlen & Hvalues & Hreq & _).
    exists results, w'. split; [exact Hrun|]. split; [exact Hlen|]. split.
    + intros i u urlObj Hi Hu Hseg.
      destruct (nth_error_map_Ret _ _ _ _ _ Hvalues Hi) as (r & Hr & Hd).
      rewrite <- (outcome_of_download u w),
        (download_no_filename _ _ _ Hu Hseg) in Hd.
      injection Hd as <-. exact Hr.
    + intros r. rewrite Hreq. intros [Hin|Hin]%in_app_or; [left; exact Hin|].
      right. apply in_flat_map in Hin as (u & Hu & Hr).
      apply sent_by_named in Hr as (-> & urlObj & c & name & Hparse & Hseg).
      exists u, urlObj, (String c name).
      split; [reflexivity|]. split; [exact Hu|]. split; [exact Hparse|].
      split; [apply lastSegment_spec, Hseg | discriminate].
Qed.

Lemma C9_survivors_have_a_filename_witness :
  (exists urlObj seg,
      @new_URL Reference.platform "https://example.com/f/a.woff2" None = Ret urlObj
      /\ final_segment (pathname urlObj) seg /\ seg <> "")
  /\ (exists w1 data,
        @download Reference.platform "https://example.com/f/a.woff2" untouched
        = (Ret (mkOutcome true "a.woff2" None), w1)
        /\ files w1 = <["/home/user/Downloads/typeologist/a.woff2" := data]> ∅)
  /\ @download Reference.platform "https://example.com/f/" untouched
     = (Ret (mkOutcome false "unknown" (Some "No filename found")), untouched).
Proof.
  destruct (@C9_survivors_have_a_filename Reference.platform
              ["https://example.com/f/"; "https://example.com/f/a.woff2"]
              ["woff2"] untouched) as (Hkept & Hempty & _).
  destruct (Hkept "https://example.com/f/a.woff2")
    as (urlObj & seg & Hu & Hseg & Hne & Hd).
  { vm_compute. left. reflexivity. }
  split; [|split].
  - exists urlObj, seg. split; [exact Hu|]. split; assumption.
  - destruct (Hd untouched) as (o & w1 & Hrun & _ & _ & Hgood & _).
    injection Hu as <-.
    assert (Hs : seg = "a.woff2").
    { apply lastSegment_spec in Hseg. vm_compute in Hseg. congruence. }
    subst seg.
    edestruct Hgood as [-> Hf]; [vm_compute; reflexivity..|].
    exists w1. eexists. split; [exact Hrun | exact Hf].
  - edestruct (Hempty "https://example.com/f/") as (Hd0 & _).
    + vm_compute. reflexivity.
    + split; [reflexivity|]. right. exists "/f". reflexivity.
    + exact Hd0.
Defined.

(** C9 as the specification states it fails in the letter case of the
    reason: on [https://example.com/f/], whose path [/f/] has an empty final
    segment, the reason of the outcome is not the one in lower case. *)
Lemma C9_lowercase_reason_counterexample :
  exists urlObj o,
    @new_URL Reference.platform "https://example.com/f/" None = Ret urlObj
    /\ final_segment (pathname urlObj) ""
    /\ fst (@download Reference.platform "https://example.com/f/" untouched) = Ret o
    /\ error o <> Some "no filename found".
Proof.
  eexists _, _. split; [vm_compute; reflexivity|].
  split; [split; [reflexivity|]; right; exists "/f"; reflexivity|].
  split; [vm_compute; reflexivity|]. simpl. discriminate.
Qed.

(** C10. The retriever names the file after the final segment of the path
    of the URL and of nothing else: a download that succeeds writes to
    [path.join(OUTPUT_DIR, segment)]. So two URLs that differ only in
    their query string or fragment are saved to the same path, the second
    download replacing what the first wrote. The choice list is made from
    the same segment: it shows that name for both, in the colour of its
    extension, or as a [String] object when the extension is
    [constructor]; when the extension is [__proto__] making the list throws
    [color is not a function]. *)
Theorem C10_filename_comes_from_pathname :
  forall `{Platform} (u1 u2 : string) (a b : URL) (w w1 w2 : World)
         (o1 o2 : DownloadOutcome),
    new_URL u1 None = Ret a ->
    new_URL u2 None = Ret b ->
    same_but_query_and_fragment a b ->
    download u1 w = (Ret o1, w1) ->
    download u2 w1 = (Ret o2, w2) ->
    success o1 = true ->
    success o2 = true ->
    final_segment (pathname a) (filename o1)
    /\ filename o2 = filename o1
    /\ (exists data1,
          files w1 = <[path_join OUTPUT_DIR (filename o1) := data1]> (files w))
    /\ (exists data2,
          files w2 = <[path_join OUTPUT_DIR (filename o1) := data2]> (files w))
    /\ fontItems [u1; u2]
       = match colorOf (filename o1) with
         | Colours c =>
             Ret [mkItem (Coloured c (filename o1)) u1;
                  mkItem (Coloured c (filename o1)) u2]
         | ObjectFunction =>
             Ret [mkItem (Boxed (filename o1)) u1; mkItem (Boxed (filename o1)) u2]
         | ObjectPrototype => Throw "color is not a function"
         end.
Proof.
  intros P u1 u2 a b w w1 w2 o1 o2 Ha Hb (_ & _ & Hpath) Hd1 Hd2 Hs1 Hs2.
  destruct (download_success _ _ _ _ Hd1 Hs1)
    as (a' & r1 & data1 & Ha' & Hseg1 & Hne1 & _ & _ & _ & _ & Hf1).
  destruct (download_success _ _ _ _ Hd2 Hs2)
    as (b' & r2 & data2 & Hb' & Hseg2 & Hne2 & _ & _ & _ & _ & Hf2).
  assert (a' = a) as -> by congruence.
  assert (b' = b) as -> by congruence.
  assert (Hname : filename o2 = filename o1) by (rewrite Hpath in Hseg1; congruence).
  split; [apply lastSegment_spec, Hseg1|].
  split; [exact Hname|].
  split; [exists data1; exact Hf1|].
  split.
  - exists data2. rewrite Hf2, Hf1, Hname. apply insert_insert_eq.
  - rewrite Hname in Hseg2. apply (fontItems_two u1 u2 a b); assumption.
Qed.

Lemma C10_filename_comes_from_pathname_witness :
  let w := mkWorld [] ∅ in
  let w1 := snd (@download Reference.platform "https://example.com/a.woff2?v=1" w) in
  let w2 := snd (@download Reference.platform "https://example.com/a.woff2#top" w1) in
  (exists data,
      files w2 = <["/home/user/Downloads/typeologist/a.woff2" := data]> (files w))
  /\ @fontItems Reference.platform
       ["https://example.com/a.woff2?v=1"; "https://example.com/a.woff2#top"]
     = Ret [mkItem (Coloured yellow "a.woff2") "https://example.com/a.woff2?v=1";
            mkItem (Coloured yellow "a.woff2") "https://example.com/a.woff2#top"]
  /\ @fontItems Reference.platform
       ["https://example.com/a.__proto__?v=1"; "https://example.com/a.__proto__#top"]
     = Throw "color is not a function".
Proof.
  intros w w1 w2. split; [|split].
  - edestruct (@C10_filename_comes_from_pathname Reference.platform
                 "https://example.com/a.woff2?v=1" "https://example.com/a.woff2#top"
                 (mkURL "https:" "example.com" "/a.woff2" "?v=1" ""
                        "https://example.com/a.woff2?v=1")
                 (mkURL "https:" "example.com" "/a.woff2" "" "#top"
                        "https://example.com/a.woff2#top")
                 w w1 w2
                 (mkOutcome true "a.woff2" None) (mkOutcome true "a.woff2" None))
      as (_ & _ & _ & Hfile & _).
    + vm_compute. reflexivity.
    + vm_compute. reflexivity.
    + repeat split.
    + vm_compute. reflexivity.
    + vm_compute. reflexivity.
    + reflexivity.
    + reflexivity.
    + exact Hfile.
  - edestruct (@C10_filename_comes_from_pathname Reference.platform
                 "https://example.com/a.woff2?v=1" "https://example.com/a.woff2#top"
                 (mkURL "https:" "example.com" "/a.woff2" "?v=1" ""
                        "https://example.com/a.woff2?v=1")
                 (mkURL "https:" "example.com" "/a.woff2" "" "#top"
                        "https://example.com/a.woff2#top")
                 w w1 w2
                 (mkOutcome true "a.woff2" None) (mkOutcome true "a.woff2" None))
      as (_ & _ & _ & _ & Hitems).
    + vm_compute. reflexivity.
    + vm_compute. reflexivity.
    + repeat split.
    + vm_compute. reflexivity.
    + vm_compute. reflexivity.
    + reflexivity.
    + reflexivity.
    + exact Hitems.
  - edestruct (@C10_filename_comes_from_pathname Reference.platform
                 "https://example.com/a.__proto__?v=1"
                 "https://example.com/a.__proto__#top"
                 (mkURL "https:" "example.com" "/a.__proto__" "?v=1" ""
                        "https://example.com/a.__proto__?v=1")
                 (mkURL "https:" "example.com" "/a.__proto__" "" "#top"
                        "https://example.com/a.__proto__#top")
                 w
                 (snd (@download Reference.platform
                         "https://example.com/a.__proto__?v=1" w))
                 (snd (@download Reference.platform
                         "https://example.com/a.__proto__#top"
                         (snd (@download Reference.platform
                                 "https://example.com/a.__proto__?v=1" w))))
                 (mkOutcome true "a.__proto__" None)
                 (mkOutcome true "a.__proto__" None))
      as (_ & _ & _ & _ & Hitems).
    + vm_compute. reflexivity.
    + vm_compute. reflexivity.
    + repeat split.
    + vm_compute. reflexivity.
    + vm_compute. reflexivity.
    + reflexivity.
    + reflexivity.
    + exact Hitems.
Defined.

(** ** Regular expressions *)

Section ClassRuns.
Variable ic : bool.
Variable neg : bool.
Variable items : list cls_item.

Let p := cls_accepts ic neg items.

Lemma matches_then_eol r bol s :
  matches ic (Seq r (Seq Eol Eps)) bol s = flat_map at_end (matches ic r bol s).
Proof.
  simpl. apply flat_map_ext. intros [m1 s1].
  destruct s1; simpl; [|reflexivity].
  unfold at_end. simpl. rewrite str_app_nil_r. reflexivity.
Qed.

Lemma at_end_prepend c (l : list result) :
  flat_map at_end (map (fun '(m2, s2) => (String c m2, s2)) l)
  = map (fun '(m2, s2) => (String c m2, s2)) (flat_map at_end l).
Proof.
  induction l as [|[m2 s2] l IH]; [reflexivity|].
  cbn [map flat_map]. rewrite IH, map_app. f_equal.
  unfold at_end. simpl. destruct s2; reflexivity.
Qed.

Variable f : bool -> string -> list result.
Hypothesis f_class :
  forall b s,
    f b s = match s with
            | EmptyString => []
            | String x s' => if p x then [(String x "", s')] else []
            end.

(** [[class]{min,}$] matches at the head of [s] when [s] is made of units
    of the class and has [min] units at least; the match is [s]. *)
Lemma rep_class_eol s :
  forall fuel min bol,
    min + String.length s <= fuel ->
    flat_map at_end (rep_go f fuel min bol s)
    = if str_forallb p s && (min <=? String.length s) then [(s, "")] else [].
Proof.
  induction s as [|c s IH]; intros fuel min bol Hfuel.
  - assert (E : rep_go f fuel min bol "" = if min =? 0 then [("", "")] else []).
    { destruct fuel; cbn [rep_go]; [reflexivity|]. rewrite f_class. reflexivity. }
    rewrite E. simpl. destruct min; reflexivity.
  - destruct fuel as [|fuel]; [simpl in Hfuel; lia|].
    simpl in Hfuel. cbn [rep_go str_forallb]. rewrite f_class.
    destruct (p c) eqn:Hc.
    + cbn [flat_map]. rewrite app_nil_r.
      replace ((min =? 0) && (String c "" =? "")%string) with false
        by (symmetry; apply andb_false_r).
      rewrite flat_map_app.
      assert (E : flat_map at_end (if min =? 0 then [("", String c s)] else []) = []).
      { destruct (min =? 0); reflexivity. }
      rewrite E, app_nil_r.
      rewrite (map_ext _ (fun '(m2, s2) => (String c m2, s2)))
        by (intros [? ?]; reflexivity).
      rewrite at_end_prepend, IH by lia.
      replace (Nat.pred min <=? String.length s)
        with (min <=? String.length (String c s))
        by (destruct min; [destruct (String.length s)|]; reflexivity).
      simpl andb.
      destruct (str_forallb p s && _); reflexivity.
    + cbn [flat_map app]. destruct (min =? 0); reflexivity.
Qed.

End ClassRuns.

Lemma plus_class_eol ic neg items bol s :
  matches ic (Seq (Plus (Cls neg items)) (Seq Eol Eps)) bol s
  = if str_forallb (cls_accepts ic neg items) s && (1 <=? String.length s)
    then [(s, "")] else [].
Proof.
  rewrite matches_then_eol. unfold Plus. cbn [matches].
  apply rep_class_eol; [|lia].
  intros b [|x s']; reflexivity.
Qed.


(** ** The two patterns that clean a match *)

Lemma trailing_class c :
  cls_accepts false false trailing_units c = is_trailing_unit c.
Proof. destruct c as [[] [] [] [] [] [] [] []]; reflexivity. Qed.

Lemma punct_class c :
  cls_accepts false false (trailing_units ++ [CChar "/"%char]) c = is_punct_or_slash c.
Proof. destruct c as [[] [] [] [] [] [] [] []]; reflexivity. Qed.

Lemma str_forallb_ext (p q : ascii -> bool) s :
  (forall c, p c = q c) -> str_forallb p s = str_forallb q s.
Proof. intros E. induction s as [|c s IH]; simpl; [|rewrite E, IH]; reflexivity. Qed.

Lemma str_drop_all s : str_drop (String.length s) s = "".
Proof. induction s as [|c s IH]; simpl; auto. Qed.

Lemma match_here_trailing bol s :
  match_here re_trailing bol s
  = if str_forallb is_trailing_unit s && (1 <=? String.length s)
    then Some s else None.
Proof.
  unfold match_here, re_trailing. cbn [source ignoreCase seq fold_right].
  rewrite plus_class_eol, (str_forallb_ext _ _ s trailing_class).
  destruct (str_forallb is_trailing_unit s && _); reflexivity.
Qed.

Lemma match_here_only_punct bol s :
  match_here re_only_punct bol s
  = if bol && (str_forallb is_punct_or_slash s && (1 <=? String.length s))
    then Some s else None.
Proof.
  unfold match_here, re_only_punct. cbn [source ignoreCase seq fold_right].
  change (matches false (Seq Bol ?r) bol s)
    with (flat_map
            (fun '(m1, s1) =>
               map (fun '(m2, s2) => (m1 +:+ m2, s2))
                   (matches false r (bol && String.eqb m1 "") s1))
            (if bol then [("", s)] else [])).
  destruct bol; [|reflexivity].
  cbn [flat_map]. rewrite plus_class_eol, (str_forallb_ext _ _ s punct_class).
  destruct (str_forallb is_punct_or_slash s && _); reflexivity.
Qed.

Lemma leftmost_only_punct_later s : leftmost re_only_punct false s = None.
Proof.
  induction s as [|c s IH]; cbn [leftmost]; rewrite match_here_only_punct;
    [reflexivity|].
  cbn [andb]. rewrite IH. reflexivity.
Qed.

(** [/^[.,;!?\/]+$/.test(s)]: [s] is not empty and made of punctuation and
    slashes. *)
Lemma test_only_punct s :
  test re_only_punct s
  = str_forallb is_punct_or_slash s && (1 <=? String.length s).
Proof.
  unfold test.
  destruct s as [|c s]; cbn [leftmost]; rewrite match_here_only_punct; cbn [andb].
  - reflexivity.
  - destruct (str_forallb is_punct_or_slash (String c s) && _); [reflexivity|].
    rewrite leftmost_only_punct_later. reflexivity.
Qed.

Lemma ends_clean_nil : ends_clean "".
Proof. intros [|a v] c E; discriminate. Qed.

Lemma ends_clean_one a : is_trailing_unit a = false -> ends_clean (String a "").
Proof.
  intros Ha [|b v] c E; simpl in E.
  - congruence.
  - injection E as _ E. destruct v; discriminate.
Qed.

Lemma ends_clean_cons a u : u <> "" -> ends_clean u -> ends_clean (String a u).
Proof.
  intros Hne Hu [|b v] c E; simpl in E.
  - injection E as _ E. congruence.
  - injection E as _ E. exact (Hu v c E).
Qed.

Lemma leftmost_trailing_spec s :
  forall bol,
    match leftmost re_trailing bol s with
    | Some (pre, m, post) =>
        s = pre +:+ m /\ post = ""
        /\ str_forallb is_trailing_unit m = true /\ ends_clean pre
    | None => ends_clean s
    end.
Proof.
  induction s as [|c s IH]; intros bol; cbn [leftmost];
    rewrite match_here_trailing.
  - simpl. apply ends_clean_nil.
  - destruct (str_forallb is_trailing_unit (String c s)) eqn:Hall; cbn [andb].
    + simpl. rewrite str_drop_all. repeat split; try assumption.
      apply ends_clean_nil.
    + simpl in Hall. specialize (IH false).
      destruct (leftmost re_trailing false s) as [[[pre m] post]|].
      * destruct IH as (-> & -> & Hm & Hpre). repeat split; try assumption.
        destruct pre as [|a pre].
        -- apply ends_clean_one. simpl in Hall. rewrite Hm, andb_true_r in Hall.
           exact Hall.
        -- apply ends_clean_cons; [discriminate | exact Hpre].
      * destruct s as [|a s].
        -- apply ends_clean_one. rewrite andb_true_r in Hall. exact Hall.
        -- apply ends_clean_cons; [discriminate | exact IH].
Qed.

(** [s.replace(/[.,;!?]+$/, "")] takes the trailing run of punctuation off. *)
Lemma replace_trailing_stripped s : stripped s (replace s re_trailing "").
Proof.
  unfold replace, stripped. pose proof (leftmost_trailing_spec s true) as Hs.
  destruct (leftmost re_trailing true s) as [[[pre m] post]|].
  - destruct Hs as (-> & -> & Hm & Hpre). simpl. rewrite str_app_nil_r.
    split; [|exact Hpre]. exists m. split; [reflexivity | exact Hm].
  - split; [|exact Hs]. exists "". rewrite str_app_nil_r. split; reflexivity.
Qed.

(** ** The URL Pattern Extractor *)

Lemma Set_has_In x s : Set_has x s = true <-> In x s.
Proof.
  unfold Set_has. rewrite existsb_exists. split.
  - intros (y & Hy & ->%String.eqb_eq). exact Hy.
  - intros Hx. exists x. split; [exact Hx | apply String.eqb_refl].
Qed.

Lemma Set_add_In u x s : In u (Set_add x s) <-> u = x \/ In u s.
Proof.
  unfold Set_add. destruct (Set_has x s) eqn:Hx.
  - apply Set_has_In in Hx. split; [auto|]. intros [->|Hu]; assumption.
  - rewrite in_app_iff. simpl. intuition (subst; auto).
Qed.

Lemma NoDup_snoc {A} (x : A) (s : list A) :
  List.NoDup s -> ~ In x s -> List.NoDup (s ++ [x]).
Proof.
  induction 1 as [|y s Hy Hs IH]; simpl; intros Hx.
  - constructor; [intros []|constructor].
  - constructor.
    + rewrite in_app_iff. simpl. intros [Hin|[->|[]]]; [|apply Hx; auto].
      apply Hy, Hin.
    + apply IH. intros Hin. apply Hx. auto.
Qed.

Lemma Set_add_NoDup x s : List.NoDup s -> List.NoDup (Set_add x s).
Proof.
  intros Hs. unfold Set_add. destruct (Set_has x s) eqn:Hx; [exact Hs|].
  apply NoDup_snoc; [exact Hs|].
  intros Hin%Set_has_In. congruence.
Qed.

Lemma Set_add_all_In u xs s : In u (Set_add_all xs s) <-> In u xs \/ In u s.
Proof.
  unfold Set_add_all. revert s. induction xs as [|x xs IH]; intros s; simpl.
  - tauto.
  - rewrite IH, Set_add_In. intuition (subst; auto).
Qed.

Lemma Set_add_all_NoDup xs s : List.NoDup s -> List.NoDup (Set_add_all xs s).
Proof.
  unfold Set_add_all. revert s.
  induction xs as [|x xs IH]; intros s Hs; simpl; [exact Hs|].
  apply IH, Set_add_NoDup, Hs.
Qed.

Lemma collect_matches_In u ms urls :
  In u (fold_left collect ms urls)
  <-> In u urls \/ exists m, In m ms /\ u = cleanUrl m /\ keeps u = true.
Proof.
  revert urls. induction ms as [|m ms IH]; intros urls; simpl.
  - split; [auto|]. intros [?|(? & [] & _)]. assumption.
  - rewrite IH. unfold collect. split.
    + intros [Hu|(m' & Hm' & E)].
      * destruct (keeps (cleanUrl m)) eqn:Hk; [|auto].
        apply Set_add_In in Hu as [->|Hu]; [|auto].
        right. exists m. auto.
      * right. exists m'. auto.
    + intros [Hu|(m' & [<-|Hm'] & -> & Hk)].
      * left. destruct (keeps (cleanUrl m)); [apply Set_add_In|]; auto.
      * left. rewrite Hk. apply Set_add_In. auto.
      * right. exists m'. auto.
Qed.

Lemma collect_patterns_In text u ps urls :
  In u (fold_left (fun urls pattern => fold_left collect (String_match text pattern) urls)
                  ps urls)
  <-> In u urls
      \/ exists pattern m,
           In pattern ps /\ In m (String_match text pattern)
           /\ u = cleanUrl m /\ keeps u = true.
Proof.
  revert urls. induction ps as [|q ps IH]; intros urls; simpl.
  - split; [auto|]. intros [?|(? & ? & [] & _)]. assumption.
  - rewrite IH, collect_matches_In. split.
    + intros [[Hu|(m & Hm & E)]|(q' & m & Hq' & Hm & E)]; [auto|..].
      * right. exists q, m. auto.
      * right. exists q', m. auto.
    + intros [Hu|(q' & m & [<-|Hq'] & Hm & E)]; [auto|..].
      * left. right. exists m. auto.
      * right. exists q', m. auto.
Qed.

(** The strings that the extractor returns are the cleaned matches that
    pass its test. *)
Lemma extractUrlsFromText_In text u :
  In u (extractUrlsFromText text)
  <-> exists pattern m,
        In pattern urlPatterns /\ In m (String_match text pattern)
        /\ u = cleanUrl m /\ keeps u = true.
Proof.
  unfold extractUrlsFromText.
  change (fun urls m => let c := cleanUrl m in
                        if keeps c then Set_add c urls else urls) with collect.
  rewrite collect_patterns_In. split; [intros [[]|?]; assumption | auto].
Qed.

Lemma extractUrlsFromText_NoDup text : List.NoDup (extractUrlsFromText text).
Proof.
  unfold extractUrlsFromText.
  assert (Hinner : forall ms urls, List.NoDup urls ->
            List.NoDup (fold_left collect ms urls)).
  { induction ms as [|m ms IH]; intros urls Hu; simpl; [exact Hu|].
    apply IH. unfold collect. destruct (keeps (cleanUrl m)); [|exact Hu].
    apply Set_add_NoDup, Hu. }
  change (fun urls m => let c := cleanUrl m in
                        if keeps c then Set_add c urls else urls) with collect.
  generalize (@nil string) (List.NoDup_nil string).
  induction urlPatterns as [|q ps IH]; intros urls Hu; simpl; [exact Hu|].
  apply IH, Hinner, Hu.
Qed.

(** ** What a match is made of *)

Lemma all_units_complete x : In x all_units.
Proof.
  unfold all_units. rewrite <- (ascii_nat_embedding x).
  apply in_map, in_seq. pose proof (nat_ascii_bounded x). lia.
Qed.

Lemma str_forallb_app q s t :
  str_forallb q (s +:+ t) = str_forallb q s && str_forallb q t.
Proof.
  induction s as [|c s IH]; simpl; [reflexivity|].
  rewrite IH, andb_assoc. reflexivity.
Qed.

Section MatchesSound.
Variable ic : bool.
Variable q : ascii -> bool.

Lemma rep_go_sound f :
  sound q f -> forall fuel min, sound q (rep_go f fuel min).
Proof.
  intros Hf fuel. induction fuel as [|fuel IH]; intros min bol s m rest; simpl.
  - destruct (min =? 0); [|intros []].
    intros [[= <- <-]|[]]. split; reflexivity.
  - rewrite in_app_iff, in_flat_map. intros [([m1 s1] & H1 & H2)|Hlast].
    + destruct ((min =? 0) && (m1 =? "")%string); [destruct H2|].
      apply in_map_iff in H2 as ([m2 s2] & [= <- <-] & H2).
      apply Hf in H1 as [-> Hq1]. apply IH in H2 as [-> Hq2].
      rewrite str_app_assoc, str_forallb_app, Hq1, Hq2. split; reflexivity.
    + destruct (min =? 0); [|destruct Hlast].
      destruct Hlast as [[= <- <-]|[]]. split; reflexivity.
Qed.

Lemma matches_sound r : atoms_within ic q r = true -> sound q (matches ic r).
Proof.
  induction r as [|c|neg items|r1 IH1 r2 IH2|r IH min max| |];
    intros Hr bol s m rest; cbn [atoms_within] in Hr; cbn [matches].
  - intros [[= <- <-]|[]]. split; reflexivity.
  - destruct s as [|x s]; [intros []|].
    destruct (Ascii.eqb (canon ic c) (canon ic x)) eqn:E; [|intros []].
    intros [[= <- <-]|[]]. split; [reflexivity|]. simpl.
    rewrite forallb_forall in Hr. specialize (Hr x (all_units_complete x)).
    rewrite E in Hr. simpl in Hr. rewrite Hr. reflexivity.
  - destruct s as [|x s]; [intros []|].
    destruct (cls_accepts ic neg items x) eqn:E; [|intros []].
    intros [[= <- <-]|[]]. split; [reflexivity|]. simpl.
    rewrite forallb_forall in Hr. specialize (Hr x (all_units_complete x)).
    rewrite E in Hr. simpl in Hr. rewrite Hr. reflexivity.
  - apply andb_prop in Hr as [Hr1 Hr2].
    rewrite in_flat_map. intros ([m1 s1] & H1 & H2).
    apply in_map_iff in H2 as ([m2 s2] & [= <- <-] & H2).
    apply (IH1 Hr1) in H1 as [-> Hq1]. apply (IH2 Hr2) in H2 as [-> Hq2].
    rewrite str_app_assoc, str_forallb_app, Hq1, Hq2. split; reflexivity.
  - apply rep_go_sound, IH, Hr.
  - destruct bol; [|intros []]. intros [[= <- <-]|[]]. split; reflexivity.
  - destruct s; [|intros []]. intros [[= <- <-]|[]]. split; reflexivity.
Qed.

End MatchesSound.

Section ScanSound.
Variable q : ascii -> bool.
Variable re : RegExp.
Hypothesis re_atoms : atoms_within (ignoreCase re) q (source re) = true.

Lemma match_here_sound bol s m :
  match_here re bol s = Some m ->
  exists rest, s = m +:+ rest /\ str_forallb q m = true.
Proof.
  unfold match_here.
  destruct (matches (ignoreCase re) (source re) bol s) as [|[m' rest] l] eqn:E;
    [discriminate|].
  intros [= <-]. exists rest.
  apply (matches_sound (ignoreCase re) q (source re) re_atoms bol s).
  rewrite E. left. reflexivity.
Qed.

(** Every match of a global pattern is a contiguous part of the text, and
    is made of units that the atoms of the pattern accept. *)
Lemma scan_sound s :
  forall bol skip m,
    In m (scan re bol skip s) ->
    part_of m s /\ str_forallb q m = true.
Proof.
  induction s as [|c s IH]; intros bol skip m; destruct skip as [|k]; simpl.
  - destruct (match_here re bol "") as [m'|] eqn:E; [|intros []].
    intros [<-|[]]. apply match_here_sound in E as (rest & E & Hq).
    split; [|exact Hq]. exists "", rest. exact E.
  - intros [].
  - destruct (match_here re bol (String c s)) as [m'|] eqn:E.
    + intros [<-|Hin].
      * apply match_here_sound in E as (rest & E & Hq).
        split; [|exact Hq]. exists "", rest. exact E.
      * apply IH in Hin as [(a & b & ->) Hq]. split; [|exact Hq].
        exists (String c a), b. reflexivity.
    + intros Hin. apply IH in Hin as [(a & b & ->) Hq]. split; [|exact Hq].
      exists (String c a), b. reflexivity.
  - intros Hin. apply IH in Hin as [(a & b & ->) Hq]. split; [|exact Hq].
    exists (String c a), b. reflexivity.
Qed.

End ScanSound.

(** ** Contiguous parts of strings *)

Lemma str_app_eq_app x y a b :
  x +:+ y = a +:+ b ->
  (exists k, a = x +:+ k /\ y = k +:+ b) \/ (exists k, x = a +:+ k /\ b = k +:+ y).
Proof.
  revert a. induction x as [|c x IH]; intros a E; simpl in E.
  - left. exists a. split; [reflexivity | exact E].
  - destruct a as [|d a]; simpl in E.
    + right. exists (String c x). split; [reflexivity | symmetry; exact E].
    + injection E as <- E. destruct (IH a E) as [(k & -> & ->)|(k & -> & ->)].
      * left. exists k. split; reflexivity.
      * right. exists k. split; reflexivity.
Qed.

Lemma str_existsb_app q s t :
  str_existsb q (s +:+ t) = str_existsb q s || str_existsb q t.
Proof.
  induction s as [|c s IH]; simpl; [reflexivity|].
  rewrite IH, orb_assoc. reflexivity.
Qed.

Lemma part_of_trans v u t : part_of v u -> part_of u t -> part_of v t.
Proof.
  intros (a & b & ->) (a' & b' & ->). exists (a' +:+ a), (b +:+ b').
  rewrite !str_app_assoc. reflexivity.
Qed.

Lemma str_forallb_part q v u :
  part_of v u -> str_forallb q u = true -> str_forallb q v = true.
Proof.
  intros (a & b & ->). rewrite !str_forallb_app.
  intros [_ [Hv _]%andb_prop]%andb_prop. exact Hv.
Qed.

Lemma trimStart_part s : part_of (trimStart s) s.
Proof.
  induction s as [|c s IH]; simpl.
  - exists "", "". reflexivity.
  - destruct (is_white c).
    + destruct IH as (a & b & E). exists (String c a), b. simpl. rewrite <- E.
      reflexivity.
    + exists "", "". simpl. rewrite str_app_nil_r. reflexivity.
Qed.

Lemma trimEnd_prefix s : exists b, s = trimEnd s +:+ b.
Proof.
  induction s as [|c s IH]; [exists ""; reflexivity|].
  cbn [trimEnd]. destruct (all_white (String c s)).
  - exists (String c s). reflexivity.
  - destruct IH as (b & E). exists b. simpl. rewrite <- E. reflexivity.
Qed.

Lemma trimEnd_part s : part_of (trimEnd s) s.
Proof. destruct (trimEnd_prefix s) as (b & E). exists "", b. exact E. Qed.

Lemma trim_part s : part_of (trim s) s.
Proof. eapply part_of_trans; [apply trimEnd_part | apply trimStart_part]. Qed.

Lemma cleanUrl_part m : part_of (cleanUrl m) m.
Proof.
  unfold cleanUrl. eapply part_of_trans; [|apply trim_part].
  destruct (replace_trailing_stripped (trim m)) as [(run & E & _) _].
  exists "", run. exact E.
Qed.

Lemma part_of_app_sep sep v x t :
  v <> "" ->
  str_existsb (Ascii.eqb sep) v = false ->
  part_of v (x +:+ String sep t) ->
  part_of v x \/ part_of v t.
Proof.
  intros Hne Hsep (a & b & E).
  destruct (str_app_eq_app _ _ _ _ E) as [(k & -> & Hk)|(k & -> & Hk)].
  - destruct k as [|d k]; simpl in Hk.
    + destruct v as [|c v]; [congruence|]. simpl in Hk. injection Hk as <- _.
      simpl in Hsep. rewrite Ascii.eqb_refl in Hsep. discriminate.
    + injection Hk as _ ->. right. exists k, b. reflexivity.
  - destruct (str_app_eq_app _ _ _ _ Hk) as [(k2 & -> & _)|(k2 & -> & Hk2)].
    + left. exists a, k2. reflexivity.
    + destruct k2 as [|d k2]; simpl in Hk2.
      * left. exists a, "". rewrite !str_app_nil_r. reflexivity.
      * injection Hk2 as <- _.
        rewrite str_existsb_app in Hsep. simpl in Hsep.
        rewrite Ascii.eqb_refl, orb_true_r in Hsep. discriminate.
Qed.

(** A string without the separator that occurs in a joined list occurs in
    one of its elements. *)
Lemma part_of_join sep v us :
  v <> "" ->
  str_existsb (Ascii.eqb sep) v = false ->
  part_of v (join (String sep "") us) ->
  exists u, In u us /\ part_of v u.
Proof.
  intros Hne Hsep. induction us as [|x us IH]; cbn [join].
  - intros ([|? ?] & b & E); [|discriminate].
    destruct v; [congruence | discriminate].
  - destruct us as [|y us].
    + intros Hp. exists x. split; [left; reflexivity | exact Hp].
    + intros Hp.
      change (x +:+ String sep "" +:+ join (String sep "") (y :: us))
        with (x +:+ String sep (join (String sep "") (y :: us))) in Hp.
      destruct (part_of_app_sep _ _ _ _ Hne Hsep Hp) as [Hx|Ht].
      * exists x. split; [left; reflexivity | exact Hx].
      * destruct (IH Ht) as (u & Hu & Hp'). exists u. split; [right|]; assumption.
Qed.

Lemma urlPatterns_without_white pattern :
  In pattern urlPatterns ->
  atoms_within (ignoreCase pattern) without_white (source pattern) = true.
Proof.
  intros [<-|[<-|[<-|[<-|[]]]]]; vm_compute; reflexivity.
Qed.

Lemma trimEnd_without_white m :
  str_forallb without_white m = true -> trimEnd m = m.
Proof.
  induction m as [|c m IH]; [reflexivity|].
  intros [Hc Hm]%andb_prop. cbn [trimEnd all_white].
  unfold without_white in Hc. apply negb_true_iff in Hc. rewrite Hc. simpl.
  rewrite (IH Hm). reflexivity.
Qed.

Lemma trim_without_white m :
  str_forallb without_white m = true -> trim m = m.
Proof.
  intros Hm. unfold trim.
  replace (trimStart m) with m; [apply trimEnd_without_white, Hm|].
  destruct m as [|c m]; [reflexivity|]. simpl in *.
  apply andb_prop in Hm as [Hc _].
  unfold without_white in Hc. apply negb_true_iff in Hc. rewrite Hc. reflexivity.
Qed.

(** C7. Every string that the extractor returns has more than two units
    and is not made of punctuation and slashes only; it is a match of one of
    the four patterns, trimmed, without its trailing run of [. , ; ! ?].
    A match has no white space, so that trimming leaves it as it is. *)
Theorem C7_extracted_strings_are_clean :
  forall text : string,
    Forall
      (fun u =>
         2 < String.length u
         /\ str_forallb is_punct_or_slash u = false
         /\ exists pattern m,
              In pattern urlPatterns
              /\ In m (String_match text pattern)
              /\ stripped (trim m) u
              /\ trim m = m)
      (extractUrlsFromText text)
    /\ extractUrlsFromText "see https://cdn.example.com/b.ttf, now ... /// ok."
       = ["https://cdn.example.com/b.ttf"; "//cdn.example.com/b.ttf";
          "cdn.example.com/b.ttf"].
Proof.
  intros text. split; [|vm_compute; reflexivity].
  apply List.Forall_forall. intros u Hu.
  apply extractUrlsFromText_In in Hu as (pattern & m & Hp & Hm & -> & Hk).
  unfold keeps in Hk. apply andb_prop in Hk as [Hlen Hpunct].
  apply Nat.ltb_lt in Hlen. split; [exact Hlen|]. split.
  - rewrite test_only_punct in Hpunct.
    destruct (str_forallb is_punct_or_slash (cleanUrl m)); [|reflexivity].
    replace (1 <=? String.length (cleanUrl m)) with true in Hpunct;
      [discriminate|].
    symmetry. apply Nat.leb_le. lia.
  - exists pattern, m. split; [exact Hp|]. split; [exact Hm|].
    split; [apply replace_trailing_stripped|].
    apply trim_without_white.
    apply (scan_sound _ pattern (urlPatterns_without_white pattern Hp) _ _ _ _ Hm).
Qed.

(** C8, as the program has it. When the strings of a first pass are written
    one after the other with a white-space unit between them and scanned
    again, every string of the second pass is a contiguous part of a string
    of the first pass. *)
Theorem C8_rescan_yields_parts :
  forall (text : string) (sep : ascii),
    is_white sep = true ->
    Forall
      (fun v => exists u, In u (extractUrlsFromText text) /\ part_of v u)
      (rescan sep text).
Proof.
  intros text sep Hsep. apply List.Forall_forall. intros v Hv.
  unfold rescan in Hv.
  apply extractUrlsFromText_In in Hv as (pattern & m & Hp & Hm & -> & Hk).
  destruct (scan_sound _ pattern (urlPatterns_without_white pattern Hp) _ _ _ _ Hm)
    as [Hpart Hq].
  pose proof (cleanUrl_part m) as Hclean.
  apply part_of_join with (sep := sep).
  - unfold keeps in Hk. apply andb_prop in Hk as [Hlen%Nat.ltb_lt _].
    intros E. rewrite E in Hlen. simpl in Hlen. lia.
  - pose proof (str_forallb_part _ _ _ Hclean Hq) as Hv.
    clear -Hv Hsep. induction (cleanUrl m) as [|c s IH]; simpl in *; [reflexivity|].
    apply andb_prop in Hv as [Hc Hs]. rewrite (IH Hs), orb_false_r.
    destruct (Ascii.eqb_spec sep c) as [<-|]; [|reflexivity].
    unfold without_white in Hc. rewrite Hsep in Hc. discriminate.
  - eapply part_of_trans; eassumption.
Qed.

Lemma C8_rescan_yields_parts_witness :
  Forall
    (fun v => exists u, In u (extractUrlsFromText "/a.io/bc") /\ part_of v u)
    (rescan " " "/a.io/bc").
Proof. apply C8_rescan_yields_parts. reflexivity. Defined.

(** C8 as the specification states it fails: the first pass over
    [/a.io/bc] gives [a.io/bc] and
    [/a.io/bc]; the second pass, over these two strings separated by a space
    or by a line feed, gives [/bc] as well. Separated by a comma, as an
    array prints, they give two strings that are both new. *)
Lemma C8_rescan_not_a_subset_counterexample :
  extractUrlsFromText "/a.io/bc" = ["a.io/bc"; "/a.io/bc"]
  /\ rescan " " "/a.io/bc" = ["a.io/bc"; "/bc"; "/a.io/bc"]
  /\ rescan "010" "/a.io/bc" = ["a.io/bc"; "/bc"; "/a.io/bc"]
  /\ rescan "," "/a.io/bc" = ["a.io/bc,/a.io/bc"; "/bc,/a.io/bc"]
  /\ In "/bc" (rescan " " "/a.io/bc")
  /\ ~ In "/bc" (extractUrlsFromText "/a.io/bc")
  /\ ~ incl (rescan " " "/a.io/bc") (extractUrlsFromText "/a.io/bc").
Proof.
  assert (Hnot : ~ In "/bc" (extractUrlsFromText "/a.io/bc")).
  { vm_compute. intros [E|[E|[]]]; discriminate. }
  repeat apply conj; try (vm_compute; reflexivity).
  - vm_compute. right. left. reflexivity.
  - exact Hnot.
  - intros Hincl. apply Hnot, (Hincl "/bc"). vm_compute. right. left. reflexivity.
Qed.

(** ** The Document Scanner *)

Lemma insert_sorted_perm x l : Permutation (insert_sorted x l) (x :: l).
Proof.
  induction l as [|y l IH]; simpl; [reflexivity|].
  destruct (String.leb x y); [reflexivity|].
  rewrite IH. apply perm_swap.
Qed.

Lemma sort_perm l : Permutation (sort l) l.
Proof.
  induction l as [|x l IH]; simpl; [reflexivity|].
  rewrite insert_sorted_perm, IH. reflexivity.
Qed.

Lemma insert_sorted_Sorted x l : Sorted str_le l -> Sorted str_le (insert_sorted x l).
Proof.
  induction 1 as [|y l Hl IH Hhd]; simpl; [repeat constructor|].
  destruct (String.leb x y) eqn:Hxy.
  - constructor; [constructor; assumption|]. constructor. exact Hxy.
  - constructor; [exact IH|].
    assert (Hyx : str_le y x).
    { destruct (String.leb_total x y) as [E|E]; [congruence | exact E]. }
    destruct Hhd as [|z l Hyz]; simpl.
    + constructor. exact Hyx.
    + destruct (String.leb x z); constructor; assumption.
Qed.

Lemma sort_Sorted l : Sorted str_le (sort l).
Proof.
  induction l as [|x l IH]; simpl; [constructor|].
  apply insert_sorted_Sorted, IH.
Qed.

Section ScannerFacts.
Context `{Platform}.

Lemma absolutize_NoDup base urls : List.NoDup (absolutize base urls).
Proof.
  unfold absolutize. generalize (@nil string) (List.NoDup_nil string).
  induction urls as [|u urls IH]; intros acc Hacc; simpl; [exact Hacc|].
  apply IH. destruct (new_URL u (Some base)); apply Set_add_NoDup, Hacc.
Qed.

(** What the scanner returns is in ascending order and has no
    duplicate. *)
Lemma scanDocument_sorted document base :
  Sorted str_le (scanDocument document base)
  /\ List.NoDup (scanDocument document base).
Proof.
  unfold scanDocument. split; [apply sort_Sorted|].
  eapply Permutation_NoDup; [symmetry; apply sort_perm|].
  apply absolutize_NoDup.
Qed.

End ScannerFacts.

(** *** What a page with the three items of the scenario yields *)

Section ScanPastWhite.
Variable re : RegExp.
Hypothesis re_atoms :
  atoms_within (ignoreCase re) without_white (source re) = true.

(** The units still to pass belong to the last match, and a match has no
    white space; so the scan is at rest when it comes to white space, and
    what follows is scanned as if the text began there. *)
Lemma scan_past_white a :
  forall bol skip w rest m0,
    is_white w = true ->
    str_forallb without_white (str_take skip (a +:+ String w rest)) = true ->
    In m0 (scan re false 0 rest) ->
    In m0 (scan re bol skip (a +:+ String w rest)).
Proof.
  induction a as [|c a IH]; intros bol skip w rest m0 Hw Hskip Hm0.
  - destruct skip as [|k].
    + cbn [String.append scan].
      destruct (match_here re bol (String w rest)) as [m|] eqn:E; [|exact Hm0].
      right. apply (match_here_sound without_white re re_atoms) in E
        as (tail & E & Hq).
      destruct m as [|x m]; [exact Hm0|].
      simpl in E. injection E as <- _. simpl in Hq.
      unfold without_white in Hq at 1. rewrite Hw in Hq. discriminate.
    + simpl in Hskip. unfold without_white in Hskip at 1.
      rewrite Hw in Hskip. discriminate.
  - destruct skip as [|k].
    + change (scan re bol 0 (String c a +:+ String w rest))
        with (match match_here re bol (String c (a +:+ String w rest)) with
              | Some m =>
                  m :: scan re false (Nat.pred (String.length m))
                            (a +:+ String w rest)
              | None => scan re false 0 (a +:+ String w rest)
              end).
      destruct (match_here re bol (String c (a +:+ String w rest)))
        as [m|] eqn:E.
      * right. apply IH; [exact Hw| |exact Hm0].
        apply (match_here_sound without_white re re_atoms) in E
          as (tail & E & Hq).
        destruct m as [|x m]; [reflexivity|].
        simpl in E. injection E as _ E. simpl. rewrite E, str_take_app.
        simpl in Hq. apply andb_prop in Hq as [_ Hq]. exact Hq.
      * apply IH; [exact Hw|reflexivity|exact Hm0].
    + change (scan re bol (S k) (String c a +:+ String w rest))
        with (scan re false k (a +:+ String w rest)).
      apply IH; [exact Hw| |exact Hm0].
      simpl in Hskip. apply andb_prop in Hskip as [_ Hskip]. exact Hskip.
Qed.
End ScanPastWhite.

(** A URL between two spaces is found by the first pattern, wherever it
    stands in the text. *)
Lemma extract_b_ttf pre post :
  In "https://cdn.example.com/b.ttf"
     (extractUrlsFromText
        (pre +:+ "see https://cdn.example.com/b.ttf now" +:+ post)).
Proof.
  apply extractUrlsFromText_In.
  exists pattern_absolute, "https://cdn.example.com/b.ttf".
  split; [left; reflexivity|]. split; [|split; vm_compute; reflexivity].
  unfold String_match.
  change (pre +:+ "see https://cdn.example.com/b.ttf now" +:+ post)
    with (pre +:+ ("see" +:+ String " " ("https://cdn.example.com/b.ttf now" +:+ post))).
  rewrite <- str_app_assoc.
  apply scan_past_white; [vm_compute; reflexivity|reflexivity|reflexivity|].
  left. reflexivity.
Qed.

Lemma extractUrlsFromJson_mono :
  forall j urls x, In x urls -> In x (snd (extractUrlsFromJson j urls)).
Proof.
  fix IH 1. intros j. destruct j as [|b|n|s|items|members]; intros urls x Hx;
    try exact Hx.
  - simpl. apply Set_add_all_In. right. exact Hx.
  - simpl. revert urls Hx. generalize items. fix IHl 1.
    intros [|j l] urls Hx; [exact Hx|].
    pose proof (IH j urls x Hx) as Hj.
    destruct (extractUrlsFromJson j urls) as [[[]|e] urls']; simpl in Hj.
    + apply IHl, Hj.
    + exact Hj.
  - simpl. destruct (existsb _ members); [exact Hx|].
    revert urls Hx. generalize members. fix IHl 1.
    intros [|[k j] l] urls Hx; [exact Hx|].
    pose proof (IH j urls x Hx) as Hj.
    destruct (extractUrlsFromJson j urls) as [[[]|e] urls']; simpl in Hj.
    + apply IHl, Hj.
    + exact Hj.
Qed.

Lemma fold_left_grows {A} (step : list string -> A -> list string) (l : list A) :
  (forall acc a x, In x acc -> In x (step acc a)) ->
  forall acc x, In x acc -> In x (fold_left step l acc).
Proof.
  intros Hstep. induction l as [|a l IH]; intros acc x Hx; simpl; [exact Hx|].
  apply IH, Hstep, Hx.
Qed.

Lemma fold_left_reaches {A} (step : list string -> A -> list string) (l : list A) a0 y :
  (forall acc a x, In x acc -> In x (step acc a)) ->
  (forall acc, In y (step acc a0)) ->
  In a0 l ->
  forall acc, In y (fold_left step l acc).
Proof.
  intros Hstep Hy. induction l as [|a l IH]; intros [] acc; simpl.
  - subst a. apply fold_left_grows; [exact Hstep | apply Hy].
  - apply IH. assumption.
Qed.

Section ScenarioFacts.
Context `{Platform}.

Lemma scanAttributes_grows document urls x :
  In x urls -> In x (scanAttributes document urls).
Proof.
  unfold scanAttributes. apply fold_left_grows. clear. intros acc element x Hx.
  apply fold_left_grows; [|exact Hx]. clear. intros acc attr x Hx.
  destruct (_ && _); [apply Set_add_all_In; right|]; exact Hx.
Qed.

Lemma scanAttributes_finds document urls element attr y :
  In element (allElements document) ->
  In attr (attributesOf element) ->
  snd attr <> "" -> trim (snd attr) <> "" ->
  In y (extractUrlsFromText (trim (snd attr))) ->
  In y (scanAttributes document urls).
Proof.
  intros Helement Hattr Hvalue Htrim Hy. unfold scanAttributes.
  eapply fold_left_reaches; [| |exact Helement].
  - clear. intros acc e x Hx. apply fold_left_grows; [|exact Hx].
    clear. intros acc attr x Hx.
    destruct (_ && _); [apply Set_add_all_In; right|]; exact Hx.
  - intros acc. eapply fold_left_reaches; [| |exact Hattr].
    + clear. intros acc' a x Hx.
      destruct (_ && _); [apply Set_add_all_In; right|]; exact Hx.
    + intros acc'. apply String.eqb_neq in Hvalue, Htrim.
      rewrite Hvalue, Htrim. simpl. apply Set_add_all_In. left. exact Hy.
Qed.

Lemma scanText_grows document urls x : In x urls -> In x (scanText document urls).
Proof. intros Hx. apply Set_add_all_In. right. exact Hx. Qed.

Lemma scanScripts_grows document urls x :
  In x urls -> In x (scanScripts document urls).
Proof.
  unfold scanScripts. apply fold_left_grows. clear. intros acc script x Hx.
  destruct (JSON_parse (textContent script)); [|exact Hx].
  apply extractUrlsFromJson_mono, Hx.
Qed.

Lemma scanScripts_finds document urls script key s y :
  In script (allElements document) ->
  isJsonLd script = true ->
  JSON_parse (textContent script) = Ret (JObject [(key, JString s)]) ->
  key <> "hasOwnProperty" ->
  In y (extractUrlsFromText s) ->
  In y (scanScripts document urls).
Proof.
  intros Hscript Hld Hparse Hkey Hy. unfold scanScripts.
  eapply fold_left_reaches.
  - clear. intros acc sc x Hx.
    destruct (JSON_parse (textContent sc)); [|exact Hx].
    apply extractUrlsFromJson_mono, Hx.
  - intros acc. rewrite Hparse. simpl.
    apply String.eqb_neq in Hkey. rewrite Hkey. simpl.
    apply Set_add_all_In. left. exact Hy.
  - apply filter_In. split; assumption.
Qed.

Lemma absolutize_resolves base urls u absoluteUrl :
  In u urls ->
  new_URL u (Some base) = Ret absoluteUrl ->
  In (href absoluteUrl) (absolutize base urls).
Proof.
  intros Hu Hnew. unfold absolutize.
  eapply fold_left_reaches; [| |exact Hu].
  - clear. intros acc v x Hx.
    destruct (new_URL v (Some base)); apply Set_add_In; right; exact Hx.
  - intros acc. rewrite Hnew. apply Set_add_In. left. reflexivity.
Qed.

Lemma scanDocument_In document base x :
  In x (scanDocument document base)
  <-> In x (absolutize base
              (scanScripts document (scanText document (scanAttributes document [])))).
Proof.
  unfold scanDocument. split; apply Permutation_in;
    [apply sort_perm | symmetry; apply sort_perm].
Qed.

End ScenarioFacts.

(** C5, as the program has it. For a page that contains the image, the
    sentence and the JSON-LD block of the scenario, on a platform that
    resolves against [https://page-origin/], [extractUrls] returns a list
    in ascending order and without duplicate that contains the three URLs
    of the specification, and more: [https://page-origin/a.woff] is always
    there, since the bare host pattern finds [a.woff] in the [src]
    attribute. For the page that consists of the three items and nothing
    else the list has seven entries: the other three come from the bare
    host pattern in the text and in the JSON-LD block, and from the
    root-relative pattern in the [type] attribute of the script. *)
Theorem C5_scanner_scenario :
  forall `{Platform} (u html : string) (response : Response) (w : World)
         (img script bodyNode : Node) (pre post : string) (a b c d : URL),
    network GET u = Ret response ->
    ok response = true ->
    text response = Ret html ->
    In img (allElements (JSDOM html)) ->
    In ("src", "/fonts/a.woff2") (attributesOf img) ->
    body (JSDOM html) = Some bodyNode ->
    textContent bodyNode
    = pre +:+ "see https://cdn.example.com/b.ttf now" +:+ post ->
    In script (allElements (JSDOM html)) ->
    isJsonLd script = true ->
    JSON_parse (textContent script)
    = Ret (JObject [("font", JString "https://cdn.example.com/c.otf")]) ->
    new_URL "/fonts/a.woff2" (Some (url response)) = Ret a ->
    href a = "https://page-origin/fonts/a.woff2" ->
    new_URL "https://cdn.example.com/b.ttf" (Some (url response)) = Ret b ->
    href b = "https://cdn.example.com/b.ttf" ->
    new_URL "https://cdn.example.com/c.otf" (Some (url response)) = Ret c ->
    href c = "https://cdn.example.com/c.otf" ->
    new_URL "a.woff" (Some (url response)) = Ret d ->
    href d = "https://page-origin/a.woff" ->
    (exists urls,
        extractUrls u w
        = (Returns urls, mkWorld (requests w ++ [(GET, u)]) (files w))
        /\ incl ["https://cdn.example.com/b.ttf"; "https://cdn.example.com/c.otf";
                 "https://page-origin/fonts/a.woff2"] urls
        /\ In "https://page-origin/a.woff" urls
        /\ Sorted str_le urls
        /\ List.NoDup urls)
    /\ @extractUrls Reference.platform Reference.page_url (mkWorld [] ∅)
       = (Returns
            ["https://cdn.example.com/b.ttf";
             "https://cdn.example.com/c.otf";
             "https://page-origin/a.woff";
             "https://page-origin/cdn.example.com/b.ttf";
             "https://page-origin/cdn.example.com/c.otf";
             "https://page-origin/fonts/a.woff2";
             "https://page-origin/ld+json"],
          mkWorld [(GET, Reference.page_url)] ∅).
Proof.
  intros P u html response w img script bodyNode pre post a b c d
    Hnet Hok Htext Himg Hsrc Hbody Hsentence Hscript Hld Hparse
    Ha Hhrefa Hb Hhrefb Hc Hhrefc Hd Hhrefd.
  split; [|vm_compute; reflexivity].
  exists (scanDocument (JSDOM html) (url response)).
  split.
  { unfold extractUrls, bind, fetch, lift, ret. rewrite Hnet, Hok. simpl.
    rewrite Htext. reflexivity. }
  assert (Hattr : forall y,
             In y (extractUrlsFromText "/fonts/a.woff2") ->
             In y (scanScripts (JSDOM html)
                     (scanText (JSDOM html) (scanAttributes (JSDOM html) [])))).
  { intros y Hy. apply scanScripts_grows, scanText_grows.
    apply (scanAttributes_finds _ _ img ("src", "/fonts/a.woff2"));
      [exact Himg | exact Hsrc | discriminate | vm_compute; discriminate
      | exact Hy]. }
  split; [|split; [|apply scanDocument_sorted]].
  - intros x [<-|[<-|[<-|[]]]]; apply scanDocument_In.
    + rewrite <- Hhrefb. eapply absolutize_resolves; [|exact Hb].
      apply scanScripts_grows. unfold scanText. rewrite Hbody, Hsentence.
      apply Set_add_all_In. left. apply extract_b_ttf.
    + rewrite <- Hhrefc. eapply absolutize_resolves; [|exact Hc].
      apply (scanScripts_finds _ _ script "font" "https://cdn.example.com/c.otf");
        [exact Hscript | exact Hld | exact Hparse | discriminate|].
      vm_compute. left. reflexivity.
    + rewrite <- Hhrefa. eapply absolutize_resolves; [|exact Ha].
      apply Hattr. vm_compute. right. left. reflexivity.
  - apply scanDocument_In. rewrite <- Hhrefd.
    eapply absolutize_resolves; [|exact Hd].
    apply Hattr. vm_compute. left. reflexivity.
Qed.

Lemma C5_scanner_scenario_witness :
  exists urls,
    fst (@extractUrls Reference.platform Reference.page_url (mkWorld [] ∅))
    = Returns urls
    /\ incl ["https://cdn.example.com/b.ttf"; "https://cdn.example.com/c.otf";
             "https://page-origin/fonts/a.woff2"] urls
    /\ In "https://page-origin/a.woff" urls.
Proof.
  destruct (@C5_scanner_scenario Reference.platform
              Reference.page_url Reference.page_html
              (mkResponse 200 Reference.page_url (Ret Reference.page_html) (Ret []))
              (mkWorld [] ∅)
              (Element "img" [("src", "/fonts/a.woff2")] [])
              (Element "script" [("type", "application/ld+json")]
                       [TextNode Reference.jsonld_text])
              (Element "body" []
                 [Element "img" [("src", "/fonts/a.woff2")] [];
                  TextNode "see https://cdn.example.com/b.ttf now"])
              "" ""
              (mkURL "https:" "page-origin" "/fonts/a.woff2" "" ""
                     "https://page-origin/fonts/a.woff2")
              (mkURL "https:" "cdn.example.com" "/b.ttf" "" ""
                     "https://cdn.example.com/b.ttf")
              (mkURL "https:" "cdn.example.com" "/c.otf" "" ""
                     "https://cdn.example.com/c.otf")
              (mkURL "https:" "page-origin" "/a.woff" "" ""
                     "https://page-origin/a.woff"))
    as [(urls & Hrun & Hthree & Hmore & _) _];
    try (vm_compute; reflexivity).
  - vm_compute. auto 10.
  - vm_compute. auto.
  - vm_compute. auto 10.
  - exists urls. rewrite Hrun. split; [reflexivity|]. split; assumption.
Defined.

(** C5 as the specification states it fails: the scanner returns seven
    strings for the page of
    the scenario, not three; [https://page-origin/a.woff] is one of the
    four that the specification leaves out. *)
Lemma C5_scanner_returns_more_counterexample :
  fst (@extractUrls Reference.platform Reference.page_url (mkWorld [] ∅))
  <> Returns ["https://cdn.example.com/b.ttf"; "https://cdn.example.com/c.otf";
              "https://page-origin/fonts/a.woff2"]
  /\ In "https://page-origin/a.woff"
        (@scanDocument Reference.platform Reference.page_document Reference.page_url)
  /\ @JSDOM Reference.platform Reference.page_html = Reference.page_document
  /\ @extractUrlsFromText "/fonts/a.woff2" = ["a.woff"; "/fonts/a.woff2"].
Proof.
  split; [|split; [|split]].
  - vm_compute. discriminate.
  - vm_compute. auto.
  - reflexivity.
  - vm_compute. reflexivity.
Qed.

(** * The rest of the program *)

(** ** The extractor: where its strings come from *)

Lemma urlPatterns_without_delimiter pattern :
  In pattern urlPatterns ->
  atoms_within (ignoreCase pattern) without_delimiter (source pattern) = true.
Proof.
  intros [<-|[<-|[<-|[<-|[]]]]]; vm_compute; reflexivity.
Qed.

Lemma part_of_length v u : part_of v u -> String.length v <= String.length u.
Proof. intros (a & b & ->). rewrite !str_length_app. lia. Qed.

Lemma str_existsb_part q v u :
  part_of v u -> str_existsb q v = true -> str_existsb q u = true.
Proof.
  intros (a & b & ->) Hv. rewrite !str_existsb_app, Hv.
  rewrite orb_true_r. reflexivity.
Qed.

Section MustTake.
Variable ic : bool.
Variable q : ascii -> bool.

Lemma unit_taken (p : ascii -> bool) x :
  forallb (fun y => implb (p y) (q y)) all_units = true ->
  p x = true -> q x = true.
Proof.
  intros Hall Hp. rewrite forallb_forall in Hall.
  specialize (Hall x (all_units_complete x)). rewrite Hp in Hall. exact Hall.
Qed.

Lemma must_take_sound r :
  must_take ic q r = true ->
  forall bol s m rest, In (m, rest) (matches ic r bol s) -> str_existsb q m = true.
Proof.
  induction r as [| c | neg items | r1 IH1 r2 IH2 | r' IH min max | |];
    cbn [must_take]; try discriminate.
  - intros Hall bol [|x s] m rest; cbn [matches]; [intros []|].
    destruct (Ascii.eqb _ _) eqn:E; [|intros []].
    intros [[= <- <-]|[]]. simpl.
    rewrite (unit_taken (fun y => Ascii.eqb (canon ic c) (canon ic y)) x Hall E).
    reflexivity.
  - intros Hall bol [|x s] m rest; cbn [matches]; [intros []|].
    destruct (cls_accepts ic neg items x) eqn:E; [|intros []].
    intros [[= <- <-]|[]]. simpl.
    rewrite (unit_taken (cls_accepts ic neg items) x Hall E). reflexivity.
  - intros Hor bol s m rest. cbn [matches].
    intros ([m1 s1] & H1 & ([m2 s2] & [= <- <-] & H2)%in_map_iff)%in_flat_map.
    rewrite str_existsb_app. apply orb_prop in Hor as [Hr|Hr].
    + rewrite (IH1 Hr _ _ _ _ H1). reflexivity.
    + rewrite (IH2 Hr _ _ _ _ H2). apply orb_true_r.
  - intros [Hmin%Nat.ltb_lt Hr]%andb_prop bol s m rest. cbn [matches].
    specialize (IH Hr).
    destruct (match max with Some k => k | None => min + String.length s end)
      as [|n]; cbn [rep_go].
    + destruct (Nat.eqb_spec min 0); [lia | intros []].
    + rewrite in_app_iff. intros [Hin|Hin].
      * apply in_flat_map in Hin as ([m1 s1] & H1 & Hin).
        destruct ((min =? 0) && String.eqb m1 ""); [destruct Hin|].
        apply in_map_iff in Hin as ([m2 s2] & [= <- <-] & _).
        rewrite str_existsb_app, (IH _ _ _ _ H1). reflexivity.
      * destruct (Nat.eqb_spec min 0); [lia | destruct Hin].
Qed.

End MustTake.

Lemma scan_must_take q re s :
  must_take (ignoreCase re) q (source re) = true ->
  forall bol skip m, In m (scan re bol skip s) -> str_existsb q m = true.
Proof.
  intros Hre.
  assert (Hhere : forall bol t m, match_here re bol t = Some m ->
                                  str_existsb q m = true).
  { intros bol t m. unfold match_here.
    destruct (matches (ignoreCase re) (source re) bol t) as [|[m' rest] l] eqn:E;
      [discriminate|].
    intros [= <-].
    apply (must_take_sound _ q _ Hre bol t m' rest). rewrite E. left. reflexivity. }
  induction s as [|c s IH]; intros bol skip m; destruct skip as [|k]; simpl.
  - destruct (match_here re bol "") as [m'|] eqn:E; [|intros []].
    intros [<-|[]]. eapply Hhere, E.
  - intros [].
  - destruct (match_here re bol (String c s)) as [m'|] eqn:E.
    + intros [<-|Hin]; [eapply Hhere, E | eapply IH, Hin].
    + apply IH.
  - apply IH.
Qed.

Lemma urlPatterns_slash_or_dot pattern :
  In pattern urlPatterns ->
  must_take (ignoreCase pattern) slash_or_dot (source pattern) = true.
Proof.
  intros [<-|[<-|[<-|[<-|[]]]]]; vm_compute; reflexivity.
Qed.

(** X1. Every string that the extractor returns occurs in the text as a
    contiguous part, so that it is not longer than the text; it contains
    no white space, quote mark, angle bracket, brace, square bracket, bar,
    backslash, caret or backtick; and no string is returned twice. *)
Theorem extracted_strings_come_from_the_text :
  forall text : string,
    Forall
      (fun u =>
         part_of u text
         /\ String.length u <= String.length text
         /\ str_forallb without_delimiter u = true)
      (extractUrlsFromText text)
    /\ List.NoDup (extractUrlsFromText text).
Proof.
  intros text. split; [|apply extractUrlsFromText_NoDup].
  apply List.Forall_forall. intros u Hu.
  apply extractUrlsFromText_In in Hu as (pattern & m & Hp & Hm & -> & _).
  destruct (scan_sound _ pattern (urlPatterns_without_delimiter pattern Hp) _ _ _ _ Hm)
    as [Hpart Hq].
  assert (Hu : part_of (cleanUrl m) text).
  { eapply part_of_trans; [apply cleanUrl_part | exact Hpart]. }
  split; [exact Hu|]. split; [apply part_of_length, Hu|].
  eapply str_forallb_part; [apply cleanUrl_part | exact Hq].
Qed.

(** X2. A text of at most two units, or a text with no slash and no dot,
    gives no string at all: each of the four patterns needs a slash or a
    dot, and a string of fewer than three units is not kept. *)
Theorem nothing_found_without_slash_or_dot :
  forall text : string,
    String.length text <= 2 \/ str_existsb slash_or_dot text = false ->
    extractUrlsFromText text = [].
Proof.
  intros text Htext.
  destruct (extractUrlsFromText text) as [|u l] eqn:E; [reflexivity|].
  assert (Hu : In u (extractUrlsFromText text)) by (rewrite E; left; reflexivity).
  apply extractUrlsFromText_In in Hu as (pattern & m & Hp & Hm & -> & Hk).
  destruct (scan_sound _ pattern (urlPatterns_without_white pattern Hp) _ _ _ _ Hm)
    as [Hpart _].
  destruct Htext as [Hlen|Hnone].
  - unfold keeps in Hk. apply andb_prop in Hk as [Hk%Nat.ltb_lt _].
    pose proof (part_of_length _ _ (cleanUrl_part m)).
    pose proof (part_of_length _ _ Hpart). lia.
  - pose proof (scan_must_take slash_or_dot pattern text
                  (urlPatterns_slash_or_dot pattern Hp) _ _ _ Hm) as Hq.
    rewrite (str_existsb_part _ _ _ Hpart Hq) in Hnone. discriminate.
Qed.

Lemma nothing_found_without_slash_or_dot_witness :
  extractUrlsFromText "woff2 fonts, see http:cdn" = [].
Proof.
  apply nothing_found_without_slash_or_dot. right. vm_compute. reflexivity.
Defined.

(** ** The walk over a JSON value *)

Lemma scanned_app l1 l2 urls :
  scanned (l1 ++ l2) urls = scanned l2 (scanned l1 urls).
Proof. apply fold_left_app. Qed.

Lemma scanned_In texts urls x :
  In x (scanned texts urls)
  <-> In x urls \/ exists s, In s texts /\ In x (extractUrlsFromText s).
Proof.
  revert urls. induction texts as [|s texts IH]; intros urls; simpl.
  - split; [auto | intros [?|(? & [] & _)]; assumption].
  - unfold scanned in *. simpl. rewrite IH, Set_add_all_In. split.
    + intros [[Hs|Hu]|(s' & Hs' & Hx)]; eauto.
    + intros [Hu|(s' & [<-|Hs'] & Hx)]; eauto.
Qed.

Lemma scanned_NoDup texts urls :
  List.NoDup urls -> List.NoDup (scanned texts urls).
Proof.
  revert urls. induction texts as [|s texts IH]; intros urls Hu; [exact Hu|].
  apply IH, Set_add_all_NoDup, Hu.
Qed.

(** The walk scans the strings of the value in order, and stops at the
    first object that has a member named [hasOwnProperty]. *)
Lemma extractUrlsFromJson_walk :
  forall j urls,
    exists pre post,
      leaves j = pre ++ post
      /\ snd (extractUrlsFromJson j urls) = scanned pre urls
      /\ if shadowed j
         then exists e, fst (extractUrlsFromJson j urls) = Throw e
         else fst (extractUrlsFromJson j urls) = Ret tt /\ post = [].
Proof.
  fix IH 1. intros j. destruct j as [|b|n|s|items|members]; intros urls;
    try (exists [], []; repeat split; reflexivity).
  - exists [s], []. repeat split; reflexivity.
  - simpl. revert urls. generalize items. fix IHl 1.
    intros [|j l] urls; [exists [], []; repeat split; reflexivity|].
    destruct (IH j urls) as (pre & post & Hl & Hs & Hf).
    destruct (shadowed j) eqn:Hsh.
    + destruct Hf as (e & Hf).
      destruct (extractUrlsFromJson j urls) as [[[]|e'] urls']; [discriminate|].
      simpl in Hs. subst urls'. eexists pre, (post ++ _).
      rewrite Hl, <- app_assoc. split; [reflexivity|].
      split; [reflexivity|]. simpl. eauto.
    + destruct Hf as [Hf ->]. rewrite app_nil_r in Hl.
      destruct (extractUrlsFromJson j urls) as [[[]|e'] urls']; [|discriminate].
      simpl in Hs. subst urls'.
      destruct (IHl l (scanned pre urls)) as (pre' & post' & Hl' & Hs' & Hf').
      exists (pre ++ pre'), post'. rewrite Hl, Hl', <- app_assoc, scanned_app.
      split; [reflexivity|]. split; [exact Hs'|]. simpl. exact Hf'.
  - simpl. destruct (existsb _ members) eqn:Hown.
    + eexists [], _. split; [reflexivity|]. split; [reflexivity|]. simpl. eauto.
    + simpl. clear Hown. revert urls. generalize members. fix IHl 1.
      intros [|[k j] l] urls; [exists [], []; repeat split; reflexivity|].
      destruct (IH j urls) as (pre & post & Hl & Hs & Hf).
      destruct (shadowed j) eqn:Hsh.
      * destruct Hf as (e & Hf).
        destruct (extractUrlsFromJson j urls) as [[[]|e'] urls']; [discriminate|].
        simpl in Hs. subst urls'. eexists pre, (post ++ _).
        rewrite Hl, <- app_assoc. split; [reflexivity|].
        split; [reflexivity|]. simpl. eauto.
      * destruct Hf as [Hf ->]. rewrite app_nil_r in Hl.
        destruct (extractUrlsFromJson j urls) as [[[]|e'] urls']; [|discriminate].
        simpl in Hs. subst urls'.
        destruct (IHl l (scanned pre urls)) as (pre' & post' & Hl' & Hs' & Hf').
        exists (pre ++ pre'), post'. rewrite Hl, Hl', <- app_assoc, scanned_app.
        split; [reflexivity|]. split; [exact Hs'|]. simpl. exact Hf'.
Qed.

(** X3. The walk over a JSON value returns normally exactly when no object
    of the value has a member named [hasOwnProperty]; it has then scanned
    every string of the value, in the order of the walk, and nothing else:
    member names, numbers, booleans and [null] add nothing. *)
Theorem json_walk_scans_every_string :
  forall (j : json) (urls : list string),
    (fst (extractUrlsFromJson j urls) = Ret tt <-> shadowed j = false)
    /\ (shadowed j = false ->
        extractUrlsFromJson j urls = (Ret tt, scanned (leaves j) urls)).
Proof.
  intros j urls.
  destruct (extractUrlsFromJson_walk j urls) as (pre & post & Hl & Hs & Hf).
  destruct (shadowed j).
  - split; [|discriminate]. destruct Hf as (e & Hf). rewrite Hf.
    split; discriminate.
  - destruct Hf as [Hf ->]. rewrite app_nil_r in Hl. subst pre.
    split; [split; auto|]. intros _.
    destruct (extractUrlsFromJson j urls) as [r urls']. simpl in *.
    subst. reflexivity.
Qed.

(** X4. Whether the walk over a JSON value returns or throws, the set
    afterwards is the set before with an initial part of the strings of the
    value scanned into it: nothing that was in the set is lost, every
    string added was extracted from a string of the value, and the set
    stays free of duplicates. *)
Theorem json_walk_keeps_what_it_found :
  forall (j : json) (urls : list string),
    let after := snd (extractUrlsFromJson j urls) in
    (exists pre post, leaves j = pre ++ post /\ after = scanned pre urls)
    /\ (forall x, In x urls -> In x after)
    /\ (forall x, In x after ->
                  In x urls
                  \/ exists s, In s (leaves j) /\ In x (extractUrlsFromText s))
    /\ (List.NoDup urls -> List.NoDup after).
Proof.
  intros j urls after.
  destruct (extractUrlsFromJson_walk j urls) as (pre & post & Hl & Hs & _).
  fold after in Hs. split; [eauto|]. rewrite Hs. split; [|split].
  - intros x Hx. apply scanned_In. left. exact Hx.
  - intros x [Hx|(s & Hin & Hx)]%scanned_In; [left; exact Hx|].
    right. exists s. split; [|exact Hx]. rewrite Hl. apply in_or_app. left.
    exact Hin.
  - apply scanned_NoDup.
Qed.

(** ** The scanner: what it gathers *)

Lemma fold_left_In {A} (step : list string -> A -> list string)
    (P : A -> string -> Prop) (l : list A) :
  (forall acc a x, In x (step acc a) <-> In x acc \/ P a x) ->
  forall acc x,
    In x (fold_left step l acc) <-> In x acc \/ exists a, In a l /\ P a x.
Proof.
  intros Hstep. induction l as [|a l IH]; intros acc x; simpl.
  - split; [auto | intros [?|(? & [] & _)]; assumption].
  - rewrite IH, Hstep. split.
    + intros [[Hx|Hx]|(a' & Ha' & Hx)]; eauto.
    + intros [Hx|(a' & [<-|Ha'] & Hx)]; eauto.
Qed.

Lemma fold_left_from {A} (step : list string -> A -> list string)
    (P : A -> string -> Prop) (l : list A) :
  (forall acc a x, In x (step acc a) -> In x acc \/ P a x) ->
  forall acc x,
    In x (fold_left step l acc) -> In x acc \/ exists a, In a l /\ P a x.
Proof.
  intros Hstep. induction l as [|a l IH]; intros acc x; simpl; [auto|].
  intros [[Hx|Hx]%Hstep|(a' & Ha' & Hx)]%IH; eauto.
Qed.

Lemma trim_empty : trim "" = "".
Proof. reflexivity. Qed.

Lemma trim_of_empty value :
  negb (String.eqb value "") && negb (String.eqb (trim value) "") = false ->
  trim value = "".
Proof.
  destruct (String.eqb_spec value "") as [->|_]; [reflexivity|].
  destruct (String.eqb_spec (trim value) "") as [E|_]; [auto | discriminate].
Qed.

Section ScannerGathers.
Context `{Platform}.

Lemma scanAttributes_In document urls x :
  In x (scanAttributes document urls)
  <-> In x urls
      \/ exists text, attribute_text document text
                      /\ In x (extractUrlsFromText text).
Proof.
  unfold scanAttributes.
  rewrite (fold_left_In _
             (fun element x =>
                exists attr, In attr (attributesOf element)
                             /\ In x (extractUrlsFromText (trim (snd attr))))).
  - unfold attribute_text. split.
    + intros [Hx|(element & He & attr & Ha & Hx)]; [left; exact Hx|].
      right. exists (trim (snd attr)). split; [|exact Hx]. eauto.
    + intros [Hx|(text & (element & attr & He & Ha & ->) & Hx)];
        [left; exact Hx|].
      right. exists element. split; [exact He|]. exists attr. auto.
  - clear. intros acc element x.
    apply (fold_left_In _
             (fun attr x => In x (extractUrlsFromText (trim (snd attr))))).
    clear. intros acc attr x. simpl.
    destruct (_ && _) eqn:E.
    + rewrite Set_add_all_In. tauto.
    + rewrite (trim_of_empty _ E). simpl. tauto.
Qed.

Lemma scanText_In document urls x :
  In x (scanText document urls)
  <-> In x urls
      \/ exists text, body_text document text /\ In x (extractUrlsFromText text).
Proof.
  unfold scanText, body_text. rewrite Set_add_all_In.
  destruct (body document) as [b|].
  - split.
    + intros [Hx|Hx]; [right; eauto | left; exact Hx].
    + intros [Hx|(text & (b' & [= <-] & ->) & Hx)]; auto.
  - split.
    + intros [[]|Hx]. left. exact Hx.
    + intros [Hx|(text & (b' & [=] & _) & _)]. right. exact Hx.
Qed.

Lemma scanScripts_from document urls x :
  In x (scanScripts document urls) ->
  In x urls
  \/ exists j text, script_text document j text
                    /\ In x (extractUrlsFromText text).
Proof.
  unfold scanScripts. intros Hx.
  apply (fold_left_from _
           (fun script x =>
              exists j text,
                JSON_parse (textContent script) = Ret j
                /\ In text (leaves j)
                /\ In x (extractUrlsFromText text))) in Hx.
  - destruct Hx as [Hx|(script & [Hs Hld]%filter_In & j & text & Hp & Hl & Hx)];
      [left; exact Hx|].
    right. exists j, text. split; [|exact Hx]. exists script. auto.
  - clear. intros acc script x.
    destruct (JSON_parse (textContent script)) as [j|e]; [|auto].
    destruct (extractUrlsFromJson_walk j acc) as (pre & post & Hl & -> & _).
    intros [Hx|(s & Hs & Hx)]%scanned_In; [left; exact Hx|].
    right. exists j, s. split; [reflexivity|]. split; [|exact Hx].
    rewrite Hl. apply in_or_app. left. exact Hs.
Qed.

Lemma scanScripts_reaches document urls j text x :
  script_text document j text ->
  shadowed j = false ->
  In x (extractUrlsFromText text) ->
  In x (scanScripts document urls).
Proof.
  intros (script & Hs & Hld & Hp & Hl) Hsh Hx. unfold scanScripts.
  eapply fold_left_reaches.
  - clear. intros acc sc y Hy.
    destruct (JSON_parse (textContent sc)); [|exact Hy].
    apply extractUrlsFromJson_mono, Hy.
  - intros acc. rewrite Hp.
    destruct (extractUrlsFromJson_walk j acc) as (pre & post & Hl' & -> & Hf).
    rewrite Hsh in Hf. destruct Hf as [_ ->]. rewrite app_nil_r in Hl'.
    subst pre. apply scanned_In. right. eauto.
  - apply filter_In. split; assumption.
Qed.

Lemma absolutize_In base urls x :
  In x (absolutize base urls) <-> exists u, In u urls /\ x = resolved base u.
Proof.
  unfold absolutize.
  rewrite (fold_left_In _ (fun u x => x = resolved base u)).
  - simpl. split; [intros [[]|Hx]; exact Hx | auto].
  - clear. intros acc u x. unfold resolved.
    destruct (new_URL u (Some base)); rewrite Set_add_In; tauto.
Qed.

Lemma absolutize_length base urls :
  length (absolutize base urls) <= length urls.
Proof.
  unfold absolutize.
  enough (forall acc,
            length (fold_left
                      (fun absoluteUrls u =>
                         match new_URL u (Some base) with
                         | Ret absoluteUrl => Set_add (href absoluteUrl) absoluteUrls
                         | _ => Set_add u absoluteUrls
                         end) urls acc)
            <= length acc + length urls) as Hall by apply (Hall []).
  induction urls as [|u urls IH]; intros acc; simpl; [lia|].
  etransitivity; [apply IH|].
  assert (Hadd : forall x, length (Set_add x acc) <= S (length acc)).
  { intros x. unfold Set_add. destruct (Set_has x acc); [lia|].
    rewrite length_app. simpl. lia. }
  destruct (new_URL u (Some base)) as [a|e]; [specialize (Hadd (href a))
                                              | specialize (Hadd u)]; lia.
Qed.

End ScannerGathers.

(** A page of frames has its [frameset] for body, and the type of a
    script is compared without regard to the case of its letters. *)
Lemma body_of_a_page_of_frames :
  body [Element "html" []
          [Element "head" [] []; Element "frameset" [] [TextNode "a/b.ttf"]]]
  = Some (Element "frameset" [] [TextNode "a/b.ttf"]).
Proof. reflexivity. Qed.

Lemma isJsonLd_in_any_case :
  isJsonLd (Element "script" [("type", "Application/LD+JSON")] []) = true.
Proof. reflexivity. Qed.

(** X5. The scanner invents nothing: every entry of its result is the
    resolved form of a string that the extractor found in the trimmed
    value of an attribute of some element, in the text of the body, or in
    a string of the value of a JSON-LD script that parses; a string that
    does not resolve against the address of the response is kept as it
    is. Scripts that do not parse contribute nothing. *)
Theorem scanner_invents_nothing :
  forall (P : Platform) (document : list Node) (base x : string),
    In x (scanDocument document base) ->
    exists u text,
      x = resolved base u
      /\ In u (extractUrlsFromText text)
      /\ part_of u text
      /\ (attribute_text document text
          \/ body_text document text
          \/ exists j, script_text document j text).
Proof.
  intros P document base x Hx.
  apply scanDocument_In, absolutize_In in Hx as (u & Hu & ->).
  assert (Hpart : forall text, In u (extractUrlsFromText text) -> part_of u text).
  { intros text (pattern & m & Hp & Hm & -> & _)%extractUrlsFromText_In.
    eapply part_of_trans; [apply cleanUrl_part|].
    apply (scan_sound _ pattern (urlPatterns_without_white pattern Hp) _ _ _ _ Hm). }
  exists u.
  apply scanScripts_from in Hu as [Hu|(j & text & Hs & Hu)];
    [|exists text; eauto 8].
  apply scanText_In in Hu as [Hu|(text & Hb & Hu)]; [|exists text; eauto 8].
  apply scanAttributes_In in Hu as [[]|(text & Ha & Hu)]. exists text. eauto 8.
Qed.

Lemma scanner_invents_nothing_witness :
  exists u text,
    "https://page-origin/fonts/a.woff2" = @resolved Reference.platform Reference.page_url u
    /\ In u (extractUrlsFromText text)
    /\ part_of u text
    /\ (attribute_text Reference.page_document text
        \/ body_text Reference.page_document text
        \/ exists j, @script_text Reference.platform Reference.page_document j text).
Proof.
  apply (scanner_invents_nothing Reference.platform).
  vm_compute. tauto.
Defined.

(** X6. The scanner misses nothing it was given: whatever the extractor
    finds in the trimmed value of an attribute, in the text of the body, or
    in a string of the value of a JSON-LD script that parses and has no
    member named [hasOwnProperty], is in the result in its resolved form.
    The result is in ascending order, without duplicates, and has no more
    entries than strings were gathered. *)
Theorem scanner_misses_nothing :
  forall (P : Platform) (document : list Node) (base : string),
    (forall text u,
       attribute_text document text
       \/ body_text document text
       \/ (exists j, script_text document j text /\ shadowed j = false) ->
       In u (extractUrlsFromText text) ->
       In (resolved base u) (scanDocument document base))
    /\ Sorted str_le (scanDocument document base)
    /\ List.NoDup (scanDocument document base)
    /\ length (scanDocument document base)
       <= length (scanScripts document
                    (scanText document (scanAttributes document []))).
Proof.
  intros P document base. split; [|split; [|split]].
  - intros text u Htext Hu. apply scanDocument_In, absolutize_In.
    exists u. split; [|reflexivity].
    destruct Htext as [Ha|[Hb|(j & Hs & Hsh)]].
    + apply scanScripts_grows, scanText_grows, scanAttributes_In. eauto.
    + apply scanScripts_grows, scanText_In. eauto.
    + eapply scanScripts_reaches; eassumption.
  - apply scanDocument_sorted.
  - apply scanDocument_sorted.
  - unfold scanDocument.
    rewrite (Permutation_length (sort_perm _)). apply absolutize_length.
Qed.

(** X7. Fetching the page costs one [GET] request to the given address and
    writes no file, however it ends. It returns exactly when the request
    gets a response with a status from 200 to 299 whose body can be read,
    and then with the scan of that body, resolved against the address of
    the response, in ascending order and without duplicates; in every
    other case the process exits with code 1. *)
Theorem extractUrls_outcome :
  forall (P : Platform) (u : string) (w : World),
    snd (extractUrls u w) = mkWorld (requests w ++ [(GET, u)]) (files w)
    /\ (forall urls,
          fst (extractUrls u w) = Returns urls
          <-> exists response html,
                network GET u = Ret response
                /\ ok response = true
                /\ text response = Ret html
                /\ urls = scanDocument (JSDOM html) (url response))
    /\ (forall c, fst (extractUrls u w) = Exits c -> c = 1)
    /\ (forall urls,
          fst (extractUrls u w) = Returns urls ->
          Sorted str_le urls /\ List.NoDup urls).
Proof.
  intros P u w. unfold extractUrls, bind, fetch, throw, lift, ret.
  destruct (network GET u) as [response|e] eqn:Hnet; simpl.
  - destruct (ok response) eqn:Hok; simpl.
    + destruct (text response) as [html|e] eqn:Htext; simpl.
      * split; [reflexivity|]. split; [|split; [discriminate|]].
        -- intros urls. split.
           ++ intros [= <-]. exists response, html. repeat split; assumption.
           ++ intros (r & h & [= <-] & _ & Hh & ->).
              rewrite Htext in Hh. injection Hh as <-. reflexivity.
        -- intros urls [= <-]. apply scanDocument_sorted.
      * split; [reflexivity|].
        split; [|split; [intros c [= <-]; reflexivity | discriminate]].
        intros urls. split; [discriminate|].
        intros (r & h & [= <-] & _ & Hh & _). rewrite Htext in Hh. discriminate.
    + split; [reflexivity|].
      split; [|split; [intros c [= <-]; reflexivity | discriminate]].
      intros urls. split; [discriminate|].
      intros (r & h & [= <-] & Hr & _). rewrite Hok in Hr. discriminate.
  - split; [reflexivity|].
    split; [|split; [intros c [= <-]; reflexivity | discriminate]].
    intros urls. split; [discriminate|]. intros (r & h & [=] & _).
Qed.

(** ** The prober and the batches *)

Lemma testUrls_filter `{Platform} (urls : list string) (w : World) :
  testUrls urls w
  = Some (Ret (List.filter reachable urls),
          mkWorld (requests w ++ map (fun u => (HEAD, u)) urls) (files w)).
Proof.
  unfold testUrls.
  destruct (probes_run urls w) as (w' & -> & _ & Hreq & Hfiles).
  destruct w' as [reqs fs]. simpl in Hreq, Hfiles. subst reqs fs.
  do 3 f_equal. clear.
  induction urls as [|u urls IH]; simpl; [reflexivity|].
  destruct (reachable u); simpl; rewrite IH; reflexivity.
Qed.

(** X8. The prober returns the reachable addresses, in the order of the
    input and as often as they occur in it: those whose [HEAD] request gets
    a status from 200 to 299. It never throws, issues exactly one [HEAD]
    request per address, in order, and writes no file. *)
Theorem testUrls_keeps_the_reachable :
  forall (P : Platform) (urls : list string) (w : World),
    testUrls urls w
    = Some (Ret (List.filter reachable urls),
            mkWorld (requests w ++ map (fun u => (HEAD, u)) urls) (files w))
    /\ sublist (List.filter reachable urls) urls
    /\ forall u, In u (List.filter reachable urls)
                 <-> In u urls
                     /\ exists response,
                          network HEAD u = Ret response
                          /\ (200 <= status response <= 299)%N.
Proof.
  intros P urls w. split; [apply testUrls_filter|].
  split; [apply filter_sublist|].
  intros u. rewrite filter_In. unfold reachable, ok.
  destruct (network HEAD u) as [response|e].
  - rewrite andb_true_iff, !N.leb_le. split.
    + intros [Hu Hr]. split; [exact Hu|]. exists response. auto.
    + intros [Hu (r & [= <-] & Hr)]. auto.
  - split; [intros [_ [=]] | intros [_ (r & [=] & _)]].
Qed.

Section BatchCount.
Context {T : Type}.
Variable limit : nat.
Variable urls : list T.
Hypothesis limit_pos : 0 < limit.


End BatchCount.


(** ** The retriever and the disk *)

Section RetrieverFacts.
Context `{Platform}.

(** What a download writes, and what it then returns: a failure writes
    nothing, a success writes one file. *)
Lemma written_by_spec u :
  exists o,
    outcome_of u = Ret o
    /\ (sent_by u = [] \/ sent_by u = [(GET, u)])
    /\ match written_by u with
       | Some (p, buffer) =>
           success o = true
           /\ error o = None
           /\ p = path_join OUTPUT_DIR (filename o)
           /\ exists urlObj response,
                new_URL u None = Ret urlObj
                /\ lastSegment (pathname urlObj) = Some (filename o)
                /\ filename o <> ""
                /\ network GET u = Ret response
                /\ ok response = true
                /\ arrayBuffer response = Ret buffer
       | None => success o = false /\ exists reason, error o = Some reason
       end.
Proof.
  unfold outcome_of, sent_by, written_by.
  unfold download, awaited, download_async, a_try_catch, a_bind, now, await,
    lift, fetch, writeFileSync, a_ret, untouched.
  simpl.
  destruct (new_URL u None) as [urlObj|e0] eqn:Hu; simpl;
    [|rewrite written_by_none; eexists; split; [reflexivity|];
      split; [auto|]; split; eauto].
  destruct (lastSegment (pathname urlObj)) as [[|c name]|] eqn:Hseg; simpl;
    [rewrite written_by_none; eexists; split; [reflexivity|];
     split; [auto|]; split; eauto
    | | rewrite written_by_none; eexists; split; [reflexivity|];
        split; [auto|]; split; eauto].
  destruct (network GET u) as [response|e1] eqn:Hnet; simpl;
    [|rewrite written_by_none; eexists; split; [reflexivity|];
      split; [auto|]; split; eauto].
  destruct (ok response) eqn:Hok; simpl;
    [|rewrite written_by_none; eexists; split; [reflexivity|];
      split; [auto|]; split; eauto].
  destruct (arrayBuffer response) as [buffer|e2] eqn:Hbuf; simpl;
    [|rewrite written_by_none; eexists; split; [reflexivity|];
      split; [auto|]; split; eauto].
  destruct (write_error _ buffer) as [e3|]; simpl.
  - rewrite written_by_none. eexists. split; [reflexivity|].
    split; [auto|]. split; eauto.
  - rewrite written_by_one. eexists. split; [reflexivity|].
    split; [auto|]. simpl. split; [reflexivity|]. split; [reflexivity|].
    split; [reflexivity|]. exists urlObj, response.
    repeat split; try assumption; try reflexivity. discriminate.
Qed.

(** What one download does: a failure leaves the files as they were, a
    success writes one file. *)
Lemma download_effects u w :
  exists o w',
    download u w = (Ret o, w')
    /\ (requests w' = requests w \/ requests w' = requests w ++ [(GET, u)])
    /\ (success o = false ->
        files w' = files w /\ exists reason, error o = Some reason)
    /\ (success o = true ->
        error o = None
        /\ exists buffer,
             files w' = <[path_join OUTPUT_DIR (filename o) := buffer]> (files w)).
Proof.
  unfold download, awaited, download_async, a_try_catch, a_bind, now, await,
    lift, fetch, writeFileSync, a_ret.
  simpl.
  destruct (new_URL u None) as [urlObj|e0]; simpl;
    [|eexists _, _; split; [reflexivity|]; simpl; split; [auto|];
      split; [eauto | discriminate]].
  destruct (lastSegment (pathname urlObj)) as [[|c name]|]; simpl;
    [eexists _, _; split; [reflexivity|]; simpl; split; [auto|];
     split; [eauto | discriminate]
    | | eexists _, _; split; [reflexivity|]; simpl; split; [auto|];
        split; [eauto | discriminate]].
  destruct (network GET u) as [response|e1]; simpl;
    [|eexists _, _; split; [reflexivity|]; simpl; split; [auto|];
      split; [eauto | discriminate]].
  destruct (ok response); simpl;
    [|eexists _, _; split; [reflexivity|]; simpl; split; [auto|];
      split; [eauto | discriminate]].
  destruct (arrayBuffer response) as [buffer|e2]; simpl;
    [|eexists _, _; split; [reflexivity|]; simpl; split; [auto|];
      split; [eauto | discriminate]].
  destruct (write_error _ buffer) as [e3|]; simpl;
    [eexists _, _; split; [reflexivity|]; simpl; split; [auto|];
     split; [eauto | discriminate]|].
  eexists _, _. split; [reflexivity|]. simpl. split; [auto|].
  split; [discriminate|]. intros _. split; [reflexivity|]. eauto.
Qed.

(** The requests of a selection are the [GET]s of a part of it, in its
    order. *)
Lemma sent_by_fetched urls :
  exists fetched,
    flat_map sent_by urls = map (fun u => (GET, u)) fetched
    /\ sublist fetched urls.
Proof.
  induction urls as [|u urls (fetched & IH & Hsub)].
  - exists []. split; [reflexivity | constructor].
  - destruct (written_by_spec u) as (_ & _ & [E|E] & _).
    + exists fetched. simpl. rewrite E. split; [exact IH|].
      constructor. exact Hsub.
    + exists (u :: fetched). simpl. rewrite E, IH. split; [reflexivity|].
      constructor. exact Hsub.
Qed.

(** An address that has a file name is fetched when it is downloaded. *)
Lemma sent_by_all_named urls :
  Forall named urls ->
  flat_map sent_by urls = map (fun u => (GET, u)) urls.
Proof.
  induction 1 as [|u urls (urlObj & [|c seg] & Hu & Hseg & Hne) _ IH];
    [reflexivity | contradiction |].
  simpl. rewrite IH. unfold sent_by.
  destruct (download_named u urlObj c seg untouched Hu Hseg)
    as (o & w' & Hd & Hreq & _).
  rewrite Hd. simpl. rewrite Hreq. reflexivity.
Qed.

Lemma write_all_keeps ws (f : gmap string (list Byte.byte)) p :
  is_Some (f !! p) -> is_Some (write_all ws f !! p).
Proof.
  revert f. induction ws as [|[q b] ws IH]; intros f Hp; [exact Hp|].
  simpl. apply IH. destruct (decide (q = p)) as [->|Hne].
  - rewrite lookup_insert_eq. eauto.
  - rewrite lookup_insert_ne by exact Hne. exact Hp.
Qed.

Lemma write_all_written ws (f : gmap string (list Byte.byte)) p b :
  In (p, b) ws -> is_Some (write_all ws f !! p).
Proof.
  revert f. induction ws as [|[q c] ws IH]; intros f; [intros []|].
  intros [[= -> ->]|Hin]; simpl.
  - apply write_all_keeps. rewrite lookup_insert_eq. eauto.
  - apply IH, Hin.
Qed.

Lemma write_all_other ws (f : gmap string (list Byte.byte)) p :
  (forall b, ~ In (p, b) ws) -> write_all ws f !! p = f !! p.
Proof.
  revert f. induction ws as [|[q c] ws IH]; intros f Hp; [reflexivity|].
  simpl. rewrite IH by (intros b Hb; apply (Hp b); right; exact Hb).
  apply lookup_insert_ne. intros ->. apply (Hp c). left. reflexivity.
Qed.

(** The loop of the retriever: its results, its requests and its files. *)
Lemma retriever_run urls w :
  exists results fetched w',
    downloadFontFiles_results urls w = Some (Ret results, w')
    /\ length results = length urls
    /\ map Ret results = map outcome_of urls
    /\ requests w' = requests w ++ flat_map sent_by urls
    /\ flat_map sent_by urls = map (fun u => (GET, u)) fetched
    /\ sublist fetched urls
    /\ (forall p, is_Some (files w !! p) -> is_Some (files w' !! p))
    /\ (forall o, In o results -> success o = true ->
                  is_Some (files w' !! path_join OUTPUT_DIR (filename o)))
    /\ (forall p,
          files w' !! p <> files w !! p ->
          exists u buffer, In u urls /\ written_by u = Some (p, buffer))
    /\ (forall p,
          (forall u buffer, In u urls -> written_by u <> Some (p, buffer)) ->
          files w' !! p = files w !! p).
Proof.
  destruct (downloads_run urls w)
    as (results & ws & w' & Hrun & _ & Hlen & Hvalues & Hreq & Hfiles & Hperm).
  destruct (sent_by_fetched urls) as (fetched & Hfetched & Hsub).
  exists results, fetched, w'. split; [exact Hrun|]. split; [exact Hlen|].
  split; [exact Hvalues|]. split; [exact Hreq|]. split; [exact Hfetched|].
  split; [exact Hsub|]. rewrite Hfiles.
  assert (Hws : forall p b,
            In (p, b) ws <-> exists u, In u urls /\ written_by u = Some (p, b)).
  { intros p b. rewrite (Permutation_in' eq_refl Hperm), in_flat_map.
    split; intros (u & Hu & Hw); exists u; (split; [exact Hu|]).
    - destruct (written_by u) as [x|]; simpl in Hw; [|destruct Hw].
      destruct Hw as [->|[]]. reflexivity.
    - rewrite Hw. left. reflexivity. }
  split; [intros p; apply write_all_keeps|]. split.
  - intros o Ho Hso.
    apply (in_map Ret) in Ho. rewrite Hvalues in Ho.
    apply in_map_iff in Ho as (u & Hou & Hu).
    destruct (written_by_spec u) as (o' & Ho' & _ & Hw).
    rewrite Ho' in Hou. injection Hou as ->.
    destruct (written_by u) as [[p b]|] eqn:E.
    + destruct Hw as (_ & _ & -> & _).
      apply (write_all_written _ _ _ b), Hws. eauto.
    + destruct Hw as [Hw _]. congruence.
  - split.
    + intros p Hp.
      destruct (existsb (fun x : Write => String.eqb (fst x) p) ws) eqn:E.
      * apply existsb_exists in E as ([q b] & Hin & Heq%String.eqb_eq).
        simpl in Heq. subst q. apply Hws in Hin as (u & Hu & Hw). eauto.
      * exfalso. apply Hp, write_all_other. intros b Hb.
        assert (Hex : existsb (fun x : Write => String.eqb (fst x) p) ws = true).
        { apply existsb_exists. exists (p, b). split; [exact Hb|].
          apply String.eqb_refl. }
        rewrite Hex in E. discriminate.
    + intros p Hp. apply write_all_other. intros b Hb.
      apply Hws in Hb as (u & Hu & Hw). exact (Hp u b Hu Hw).
Qed.

End RetrieverFacts.


(** X11. The retriever issues [GET] requests only, at most one for each
    address of the selection and in the order of the selection; every
    result is a success without a reason or a failure with one, and there
    is one result per address. *)
Theorem retriever_requests :
  forall (P : Platform) (urls : list string) (w : World),
    exists results fetched w',
      downloadFontFiles_results urls w = Some (Ret results, w')
      /\ length results = length urls
      /\ requests w' = requests w ++ map (fun u => (GET, u)) fetched
      /\ sublist fetched urls
      /\ Forall (fun o => if success o then error o = None
                          else exists reason, error o = Some reason) results.
Proof.
  intros P urls w.
  destruct (retriever_run urls w)
    as (results & fetched & w' & Hrun & Hlen & Hvalues & Hreq & Hfetched & Hsub & _).
  exists results, fetched, w'. split; [exact Hrun|]. split; [exact Hlen|].
  split; [rewrite Hreq, Hfetched; reflexivity|]. split; [exact Hsub|].
  apply List.Forall_forall. intros o Ho.
  apply (in_map Ret) in Ho. rewrite Hvalues in Ho.
  apply in_map_iff in Ho as (u & Hou & _).
  destruct (written_by_spec u) as (o' & Ho' & _ & Hw).
  rewrite Ho' in Hou. injection Hou as ->.
  destruct (written_by u) as [[p b]|].
  - destruct Hw as (-> & Herr & _). exact Herr.
  - destruct Hw as (-> & Herr). exact Herr.
Qed.

Lemma filter_partition_length {A} (f : A -> bool) (l : list A) :
  length (List.filter f l) + length (List.filter (fun x => negb (f x)) l) = length l.
Proof.
  induction l as [|x l IH]; simpl; [reflexivity|].
  destruct (f x); simpl; lia.
Qed.

Lemma filter_nil_length {A} (f : A -> bool) (l : list A) :
  length (List.filter f l) = 0 -> List.filter f l = [].
Proof. destruct (List.filter f l); [reflexivity | discriminate]. Qed.

(** X12. [downloadFontFiles] throws only when the output directory
    cannot be made, and then before any request; otherwise it reports on
    the results of its loop, one per address. The report ends the process
    with code 0 exactly when there is no result at all; otherwise its
    notes hold one line per result, the failures first, each group in
    the order of the results, and a group without lines is not shown. *)
Theorem downloadFontFiles_reports_every_result :
  forall (P : Platform) (S : Session) (urls : list string) (w : World),
    match mkdir_error with
    | Some e => downloadFontFiles urls w = Some (Throw e, w)
    | None =>
        exists results w',
          downloadFontFiles urls w = Some (Ret (report results), w')
          /\ downloadFontFiles_results urls w = Some (Ret results, w')
          /\ length results = length urls
          /\ (report results = Exits 0 <-> urls = [])
    end
    /\ forall results,
         (report results = Exits 0 <-> results = [])
         /\ forall notes,
              report results = Returns notes ->
              flat_map lines notes
              = map failedLine (List.filter (fun r => negb (success r)) results)
                ++ map (fun r => Saved (filename r)) (List.filter success results)
              /\ length (flat_map lines notes) = length results
              /\ Forall (fun note => lines note <> []) notes.
Proof.
  intros P S urls w.
  assert (Hreport : forall results, report results = Exits 0 <-> results = []).
  { intros results. split; [|intros ->; reflexivity].
    unfold report. pose proof (filter_partition_length success results) as Hlen.
    destruct (length (List.filter success results)) as [|s];
      destruct (length (List.filter (fun r => negb (success r)) results)) as [|f];
      simpl; try discriminate.
    intros _. destruct results; [reflexivity | discriminate]. }
  split.
  - unfold downloadFontFiles, ensureOutputDir.
    destruct mkdir_error as [e|]; [reflexivity|].
    destruct (retriever_run urls w) as (results & fetched & w' & Hrun & Hlen & _).
    exists results, w'. rewrite Hrun. split; [reflexivity|].
    split; [reflexivity|]. split; [exact Hlen|].
    rewrite Hreport. destruct results, urls; try discriminate; split; auto;
      discriminate.
  - intros results. split; [apply Hreport|].
    intros notes. unfold report.
    pose proof (filter_partition_length success results) as Hlen.
    pose proof (filter_nil_length success results) as Hs.
    pose proof (filter_nil_length (fun r => negb (success r)) results) as Hf.
    destruct (List.filter success results) as [|s ss];
      destruct (List.filter (fun r => negb (success r)) results) as [|f fs];
      simpl in *; try discriminate; intros [= <-]; simpl;
      rewrite ?app_nil_r, ?length_app; simpl; rewrite ?length_map;
      (split; [reflexivity|]); (split; [lia|]);
      repeat constructor; discriminate.
Qed.

(** ** The filter, the list of choices and the catalog *)

Lemma every_unit (p : ascii -> bool) :
  forallb p all_units = true -> forall c, p c = true.
Proof.
  intros Hall c. rewrite forallb_forall in Hall. apply Hall, all_units_complete.
Qed.

Lemma lower_unit_idem c : lower_unit (lower_unit c) = lower_unit c.
Proof.
  apply Ascii.eqb_eq.
  apply (every_unit (fun c => Ascii.eqb (lower_unit (lower_unit c)) (lower_unit c))).
  vm_compute. reflexivity.
Qed.

Lemma toLowerCase_idem s : toLowerCase (toLowerCase s) = toLowerCase s.
Proof.
  induction s as [|c s IH]; simpl; [reflexivity|].
  rewrite lower_unit_idem, IH. reflexivity.
Qed.

Section FilterAlgebra.
Context `{Platform}.

Lemma comparedExt_fixed ext :
  toLowerCase (normalizedExt (comparedExt ext)) = comparedExt ext.
Proof.
  unfold comparedExt. rewrite (normalizedExt_spec ext), toLowerCase_app.
  change (toLowerCase ".") with ".".
  change (normalizedExt ("." +:+ toLowerCase (strip_dot ext)))
    with ("." +:+ toLowerCase (strip_dot ext)).
  rewrite toLowerCase_app, toLowerCase_idem. reflexivity.
Qed.

Lemma hasExtension_compared extensions u :
  hasExtension (map comparedExt extensions) u = hasExtension extensions u.
Proof.
  unfold hasExtension. destruct (new_URL u None) as [urlObj|e]; [|reflexivity].
  destruct (lastSegment (pathname urlObj)) as [seg|]; [|reflexivity].
  induction extensions as [|ext extensions IH]; simpl; [reflexivity|].
  rewrite IH, comparedExt_fixed. reflexivity.
Qed.

Lemma hasExtension_incl exts1 exts2 u :
  (forall e, In e exts1 -> In e exts2) ->
  hasExtension exts1 u = true -> hasExtension exts2 u = true.
Proof.
  intros Hincl. rewrite (hasExtension_existsb exts1), (hasExtension_existsb exts2).
  intros (e & He & Hu)%existsb_exists. apply existsb_exists. eauto.
Qed.

End FilterAlgebra.

(** X13. Filtering twice is filtering once. The result depends on the
    extensions only through the form in which they are compared, with the
    dot and in lower case, so that [WOFF2], [.woff2] and [woff2] select the
    same addresses; it depends on the set of the extensions, not on their
    order or number; and without extensions nothing is kept. *)
Theorem filter_depends_on_the_compared_extensions :
  forall (P : Platform) (urls extensions : list string),
    filterUrlsByExtension (filterUrlsByExtension urls extensions) extensions
    = filterUrlsByExtension urls extensions
    /\ filterUrlsByExtension urls (map comparedExt extensions)
       = filterUrlsByExtension urls extensions
    /\ (forall ext,
          comparedExt ("." +:+ ext) = "." +:+ toLowerCase ext
          /\ (startsWith ext "." = false ->
              comparedExt ext = "." +:+ toLowerCase ext))
    /\ (forall others,
          (forall e, In e extensions <-> In e others) ->
          filterUrlsByExtension urls others = filterUrlsByExtension urls extensions)
    /\ filterUrlsByExtension urls [] = [].
Proof.
  intros P urls extensions. unfold filterUrlsByExtension.
  split; [|split; [|split; [|split]]].
  - induction urls as [|u urls IH]; simpl; [reflexivity|].
    destruct (hasExtension extensions u) eqn:E; simpl; [|exact IH].
    rewrite E, IH. reflexivity.
  - apply filter_ext. intros u. apply hasExtension_compared.
  - intros ext. unfold comparedExt. split.
    + reflexivity.
    + intros Hdot. unfold normalizedExt. rewrite Hdot. reflexivity.
  - intros others Hsame. apply filter_ext. intros u.
    destruct (hasExtension extensions u) eqn:E.
    + eapply hasExtension_incl; [|exact E]. intros e. apply Hsame.
    + destruct (hasExtension others u) eqn:E'; [|reflexivity].
      rewrite <- E. symmetry.
      eapply hasExtension_incl; [|exact E']. intros e. apply Hsame.
  - induction urls as [|u urls IH]; simpl; [reflexivity|].
    rewrite hasExtension_nil. exact IH.
Qed.

Lemma toLowerCase_app_inv s x y :
  toLowerCase s = x +:+ y ->
  exists a b, s = a +:+ b /\ toLowerCase a = x /\ toLowerCase b = y.
Proof.
  revert s. induction x as [|c x IH]; intros s; simpl.
  - intros E. exists "", s. auto.
  - destruct s as [|d s]; simpl; [discriminate|].
    intros [= Hc (a & b & -> & Ha & Hb)%IH].
    exists (String d a), b. simpl. rewrite Hc, Ha. auto.
Qed.

Lemma lower_unit_dot c : Ascii.eqb "." (lower_unit c) = Ascii.eqb "." c.
Proof.
  apply Bool.eqb_prop.
  apply (every_unit (fun c => Bool.eqb (Ascii.eqb "." (lower_unit c))
                                       (Ascii.eqb "." c))).
  vm_compute. reflexivity.
Qed.

Lemma toLowerCase_dots s :
  str_existsb (Ascii.eqb ".") (toLowerCase s) = str_existsb (Ascii.eqb ".") s.
Proof.
  induction s as [|c s IH]; [reflexivity|].
  cbn [toLowerCase str_existsb]. rewrite lower_unit_dot, IH. reflexivity.
Qed.

Lemma pop_split_suffix sep a b :
  str_existsb (Ascii.eqb sep) b = false ->
  pop (split sep (a +:+ String sep b)) = Some b.
Proof.
  intros Hb. rewrite split_app_sep, (split_no_sep _ _ Hb). apply pop_snoc.
Qed.

(** The colour of a name that ends with the extension of a format. *)
Lemma colorOf_format seg f ext :
  In f FONT_FORMATS ->
  name f <> "all" ->
  In ext (extensions f) ->
  ends_with (toLowerCase seg) ("." +:+ ext) ->
  colorOf seg = Colours (color f).
Proof.
  intros Hf Hall Hext (pre & Hends).
  apply toLowerCase_app_inv in Hends as (a & b & -> & _ & Hb).
  destruct b as [|d b]; [discriminate|]. simpl in Hb. injection Hb as Hd Hb.
  assert (d = "."%char) as ->.
  { apply Ascii.eqb_eq. rewrite Ascii.eqb_sym, <- lower_unit_dot, Hd.
    reflexivity. }
  assert (Hdots : str_existsb (Ascii.eqb ".") b = false).
  { rewrite <- toLowerCase_dots, Hb.
    simpl in Hf. destruct Hf as [<-|[<-|[<-|[<-|[<-|[<-|[]]]]]]];
      simpl in Hext; try (destruct Hall; reflexivity; fail);
      destruct Hext as [<-|[]]; reflexivity. }
  unfold colorOf. rewrite (pop_split_suffix _ _ _ Hdots). simpl. rewrite Hb.
  simpl in Hf. destruct Hf as [<-|[<-|[<-|[<-|[<-|[<-|[]]]]]]];
    simpl in Hext; try (destruct Hall; reflexivity; fail);
    destruct Hext as [<-|[]]; reflexivity.
Qed.

Lemma colorOf_catalog seg ext :
  In ext ["woff2"; "woff"; "ttf"; "otf"; "eot"] ->
  ends_with (toLowerCase seg) ("." +:+ ext) ->
  exists c, colorOf seg = Colours c.
Proof.
  intros Hext Hends. simpl in Hext.
  destruct Hext as [<-|[<-|[<-|[<-|[<-|[]]]]]].
  - exists yellow.
    apply (colorOf_format seg (mkFormat "woff2" "Web Open Font Format 2.0"
                                 yellow ["woff2"]) "woff2");
      simpl; auto 10; discriminate.
  - exists green.
    apply (colorOf_format seg (mkFormat "woff" "Web Open Font Format"
                                 green ["woff"]) "woff");
      simpl; auto 10; discriminate.
  - exists cyan.
    apply (colorOf_format seg (mkFormat "ttf" "TrueType Font" cyan ["ttf"]) "ttf");
      simpl; auto 10; discriminate.
  - exists magenta.
    apply (colorOf_format seg (mkFormat "otf" "OpenType Font" magenta ["otf"]) "otf");
      simpl; auto 10; discriminate.
  - exists red.
    apply (colorOf_format seg (mkFormat "eot" "Embedded OpenType" red ["eot"]) "eot");
      simpl; auto 10; discriminate.
Qed.

Lemma colorOf_prototype seg :
  colorOf seg = ObjectPrototype
  <-> exists ext, pop (split "." seg) = Some ext /\ toLowerCase ext = "__proto__".
Proof.
  unfold colorOf. destruct (pop (split "." seg)) as [ext|]; cbn [option_map].
  - destruct (List.find (fun kv => String.eqb (fst kv) (toLowerCase ext)) colorMap)
      as [kv|] eqn:F.
    + split; [discriminate|]. intros (ext' & [= <-] & Hl).
      rewrite Hl in F. discriminate.
    + destruct (String.eqb (toLowerCase ext) "constructor") eqn:C.
      * split; [discriminate|]. intros (ext' & [= <-] & Hl).
        rewrite Hl in C. discriminate.
      * destruct (String.eqb_spec (toLowerCase ext) "__proto__") as [E|E].
        -- split; eauto.
        -- split; [discriminate|]. intros (ext' & [= <-] & Hl). contradiction.
  - split; [discriminate|]. intros (ext & [=] & _).
Qed.

Lemma selectedExtensions_catalog formats e :
  In e (selectedExtensions formats) ->
  In e ["woff2"; "woff"; "ttf"; "otf"; "eot"].
Proof.
  intros (n & _ & He)%in_flat_map.
  destruct (List.find (fun f => String.eqb (name f) n) FONT_FORMATS) as [f|] eqn:E;
    [|destruct He].
  apply find_some in E as [Hf _].
  simpl in Hf. destruct Hf as [<-|[<-|[<-|[<-|[<-|[<-|[]]]]]]];
    simpl in He; simpl; tauto.
Qed.

Section ChoiceFacts.
Context `{Platform}.

Lemma sublist_In (kept l : list string) u :
  sublist kept l -> In u kept -> In u l.
Proof.
  intros Hkept Hu. apply list_elem_of_In.
  eapply sublist_subseteq; [exact Hkept|]. apply list_elem_of_In, Hu.
Qed.

(** What the filter kept has a file name. *)
Lemma kept_are_named urls extensions kept :
  sublist kept (filterUrlsByExtension urls extensions) ->
  Forall named kept.
Proof.
  intros Hkept. apply List.Forall_forall. intros u Hu.
  apply (sublist_In _ _ _ Hkept), filter_In in Hu as [_ Hu].
  apply hasExtension_nonempty in Hu as (urlObj & c & seg & Hparse & Hseg).
  exists urlObj, (String c seg). split; [exact Hparse|].
  split; [exact Hseg | discriminate].
Qed.

(** What the filter kept for formats of the catalog has a file name that
    is shown in a colour. *)
Lemma kept_are_coloured urls formats kept :
  sublist kept (filterUrlsByExtension urls (selectedExtensions formats)) ->
  Forall (fun u => exists urlObj seg c,
                     new_URL u None = Ret urlObj
                     /\ lastSegment (pathname urlObj) = Some seg
                     /\ seg <> ""
                     /\ colorOf seg = Colours c) kept.
Proof.
  intros Hkept. apply List.Forall_forall. intros u Hu.
  apply (sublist_In _ _ _ Hkept), filter_In in Hu as [_ Hu].
  destruct (hasExtension_nonempty _ _ Hu) as (urlObj & c0 & seg0 & Hparse & Hseg).
  apply hasExtension_spec in Hu
    as (urlObj' & seg & ext & Hparse' & Hseg'%lastSegment_spec & Hin & Hends).
  rewrite Hparse in Hparse'. injection Hparse' as <-.
  rewrite Hseg in Hseg'. injection Hseg' as <-.
  apply selectedExtensions_catalog in Hin.
  destruct (colorOf_catalog (String c0 seg0) ext Hin) as (c & Hc).
  { simpl in Hin. destruct Hin as [<-|[<-|[<-|[<-|[<-|[]]]]]]; exact Hends. }
  exists urlObj, (String c0 seg0), c.
  split; [exact Hparse|]. split; [exact Hseg|]. split; [discriminate | exact Hc].
Qed.

Lemma fontItems_coloured urls :
  Forall (fun u => exists urlObj seg c,
                     new_URL u None = Ret urlObj
                     /\ lastSegment (pathname urlObj) = Some seg
                     /\ seg <> ""
                     /\ colorOf seg = Colours c) urls ->
  exists items,
    fontItems urls = Ret items
    /\ map value items = urls
    /\ Forall (fun item =>
                 exists urlObj seg c,
                   new_URL (value item) None = Ret urlObj
                   /\ lastSegment (pathname urlObj) = Some seg
                   /\ seg <> ""
                   /\ colorOf seg = Colours c
                   /\ label item = Coloured c seg) items.
Proof.
  induction 1
    as [|u urls (urlObj & seg & c & Hu & Hseg & Hne & Hc) _ (items & IH & Hv & Hl)].
  - exists []. repeat split; constructor.
  - exists (mkItem (Coloured c seg) u :: items).
    simpl. unfold fontItem. rewrite Hu, IH, Hseg, Hv.
    destruct seg as [|c0 seg]; [contradiction|]. rewrite Hc.
    split; [reflexivity|]. split; [reflexivity|]. constructor; [|exact Hl].
    exists urlObj, (String c0 seg), c. simpl. auto.
Qed.

(** The list of choices for addresses that have a file name: it throws
    only for [__proto__]. *)
Lemma fontItems_named urls :
  Forall named urls ->
  match fontItems urls with
  | Ret items =>
      map value items = urls
      /\ Forall (fun item =>
                   exists urlObj,
                     new_URL (value item) None = Ret urlObj
                     /\ lastSegment (pathname urlObj) = Some (label_text (label item))
                     /\ label_text (label item) <> "") items
  | Throw e => e = "color is not a function" /\ Exists proto_named urls
  end.
Proof.
  induction 1 as [|u urls (urlObj & seg & Hu & Hseg & Hne) _ IH]; simpl.
  - split; constructor.
  - unfold fontItem. rewrite Hu, Hseg.
    destruct seg as [|c0 seg]; [contradiction|].
    destruct (colorOf (String c0 seg)) eqn:Hc.
    + destruct (fontItems urls) as [items|e].
      * destruct IH as [Hv Hl]. simpl. rewrite Hv. split; [reflexivity|].
        constructor; [|exact Hl]. exists urlObj. simpl. auto.
      * destruct IH as [-> Hex]. split; [reflexivity|].
        apply Exists_cons_tl, Hex.
    + destruct (fontItems urls) as [items|e].
      * destruct IH as [Hv Hl]. simpl. rewrite Hv. split; [reflexivity|].
        constructor; [|exact Hl]. exists urlObj. simpl. auto.
      * destruct IH as [-> Hex]. split; [reflexivity|].
        apply Exists_cons_tl, Hex.
    + split; [reflexivity|]. apply Exists_cons_hd.
      exists urlObj, (String c0 seg). auto.
Qed.

Lemma fontItem_throws u :
  (exists e, fontItem u = Throw e)
  <-> (exists e, new_URL u None = Throw e) \/ proto_named u.
Proof.
  unfold fontItem, proto_named.
  destruct (new_URL u None) as [urlObj|e] eqn:Hu.
  - destruct (lastSegment (pathname urlObj)) as [[|c0 seg]|] eqn:Hseg.
    + split; [intros (e & [=])|].
      intros [(e & [=])|(urlObj' & seg & [= <-] & Hs & Hne & _)]. congruence.
    + destruct (colorOf (String c0 seg)) eqn:Hc.
      * split; [intros (e & [=])|].
        intros [(e & [=])|(urlObj' & seg' & [= <-] & Hs & _ & Hc')]. congruence.
      * split; [intros (e & [=])|].
        intros [(e & [=])|(urlObj' & seg' & [= <-] & Hs & _ & Hc')]. congruence.
      * split; [|eauto]. intros _. right.
        exists urlObj, (String c0 seg). split; [reflexivity|].
        split; [exact Hseg|]. split; [discriminate | exact Hc].
    + split; [intros (e & [=])|].
      intros [(e & [=])|(urlObj' & seg & [= <-] & Hs & _)]. congruence.
  - split; [eauto|]. intros _. eauto.
Qed.

Lemma fontItems_throws urls :
  (exists e, fontItems urls = Throw e)
  <-> Exists (fun u => (exists e, new_URL u None = Throw e) \/ proto_named u) urls.
Proof.
  induction urls as [|u urls IH]; simpl.
  - split; [intros (e & [=]) | intros Hex; inversion Hex].
  - pose proof (fontItem_throws u) as Hu.
    destruct (fontItem u) as [item|e].
    + destruct (fontItems urls) as [items|e'].
      * split; [intros (e & [=])|].
        intros Hex. inversion Hex as [? ? Hhd|? ? Htl]; subst.
        -- apply Hu in Hhd as (e & [=]).
        -- apply IH in Htl as (e & [=]).
      * split; [|eauto]. intros _. apply Exists_cons_tl, IH. eauto.
    + split; [|eauto]. intros _. apply Exists_cons_hd, Hu. eauto.
Qed.

End ChoiceFacts.

(** X14. The list of choices never fails on what the filter kept for
    formats of the catalog, nor on a part of it: it has one item per
    address, in order, whose value is the address and whose label is the
    final segment of the path, never empty, in a colour. For other
    extensions it has these items, the label being the segment in a colour
    or as a [String] object, unless it throws [color is not a function],
    which it does when the extension of a name is [__proto__] in any case
    of its letters. On an arbitrary list it throws exactly when some
    address does not parse or has such a name. *)
Theorem choices_for_the_survivors :
  forall (P : Platform) (urls formats : list string),
    (forall kept,
       sublist kept (filterUrlsByExtension urls (selectedExtensions formats)) ->
       exists items,
         fontItems kept = Ret items
         /\ map value items = kept
         /\ Forall (fun item =>
                      exists urlObj seg c,
                        new_URL (value item) None = Ret urlObj
                        /\ lastSegment (pathname urlObj) = Some seg
                        /\ seg <> ""
                        /\ colorOf seg = Colours c
                        /\ label item = Coloured c seg) items)
    /\ (forall extensions kept,
          sublist kept (filterUrlsByExtension urls extensions) ->
          match fontItems kept with
          | Ret items =>
              map value items = kept
              /\ Forall (fun item =>
                           exists urlObj,
                             new_URL (value item) None = Ret urlObj
                             /\ lastSegment (pathname urlObj)
                                = Some (label_text (label item))
                             /\ label_text (label item) <> "") items
          | Throw e => e = "color is not a function" /\ Exists proto_named kept
          end)
    /\ ((exists e, fontItems urls = Throw e)
        <-> Exists (fun u => (exists e, new_URL u None = Throw e) \/ proto_named u)
              urls)
    /\ (forall seg,
          colorOf seg = ObjectPrototype
          <-> exists ext,
                pop (split "." seg) = Some ext /\ toLowerCase ext = "__proto__").
Proof.
  intros P urls formats. split; [|split; [|split]].
  - intros kept Hkept. eapply fontItems_coloured, kept_are_coloured, Hkept.
  - intros extensions kept Hkept. eapply fontItems_named, kept_are_named, Hkept.
  - apply fontItems_throws.
  - apply colorOf_prototype.
Qed.

(** X15. The colour of a choice agrees with the catalog: a file name that
    ends, whatever the case of its letters, with a dot and the extension of
    one of the five formats is shown in the colour of that format. *)
Theorem choice_colour_is_the_format_colour :
  forall (seg : string) (f : FontFormat) (ext : string),
    In f FONT_FORMATS ->
    name f <> "all" ->
    In ext (extensions f) ->
    ends_with (toLowerCase seg) ("." +:+ ext) ->
    colorOf seg = Colours (color f).
Proof. intros seg f ext. apply colorOf_format. Qed.

Lemma choice_colour_is_the_format_colour_witness :
  colorOf "Inter-Bold.TTF" = Colours cyan.
Proof.
  apply (choice_colour_is_the_format_colour
           "Inter-Bold.TTF" (mkFormat "ttf" "TrueType Font" cyan ["ttf"]) "ttf").
  - simpl. tauto.
  - discriminate.
  - left. reflexivity.
  - exists "inter-bold". reflexivity.
Defined.

(** ** The command line *)






(** X17. The output directory is the directory given with [--output]
    when it is not empty; otherwise [Downloads/typeologist] under [HOME],
    or under [USERPROFILE] when [HOME] is missing or empty; otherwise
    [fonts]. The platform has no part in it. *)
Theorem output_directory :
  forall (join3 : string -> string -> string -> string)
         (output HOME USERPROFILE : option string) (platform : string),
    getOutputDir join3 output HOME USERPROFILE platform
    = match truthy output, truthy HOME, truthy USERPROFILE with
      | Some dir, _, _ => dir
      | None, Some home, _ => join3 home "Downloads" "typeologist"
      | None, None, Some home => join3 home "Downloads" "typeologist"
      | None, None, None => "fonts"
      end
    /\ forall other,
         getOutputDir join3 output HOME USERPROFILE other
         = getOutputDir join3 output HOME USERPROFILE platform.
Proof.
  intros join3 output HOME USERPROFILE platform. unfold getOutputDir.
  split.
  - destruct (truthy output); [reflexivity|].
    destruct HOME as [[|c h]|]; simpl;
      destruct (String.eqb platform "win32");
      destruct USERPROFILE as [[|c' h']|]; reflexivity.
  - intros other.
    destruct (truthy output); [reflexivity|].
    destruct (truthy match truthy HOME with Some h => Some h | None => USERPROFILE end);
      [|reflexivity].
    destruct (String.eqb other "win32"), (String.eqb platform "win32"); reflexivity.
Qed.

(** ** A run of the program *)

Section RunFacts.
Context `{Platform} `{Session}.

Lemma extractUrls_world u w :
  snd (extractUrls u w) = mkWorld (requests w ++ [(GET, u)]) (files w).
Proof.
  unfold extractUrls, bind, fetch, throw, lift, ret.
  destruct (network GET u) as [response|e]; simpl; [|reflexivity].
  destruct (ok response); simpl; [|reflexivity].
  destruct (text response); reflexivity.
Qed.

Lemma extractUrls_exit u w c : fst (extractUrls u w) = Exits c -> c = 1.
Proof.
  unfold extractUrls, bind, fetch, throw, lift, ret.
  destruct (network GET u) as [response|e]; simpl; [|intros [= <-]; reflexivity].
  destruct (ok response); simpl; [|intros [= <-]; reflexivity].
  destruct (text response); simpl; [discriminate | intros [= <-]; reflexivity].
Qed.

Lemma report_Returns results :
  results <> [] -> exists notes, report results = Returns notes.
Proof.
  intros Hne. unfold report.
  pose proof (filter_partition_length success results) as Hlen.
  destruct (length (List.filter success results)) as [|s];
    destruct (length (List.filter (fun r => negb (success r)) results)) as [|f];
    simpl; eauto.
  destruct results; [contradiction | discriminate].
Qed.

(** An address that the filter kept is fetched when it is downloaded. *)
Lemma download_step selection w :
  selection <> [] ->
  exists results w' notes fetched,
    downloadFontFiles_results selection w = Some (Ret results, w')
    /\ report results = Returns notes
    /\ requests w' = requests w ++ map (fun u => (GET, u)) fetched
    /\ (Forall named selection ->
        requests w' = requests w ++ map (fun u => (GET, u)) selection)
    /\ (forall p, is_Some (files w !! p) -> is_Some (files w' !! p)).
Proof.
  intros Hne.
  destruct (retriever_run selection w)
    as (results & fetched & w' & Hrun & Hlen & _ & Hreq & Hfetched & _ & Hkeep & _).
  destruct (report_Returns results) as (notes & Hnotes).
  { intros ->. destruct selection; [contradiction | discriminate]. }
  exists results, w', notes, fetched. split; [exact Hrun|].
  split; [exact Hnotes|]. split; [rewrite Hreq, Hfetched; reflexivity|].
  split; [|exact Hkeep].
  intros Hnamed. rewrite Hreq, (sent_by_all_named _ Hnamed). reflexivity.
Qed.

Ltac ends_without_files :=
  split; [reflexivity|];
  (split; [|split; [|split; [|split; [|split]]]]);
  [ try discriminate
  | try discriminate
  | discriminate
  | try (simpl; rewrite <- ?app_assoc; eauto; fail)
  | reflexivity
  | try discriminate ].

Lemma pipeline_summary site formats w :
  exists e w',
    pipeline site formats w = Some (e, w')
    /\ (forall msg, e = Rejected msg -> mkdir_error = Some msg)
    /\ (forall c, e = Exited c -> c = 0 \/ c = 1)
    /\ e <> Helped
    /\ (exists more, requests w' = requests w ++ more)
    /\ (e <> Finished -> files w' = files w)
    /\ (e = Finished ->
        exists allUrls selection results w2,
          fst (extractUrls site w) = Returns allUrls
          /\ files w2 = files w
          /\ downloadFontFiles_results selection w2 = Some (Ret results, w')
          /\ let accessibleUrls :=
               List.filter reachable
                 (filterUrlsByExtension allUrls (selectedExtensions formats)) in
             if argv_blind then selection = accessibleUrls
             else exists items,
                    map value items = accessibleUrls
                    /\ prompt_fonts items = Answered selection).
Proof.
  unfold pipeline, downloadFontFiles, ensureOutputDir.
  destruct formats as [|f formats].
  { exists (Exited 0), w. ends_without_files.
    - intros c [= <-]. auto.
    - exists []. rewrite app_nil_r. reflexivity. }
  pose proof (extractUrls_world site w) as Hw1.
  pose proof (extractUrls_exit site w) as Hexit.
  destruct (extractUrls site w) as [[allUrls|c] w1] eqn:Hpage;
    simpl in Hw1, Hexit; subst w1.
  2:{ eexists (Exited c), _. ends_without_files.
      intros c' [= <-]. right. apply Hexit. reflexivity. }
  clear Hexit.
  pose proof (kept_are_coloured allUrls (f :: formats)) as Hnamed.
  set (exts := selectedExtensions (f :: formats)) in *.
  destruct (filterUrlsByExtension allUrls exts) as [|u0 fontUrls] eqn:Hfont.
  { eexists (Exited 0), _. ends_without_files. intros c [= <-]. auto. }
  rewrite testUrls_filter. cbn [requests files].
  specialize (Hnamed _ (filter_sublist reachable (u0 :: fontUrls))).
  destruct (List.filter reachable (u0 :: fontUrls)) as [|a accessible] eqn:Hacc.
  { eexists (Exited 0), _. ends_without_files. intros c [= <-]. auto. }
  destruct mkdir_error as [msg|] eqn:Hmk.
  { eexists (Rejected msg), _. ends_without_files. intros m [= <-]. reflexivity. }
  destruct (fontItems_coloured (a :: accessible) Hnamed)
    as (items & Hitems & Hvalues & _).
  rewrite Hitems.
  destruct argv_blind eqn:Hblind.
  - destruct (download_step (a :: accessible)
                (mkWorld ((requests w ++ [(GET, site)])
                          ++ map (fun u => (HEAD, u)) (u0 :: fontUrls)) (files w)))
      as (results & w' & notes & fetched & Hrun & Hnotes & Hreq & _);
      [discriminate|].
    rewrite Hrun, Hnotes. exists Finished, w'.
    split; [reflexivity|]. split; [discriminate|]. split; [discriminate|].
    split; [discriminate|].
    split; [rewrite Hreq; simpl; rewrite <- !app_assoc; eauto|].
    split; [intros []; reflexivity|]. intros _.
    exists allUrls, (a :: accessible), results,
      (mkWorld ((requests w ++ [(GET, site)])
                         ++ map (fun u => (HEAD, u)) (u0 :: fontUrls)) (files w)).
    split; [reflexivity|]. split; [reflexivity|]. split; [exact Hrun|].
    simpl. fold exts. rewrite Hfont, Hacc. reflexivity.
  - destruct (prompt_fonts items) as [|[|s selection]] eqn:Hprompt.
    + eexists Cancelled, _. ends_without_files.
    + eexists (Exited 0), _. ends_without_files. intros c [= <-]. auto.
    + destruct (download_step (s :: selection)
                  (mkWorld ((requests w ++ [(GET, site)])
                            ++ map (fun u => (HEAD, u)) (u0 :: fontUrls)) (files w)))
        as (results & w' & notes & fetched & Hrun & Hnotes & Hreq & _);
        [discriminate|].
      rewrite Hrun, Hnotes. exists Finished, w'.
      split; [reflexivity|]. split; [discriminate|]. split; [discriminate|].
      split; [discriminate|].
      split; [rewrite Hreq; simpl; rewrite <- !app_assoc; eauto|].
      split; [intros []; reflexivity|]. intros _.
      exists allUrls, (s :: selection), results,
        (mkWorld ((requests w ++ [(GET, site)])
                         ++ map (fun u => (HEAD, u)) (u0 :: fontUrls)) (files w)).
      split; [reflexivity|]. split; [reflexivity|]. split; [exact Hrun|].
      simpl. fold exts. rewrite Hfont, Hacc. exists items. auto.
Qed.

Lemma init_summary w :
  exists e w',
    init w = Some (e, w')
    /\ (forall msg, e = Rejected msg -> mkdir_error = Some msg)
    /\ (forall c, e = Exited c -> c = 0 \/ c = 1)
    /\ (e = Helped <-> argv_help = true)
    /\ (exists more, requests w' = requests w ++ more)
    /\ (e <> Finished -> files w' = files w)
    /\ (e = Finished ->
        exists site formats, pipeline site formats w = Some (Finished, w')).
Proof.
  assert (Hstill : exists more, requests w = requests w ++ more)
    by (exists []; rewrite app_nil_r; reflexivity).
  unfold init. destruct argv_help.
  { exists Helped, w. repeat (split; try discriminate; auto). }
  assert (Hpipe : forall site formats,
            exists e w',
              pipeline site formats w = Some (e, w')
              /\ (forall msg, e = Rejected msg -> mkdir_error = Some msg)
              /\ (forall c, e = Exited c -> c = 0 \/ c = 1)
              /\ (e = Helped <-> false = true)
              /\ (exists more, requests w' = requests w ++ more)
              /\ (e <> Finished -> files w' = files w)
              /\ (e = Finished ->
                  exists site formats, pipeline site formats w = Some (Finished, w'))).
  { intros site formats.
    destruct (pipeline_summary site formats w)
      as (e & w' & Hrun & Hrej & Hexit & Hhelp & Hreq & Hfiles & _).
    exists e, w'. split; [exact Hrun|]. split; [exact Hrej|].
    split; [exact Hexit|]. split; [split; [contradiction | discriminate]|].
    split; [exact Hreq|]. split; [exact Hfiles|].
    intros ->. eauto. }
  destruct (match truthy argv_url with
            | Some u => Answered u
            | None => prompt_url
            end) as [|websiteUrl].
  { exists Cancelled, w. repeat (split; try discriminate; auto). }
  destruct (truthy argv_formats) as [argFormats|].
  - unfold formatsOfArgv.
    destruct (invalidFormats (formatNames argFormats)); [apply Hpipe|].
    exists (Exited 1), w. repeat (split; try discriminate; auto).
    intros c [= <-]. auto.
  - destruct prompt_formats as [|formatResult]; [|apply Hpipe].
    exists Cancelled, w. repeat (split; try discriminate; auto).
Qed.

(** A file written by the retriever is the file of one of the addresses
    it was given. *)
Lemma written_by_a_download selection w2 results w' p :
  downloadFontFiles_results selection w2 = Some (Ret results, w') ->
  files w' !! p <> files w2 !! p ->
  exists u urlObj response buffer segment,
    In u selection
    /\ new_URL u None = Ret urlObj
    /\ lastSegment (pathname urlObj) = Some segment
    /\ segment <> ""
    /\ p = path_join OUTPUT_DIR segment
    /\ network GET u = Ret response
    /\ ok response = true
    /\ arrayBuffer response = Ret buffer.
Proof.
  intros Hs Hp.
  destruct (retriever_run selection w2)
    as (results' & fetched & w'' & Hrun & _ & _ & _ & _ & _ & _ & _ & Hother & _).
  rewrite Hs in Hrun. injection Hrun as <- <-.
  destruct (Hother p Hp) as (u & buffer & Hu & Hw).
  destruct (written_by_spec u) as (o & _ & _ & Hspec).
  rewrite Hw in Hspec.
  destruct Hspec as (_ & _ & -> & urlObj & response & Hurl & Hseg & Hne & Hnet
                     & Hok & Hbuf).
  exists u, urlObj, response, buffer, (filename o). auto 10.
Qed.

End RunFacts.

(** X18. A run always ends: with the help text, by a cancelled prompt, by
    an exit with code 0 or 1, normally, or by a rejection, which happens
    only when the output directory cannot be made. Requests are only
    added to the log, and unless the run ends normally the files are what
    they were. *)
Theorem init_always_ends :
  forall (P : Platform) (S : Session) (w : World),
    exists e w',
      init w = Some (e, w')
      /\ (forall msg, e = Rejected msg -> mkdir_error = Some msg)
      /\ (forall c, e = Exited c -> c = 0 \/ c = 1)
      /\ (e = Helped <-> argv_help = true)
      /\ (exists more, requests w' = requests w ++ more)
      /\ (e <> Finished -> files w' = files w).
Proof.
  intros P S w.
  destruct (init_summary w) as (e & w' & Hrun & Hrej & Hexit & Hhelp & Hreq & Hfiles & _).
  exists e, w'. auto 10.
Qed.

(** X19. A blind run that got the page asks for the page once, then
    probes every address that the filter kept, then, unless the output
    directory cannot be made, fetches every reachable one, in that order
    and nothing else. It exits with code 0 when no address is reachable;
    otherwise it ends normally, or it rejects with the error of the
    directory and has fetched nothing; no file is lost. *)
Theorem blind_run_requests :
  forall (P : Platform) (S : Session) (site : string) (formats : list string)
         (w : World) (allUrls : list string),
    argv_blind = true ->
    formats <> [] ->
    fst (extractUrls site w) = Returns allUrls ->
    let fontUrls := filterUrlsByExtension allUrls (selectedExtensions formats) in
    let accessibleUrls := List.filter reachable fontUrls in
    exists w',
      pipeline site formats w
      = Some (match accessibleUrls, mkdir_error with
              | [], _ => Exited 0
              | _ :: _, Some message => Rejected message
              | _ :: _, None => Finished
              end, w')
      /\ requests w'
         = requests w ++ (GET, site) :: map (fun u => (HEAD, u)) fontUrls
                      ++ match mkdir_error with
                         | Some _ => []
                         | None => map (fun u => (GET, u)) accessibleUrls
                         end
      /\ (forall p, is_Some (files w !! p) -> is_Some (files w' !! p)).
Proof.
  intros P S site formats w allUrls Hblind Hformats Hpage fontUrls accessibleUrls.
  pose proof (extractUrls_world site w) as Hw1.
  unfold pipeline, downloadFontFiles, ensureOutputDir.
  destruct formats as [|f formats]; [contradiction|].
  destruct (extractUrls site w) as [c w1]. simpl in Hpage, Hw1. subst c w1.
  pose proof (kept_are_coloured allUrls (f :: formats)
                accessibleUrls (filter_sublist _ _)) as Hcoloured.
  pose proof (kept_are_named allUrls (selectedExtensions (f :: formats))
                accessibleUrls (filter_sublist _ _)) as Hnamed.
  subst accessibleUrls. fold fontUrls in Hnamed, Hcoloured |- *.
  destruct fontUrls as [|u0 fontUrls'] eqn:Hfont.
  { eexists. split; [reflexivity|]. simpl.
    split; [destruct mkdir_error; reflexivity | auto]. }
  rewrite testUrls_filter. cbn [requests files].
  destruct (List.filter reachable (u0 :: fontUrls')) as [|a accessible] eqn:Hacc.
  { eexists. split; [reflexivity|]. simpl.
    split; [destruct mkdir_error; rewrite app_nil_r, <- app_assoc; reflexivity
           | auto]. }
  destruct mkdir_error as [message|].
  { eexists. split; [reflexivity|]. simpl.
    split; [rewrite app_nil_r, <- app_assoc; reflexivity | auto]. }
  rewrite Hblind.
  destruct (fontItems_coloured _ Hcoloured) as (items & -> & _).
  destruct (download_step (a :: accessible)
              (mkWorld ((requests w ++ [(GET, site)])
                        ++ map (fun u => (HEAD, u)) (u0 :: fontUrls')) (files w)))
    as (results & w' & notes & fetched & Hrun & Hnotes & _ & Hreq & Hkeep);
    [discriminate|].
  rewrite Hrun, Hnotes. exists w'. split; [reflexivity|].
  rewrite (Hreq Hnamed). split; [|exact Hkeep].
  cbn [requests]. rewrite <- !app_assoc. reflexivity.
Qed.

(** X20. Whatever the run does, it writes font files only, and only into
    the output directory: a path whose content has changed is the path,
    in the output directory, of the final segment of an address that was
    found reachable and has just been fetched, and that segment ends,
    whatever the case of its letters, with a dot and one of the five
    extensions of the catalog. The prompt is assumed to answer with
    choices it was given. *)
Theorem only_fonts_are_written :
  forall (P : Platform) (S : Session) (w : World),
    (forall items selection u,
       prompt_fonts items = Answered selection ->
       In u selection -> In u (map value items)) ->
    exists e w',
      init w = Some (e, w')
      /\ forall p,
           files w' !! p <> files w !! p ->
           e = Finished
           /\ exists u urlObj segment ext response,
                new_URL u None = Ret urlObj
                /\ lastSegment (pathname urlObj) = Some segment
                /\ p = path_join OUTPUT_DIR segment
                /\ In ext ["woff2"; "woff"; "ttf"; "otf"; "eot"]
                /\ ends_with (toLowerCase segment) ("." +:+ ext)
                /\ reachable u = true
                /\ network GET u = Ret response
                /\ ok response = true.
Proof.
  intros P S w Hprompt.
  destruct (init_summary w) as (e & w' & Hrun & _ & _ & _ & _ & Hfiles & Hfin).
  exists e, w'. split; [exact Hrun|]. intros p Hp.
  assert (He : e = Finished).
  { destruct e; try reflexivity; exfalso; apply Hp; rewrite Hfiles;
      try reflexivity; discriminate. }
  split; [exact He|].
  destruct (Hfin He) as (site & formats & Hpipe).
  destruct (pipeline_summary site formats w)
    as (e' & w2' & Hpipe' & _ & _ & _ & _ & _ & Hfin').
  rewrite Hpipe in Hpipe'. injection Hpipe' as <- <-.
  destruct (Hfin' eq_refl) as (allUrls & selection & results & w2 & _ & Hw2 & Hs & Hsel).
  rewrite <- Hw2 in Hp.
  destruct (written_by_a_download selection w2 results w' p Hs Hp)
    as (u & urlObj & response & buffer & segment & Hu & Hurl & Hseg & _ & Hpath
        & Hnet & Hok & _).
  assert (Hacc : In u (List.filter reachable
                         (filterUrlsByExtension allUrls (selectedExtensions formats)))).
  { simpl in Hsel. destruct argv_blind.
    - rewrite <- Hsel. exact Hu.
    - destruct Hsel as (items & <- & Hanswer). eapply Hprompt; eassumption. }
  apply filter_In in Hacc as [[_ Hext]%filter_In Hreach].
  apply hasExtension_spec in Hext
    as (urlObj' & seg & ext & Hurl' & Hseg'%lastSegment_spec & Hin & Hends).
  rewrite Hurl in Hurl'. injection Hurl' as <-.
  rewrite Hseg in Hseg'. injection Hseg' as <-.
  apply selectedExtensions_catalog in Hin.
  exists u, urlObj, segment, ext, response.
  repeat (split; [assumption|]). split; [|auto].
  simpl in Hin. destruct Hin as [<-|[<-|[<-|[<-|[<-|[]]]]]]; exact Hends.
Qed.

Lemma blind_run_requests_witness :
  exists w',
    @pipeline Reference.platform (blind_session Reference.page_url "all")
      Reference.page_url ["all"] untouched
    = Some (Finished, w')
    /\ requests w'
       = [(GET, Reference.page_url);
          (HEAD, "https://cdn.example.com/b.ttf");
          (HEAD, "https://cdn.example.com/c.otf");
          (HEAD, "https://page-origin/a.woff");
          (HEAD, "https://page-origin/cdn.example.com/b.ttf");
          (HEAD, "https://page-origin/cdn.example.com/c.otf");
          (HEAD, "https://page-origin/fonts/a.woff2")]
         ++ map (fun u => (GET, u))
              (List.filter (@reachable Reference.platform)
                 (@filterUrlsByExtension Reference.platform
                    page_addresses
                    (selectedExtensions ["all"])))
    /\ (forall p, is_Some (files untouched !! p) -> is_Some (files w' !! p)).
Proof.
  destruct (blind_run_requests Reference.platform
              (blind_session Reference.page_url "all")
              Reference.page_url ["all"] untouched page_addresses)
    as (w' & Hrun & Hreq & Hkeep).
  - reflexivity.
  - discriminate.
  - vm_compute. reflexivity.
  - exists w'. split; [exact Hrun|]. split; [exact Hreq | exact Hkeep].
Defined.

Lemma only_fonts_are_written_witness :
  exists e w',
    @init Reference.platform (blind_session Reference.page_url "all") untouched
    = Some (e, w')
    /\ forall p,
         files w' !! p <> files untouched !! p ->
         e = Finished
         /\ exists u urlObj segment ext response,
              Reference.parse u None = Ret urlObj
              /\ lastSegment (pathname urlObj) = Some segment
              /\ p = "/home/user/Downloads/typeologist" +:+ "/" +:+ segment
              /\ In ext ["woff2"; "woff"; "ttf"; "otf"; "eot"]
              /\ ends_with (toLowerCase segment) ("." +:+ ext)
              /\ @reachable Reference.platform u = true
              /\ @network Reference.platform GET u = Ret response
              /\ ok response = true.
Proof.
  apply (only_fonts_are_written Reference.platform
           (blind_session Reference.page_url "all") untouched).
  intros items selection u. discriminate.
Defined.

(** ** The order of the candidates *)

Lemma str_compare_trans a :
  forall b c,
    String.compare a b <> Gt -> String.compare b c <> Gt ->
    String.compare a c <> Gt.
Proof.
  induction a as [|x a IH]; intros [|y b] [|z c]; simpl; try congruence.
  unfold Ascii.compare.
  destruct (N.compare_spec (N_of_ascii x) (N_of_ascii y)) as [Exy|Hxy|Hxy];
    [| |congruence];
    destruct (N.compare_spec (N_of_ascii y) (N_of_ascii z)) as [Eyz|Hyz|Hyz];
    try congruence; intros Hab Hbc.
  - rewrite Exy, Eyz, N.compare_refl. apply IH with b; assumption.
  - rewrite Exy. apply N.compare_lt_iff in Hyz. rewrite Hyz. discriminate.
  - rewrite <- Eyz. apply N.compare_lt_iff in Hxy. rewrite Hxy. discriminate.
  - assert (Hxz : (N_of_ascii x < N_of_ascii z)%N) by lia.
    apply N.compare_lt_iff in Hxz. rewrite Hxz. discriminate.
Qed.

Lemma str_le_trans a b c : str_le a b -> str_le b c -> str_le a c.
Proof.
  unfold str_le, String.leb.
  pose proof (str_compare_trans a b c) as Htrans.
  destruct (String.compare a b); try discriminate;
    destruct (String.compare b c); try discriminate;
    destruct (String.compare a c); try reflexivity;
    intros _ _; exfalso; apply Htrans; first [discriminate | reflexivity].
Qed.

Lemma StronglySorted_filter {A} (R : A -> A -> Prop) (f : A -> bool) l :
  StronglySorted R l -> StronglySorted R (List.filter f l).
Proof.
  induction 1 as [|x l Hl IH Hx]; simpl; [constructor|].
  destruct (f x); [|exact IH]. constructor; [exact IH|].
  apply List.Forall_forall. intros y [Hy _]%filter_In.
  rewrite List.Forall_forall in Hx. apply Hx, Hy.
Qed.

Lemma Sorted_filter (f : string -> bool) l :
  Sorted str_le l -> Sorted str_le (List.filter f l).
Proof.
  intros Hl. apply StronglySorted_Sorted, StronglySorted_filter.
  apply Sorted_StronglySorted; [|exact Hl].
  intros a b c. apply str_le_trans.
Qed.

Lemma NoDup_filter_list {A} (f : A -> bool) (l : list A) :
  List.NoDup l -> List.NoDup (List.filter f l).
Proof.
  induction 1 as [|x l Hx _ IH]; simpl; [constructor|].
  destruct (f x); [|exact IH]. constructor; [|exact IH].
  intros [Hin _]%filter_In. contradiction.
Qed.

(** X21. The addresses of a page come in ascending order and each of them
    once, and filtering and probing keep it so: in a run no address is
    probed twice, and none is fetched twice when every reachable one is
    taken. *)
Theorem candidates_are_sorted_and_unique :
  forall (P : Platform) (site : string) (w : World) (allUrls extensions : list string),
    fst (extractUrls site w) = Returns allUrls ->
    let fontUrls := filterUrlsByExtension allUrls extensions in
    let accessibleUrls := List.filter reachable fontUrls in
    Sorted str_le allUrls /\ List.NoDup allUrls
    /\ Sorted str_le fontUrls /\ List.NoDup fontUrls
    /\ Sorted str_le accessibleUrls /\ List.NoDup accessibleUrls.
Proof.
  intros P site w allUrls extensions Hpage fontUrls accessibleUrls.
  assert (Hall : Sorted str_le allUrls /\ List.NoDup allUrls).
  { revert Hpage. unfold extractUrls, bind, fetch, throw, lift, ret.
    destruct (network GET site) as [response|e]; simpl; [|discriminate].
    destruct (ok response); simpl; [|discriminate].
    destruct (text response) as [html|e]; simpl; [|discriminate].
    intros [= <-]. apply scanDocument_sorted. }
  destruct Hall as [Hsorted Hnodup].
  subst accessibleUrls fontUrls. unfold filterUrlsByExtension.
  repeat split; auto using Sorted_filter, NoDup_filter_list.
Qed.

Lemma candidates_are_sorted_and_unique_witness :
  Sorted str_le
    page_addresses
  /\ List.NoDup
       page_addresses
  /\ Sorted str_le
       (@filterUrlsByExtension Reference.platform
          page_addresses ["ttf"])
  /\ List.NoDup
       (@filterUrlsByExtension Reference.platform
          page_addresses ["ttf"])
  /\ Sorted str_le
       (List.filter (@reachable Reference.platform)
          (@filterUrlsByExtension Reference.platform
             page_addresses ["ttf"]))
  /\ List.NoDup
       (List.filter (@reachable Reference.platform)
          (@filterUrlsByExtension Reference.platform
             page_addresses ["ttf"])).
Proof.
  apply (candidates_are_sorted_and_unique Reference.platform
           Reference.page_url untouched).
  vm_compute. reflexivity.
Defined.

(** ** An address in running text *)

Lemma delimiter_class c :
  cls_accepts true true delimiters c = without_delimiter c.
Proof.
  apply Bool.eqb_prop.
  apply (every_unit (fun c => Bool.eqb (cls_accepts true true delimiters c)
                                       (without_delimiter c))).
  vm_compute. reflexivity.
Qed.

Section GreedyRun.
Variable p : ascii -> bool.
Variable f : bool -> string -> list result.
Hypothesis f_class :
  forall b s,
    f b s = match s with
            | EmptyString => []
            | String x s' => if p x then [(String x "", s')] else []
            end.

(** A repeated class takes the whole run of units of the class first. *)
Lemma rep_class_greedy body rest :
  str_forallb p body = true ->
  match rest with
  | EmptyString => True
  | String d _ => p d = false
  end ->
  forall fuel min bol,
    min <= String.length body ->
    String.length body <= fuel ->
    exists l, rep_go f fuel min bol (body +:+ rest) = (body, rest) :: l.
Proof.
  intros Hbody Hrest. induction body as [|c body IH]; intros fuel min bol Hmin Hfuel.
  - simpl in Hmin. assert (min = 0) as -> by lia. cbn [String.append].
    destruct fuel as [|fuel]; cbn [rep_go]; [eauto|].
    rewrite f_class.
    replace (match rest with
             | "" => []
             | String x s' => if p x then [(String x "", s')] else []
             end) with (@nil result).
    + simpl. eauto.
    + destruct rest as [|d rest]; [reflexivity|]. rewrite Hrest. reflexivity.
  - destruct fuel as [|fuel]; [simpl in Hfuel; lia|].
    simpl in Hbody. apply andb_prop in Hbody as [Hc Hbody].
    cbn [String.append rep_go]. rewrite f_class, Hc. cbn [flat_map].
    replace ((min =? 0) && (String c "" =? "")%string) with false
      by (symmetry; apply andb_false_r).
    destruct (IH Hbody fuel (Nat.pred min) (bol && (String c "" =? "")%string))
      as (l & ->); [simpl in Hmin; lia | simpl in Hfuel; lia|].
    cbn [map app]. eauto.
Qed.

End GreedyRun.

Lemma matches_seq_head ic r1 r2 bol s m1 s1 l1 m2 s2 l2 :
  matches ic r1 bol s = (m1, s1) :: l1 ->
  matches ic r2 (bol && String.eqb m1 "") s1 = (m2, s2) :: l2 ->
  exists l, matches ic (Seq r1 r2) bol s = (m1 +:+ m2, s2) :: l.
Proof.
  intros H1 H2. cbn [matches]. rewrite H1. cbn [flat_map]. rewrite H2.
  cbn [map app]. eauto.
Qed.

Lemma matches_tail body rest bol :
  body <> "" ->
  str_forallb without_delimiter body = true ->
  ends_at_delimiter rest = true ->
  exists l,
    matches true (Seq (Plus (Cls true delimiters)) Eps) bol (body +:+ rest)
    = (body, rest) :: l.
Proof.
  intros Hne Hbody Hrest.
  destruct (rep_class_greedy (cls_accepts true true delimiters)
              (matches true (Cls true delimiters))
              (fun b s => match s with
                          | "" => eq_refl
                          | String _ _ => eq_refl
                          end) body rest) with
    (fuel := 1 + String.length (body +:+ rest)) (min := 1) (bol := bol)
    as (l & Hl).
  - rewrite (str_forallb_ext _ without_delimiter); [exact Hbody|].
    intros c. apply delimiter_class.
  - destruct rest as [|d rest]; [exact I|]. simpl in Hrest.
    rewrite delimiter_class. unfold without_delimiter. rewrite Hrest. reflexivity.
  - destruct body; [contradiction | simpl; lia].
  - rewrite str_length_app. lia.
  - destruct (matches_seq_head true (Plus (Cls true delimiters)) Eps bol
                (body +:+ rest) body rest l "" rest []) as (l' & Hl').
    + exact Hl.
    + reflexivity.
    + rewrite str_app_nil_r in Hl'. eauto.
Qed.

Lemma matches_lit_head ic c x r bol s m s2 :
  Ascii.eqb (canon ic c) (canon ic x) = true ->
  (exists l, matches ic r false s = (m, s2) :: l) ->
  exists l, matches ic (Seq (Lit c) r) bol (String x s) = (String x m, s2) :: l.
Proof.
  intros Hc (l & Hl).
  apply (matches_seq_head ic (Lit c) r bol (String x s) (String x "") s [] m s2 l).
  - cbn [matches]. rewrite Hc. reflexivity.
  - rewrite andb_false_r. exact Hl.
Qed.

Lemma matches_opt_skip ic c x r bol s m s2 :
  Ascii.eqb (canon ic c) (canon ic x) = false ->
  (exists l, matches ic r bol (String x s) = (m, s2) :: l) ->
  exists l, matches ic (Seq (Opt (Lit c)) r) bol (String x s) = (m, s2) :: l.
Proof.
  intros Hc (l & Hl).
  apply (matches_seq_head ic (Opt (Lit c)) r bol (String x s) "" (String x s) []
           m s2 l).
  - unfold Opt. cbn [matches rep_go]. rewrite Hc. reflexivity.
  - rewrite andb_true_r. exact Hl.
Qed.

Lemma matches_opt_take ic c x r bol s m s2 :
  Ascii.eqb (canon ic c) (canon ic x) = true ->
  (exists l, matches ic r false s = (m, s2) :: l) ->
  exists l, matches ic (Seq (Opt (Lit c)) r) bol (String x s) = (String x m, s2) :: l.
Proof.
  intros Hc (l & Hl).
  apply (matches_seq_head ic (Opt (Lit c)) r bol (String x s) (String x "") s
           [("", String x s)] m s2 l).
  - unfold Opt. cbn [matches rep_go]. rewrite Hc. cbn [flat_map].
    rewrite andb_false_r. reflexivity.
  - rewrite andb_false_r. exact Hl.
Qed.

Lemma match_here_marked re mark body rest bol :
  marked re mark ->
  body <> "" ->
  str_forallb without_delimiter body = true ->
  ends_at_delimiter rest = true ->
  match_here re bol (mark +:+ body +:+ rest) = Some (mark +:+ body).
Proof.
  intros Hmark Hne Hbody Hrest. unfold match_here.
  enough (exists l, matches (ignoreCase re) (source re) bol (mark +:+ body +:+ rest)
                    = (mark +:+ body, rest) :: l) as (l & ->) by reflexivity.
  pose proof (matches_tail body rest false Hne Hbody Hrest) as Htail.
  destruct Hmark as [[-> [-> | ->]]|[[-> ->]|[-> ->]]];
    cbn [pattern_absolute pattern_protocol_relative pattern_root_relative
         source ignoreCase seq fold_right String.append].
  - do 4 (apply matches_lit_head; [reflexivity|]).
    apply matches_opt_skip; [reflexivity|].
    do 3 (apply matches_lit_head; [reflexivity|]).
    exact Htail.
  - do 4 (apply matches_lit_head; [reflexivity|]).
    apply matches_opt_take; [reflexivity|].
    do 3 (apply matches_lit_head; [reflexivity|]).
    exact Htail.
  - do 2 (apply matches_lit_head; [reflexivity|]). exact Htail.
  - apply matches_lit_head; [reflexivity|]. exact Htail.
Qed.

Lemma marked_pattern re mark : marked re mark -> In re urlPatterns.
Proof.
  intros [[-> _]|[[-> _]|[-> _]]]; simpl; auto.
Qed.

Lemma scan_head re bol s m :
  match_here re bol s = Some m -> In m (scan re bol 0 s).
Proof. intros Hm. destruct s; simpl; rewrite Hm; left; reflexivity. Qed.

Lemma prefix_survives pre :
  forall body u run,
    str_existsb is_trailing_unit pre = false ->
    pre +:+ body = u +:+ run ->
    str_forallb is_trailing_unit run = true ->
    exists kept, u = pre +:+ kept.
Proof.
  induction pre as [|c pre IH]; intros body u run Hpre E Hrun; [eauto|].
  simpl in Hpre. apply orb_false_elim in Hpre as [Hc Hpre].
  destruct u as [|c' u]; simpl in E.
  - subst run. simpl in Hrun. rewrite Hc in Hrun. discriminate.
  - injection E as <- E. destruct (IH _ _ _ Hpre E Hrun) as (kept & ->).
    exists kept. reflexivity.
Qed.

(** X22. An address that begins with [http://], [https://], [//] or [/],
    stands at the start of the text or after white space, and runs up to a
    delimiter or to the end of the text, is found: without its trailing
    run of punctuation, mark included, it is in the result, provided it is
    then longer than two units and not made of punctuation and slashes
    only, which is always so for [http://] and [https://]. *)
Theorem marked_addresses_are_found :
  forall mark body rest text : string,
    In mark ["http://"; "https://"; "//"; "/"] ->
    body <> "" ->
    str_forallb without_delimiter body = true ->
    ends_at_delimiter rest = true ->
    text = mark +:+ body +:+ rest
    \/ (exists pre w, is_white w = true
                      /\ text = pre +:+ String w (mark +:+ body +:+ rest)) ->
    exists u kept,
      stripped (mark +:+ body) u
      /\ u = mark +:+ kept
      /\ (keeps u = true -> In u (extractUrlsFromText text))
      /\ (mark = "http://" \/ mark = "https://" -> keeps u = true).
Proof.
  intros mark body rest text Hmark Hne Hbody Hrest Htext.
  assert (Hre : exists re, marked re mark).
  { unfold marked. simpl in Hmark.
    destruct Hmark as [<-|[<-|[<-|[<-|[]]]]]; eauto 8. }
  destruct Hre as (re & Hre).
  pose proof (marked_pattern re mark Hre) as Hpattern.
  set (m := mark +:+ body).
  assert (Hm : In m (String_match text re)).
  { unfold String_match. destruct Htext as [->|(pre & w & Hw & ->)].
    - apply scan_head, match_here_marked; assumption.
    - apply (scan_past_white re (urlPatterns_without_white re Hpattern));
        [exact Hw | reflexivity|].
      apply scan_head, match_here_marked; assumption. }
  assert (Htrim : trim m = m).
  { apply trim_without_white.
    apply (scan_sound _ re (urlPatterns_without_white re Hpattern) _ _ _ _ Hm). }
  pose proof (replace_trailing_stripped (trim m)) as Hstripped.
  fold (cleanUrl m) in Hstripped. rewrite Htrim in Hstripped.
  destruct Hstripped as [(run & Hrun & Hpunct) Hclean].
  destruct (prefix_survives mark body (cleanUrl m) run) as (kept & Hkept);
    [simpl in Hmark; destruct Hmark as [<-|[<-|[<-|[<-|[]]]]]; reflexivity
    | exact Hrun | exact Hpunct|].
  exists (cleanUrl m), kept. split; [|split; [exact Hkept|split]].
  - split; [eauto | exact Hclean].
  - intros Hkeeps. apply extractUrlsFromText_In. exists re, m. auto.
  - intros Hhttp. unfold keeps. rewrite test_only_punct, Hkept.
    destruct Hhttp as [-> | ->]; reflexivity.
Qed.

Lemma marked_addresses_are_found_witness :
  exists u kept,
    stripped ("https://" +:+ "cdn.example.com/inter.woff2,") u
    /\ u = "https://" +:+ kept
    /\ (keeps u = true ->
        In u (extractUrlsFromText
                "fonts at https://cdn.example.com/inter.woff2, free"))
    /\ ("https://" = "http://" \/ "https://" = "https://" -> keeps u = true).
Proof.
  apply (marked_addresses_are_found
           "https://" "cdn.example.com/inter.woff2," " free").
  - simpl. tauto.
  - discriminate.
  - vm_compute. reflexivity.
  - vm_compute. reflexivity.
  - right. exists "fonts at", " "%char. split; reflexivity.
Defined.
